(** * SEO content analyzer: the content-scoring engine

    A shallow embedding of the scoring engine of [SEOContentAnalyzer]
    (the elaborated variant: [calculateWordStats],
    [calculateReadabilityScores], [countWordSyllables], [analyzeKeywords],
    [analyzeHeadingStructure], [calculateSEOScore], [updateAnalysis]) and
    the properties of it that the specification states.  The functions of
    the first variant ([script.js]) that differ from it are in the module
    [Legacy].

    Conventions of the model.
    - A JavaScript string is a [list ascii]: a sequence of code units in
      the range U+0000..U+00FF.  The character classes below ([\s], [\w],
      line terminators, [toLowerCase]) are the ECMAScript ones restricted
      to that range.
    - Counts and lengths are [nat], scores are [Z].
    - Every other Number is an exact rational [Q]; [Math.round] is
      [floor (x + 1/2)].  [Math.sqrt] is not rational and stays abstract (a
      section variable of the definitions that use it).
    - The analyzer object ([this]) is an explicit record that is passed in
      and returned. *)

From Stdlib Require Import Strings.String Strings.Ascii.
From Stdlib Require Import Bool Arith NArith ZArith QArith Qround Qabs Lia Lqa.
From Stdlib Require Import Numbers.DecimalString.
From Stdlib Require Import List Sorting.Sorted Sorting.Permutation.
Import ListNotations.

Close Scope Q_scope.
Local Open Scope nat_scope.
Local Open Scope list_scope.

(** ** JavaScript primitives *)

Module JS.

Definition code (c : ascii) : N := N_of_ascii c.

Definition in_range (lo hi : N) (c : ascii) : bool :=
  (lo <=? code c)%N && (code c <=? hi)%N.

(** [\s]: TAB, LF, VT, FF, CR, SPACE and NO-BREAK SPACE. *)
Definition is_space (c : ascii) : bool :=
  existsb (N.eqb (code c)) [9; 10; 11; 12; 13; 32; 160]%N.

(** Line terminators (what [.] does not match, where [^] and [$] anchor
    under the [m] flag): LF and CR. *)
Definition is_line_terminator (c : ascii) : bool :=
  existsb (N.eqb (code c)) [10; 13]%N.

Definition is_newline (c : ascii) : bool := (code c =? 10)%N.

Definition is_digit (c : ascii) : bool := in_range 48 57 c.
Definition is_lower (c : ascii) : bool := in_range 97 122 c.
Definition is_upper (c : ascii) : bool := in_range 65 90 c.

(** [\w] is [[A-Za-z0-9_]]. *)
Definition is_word_char (c : ascii) : bool :=
  is_lower c || is_upper c || is_digit c || (code c =? 95)%N.

(** [[a-z0-9]] under the [i] flag. *)
Definition is_alnum (c : ascii) : bool :=
  is_lower c || is_upper c || is_digit c.

(** [String.prototype.toLowerCase], one code unit: A-Z and the Latin-1
    capitals U+00C0..U+00DE (not the multiplication sign U+00D7). *)
Definition lower_char (c : ascii) : ascii :=
  if is_upper c || (in_range 192 222 c && negb (code c =? 215)%N)
  then ascii_of_N (code c + 32)
  else c.

Definition toLowerCase (s : list ascii) : list ascii := map lower_char s.

Fixpoint dropWhile (p : ascii -> bool) (s : list ascii) : list ascii :=
  match s with
  | [] => []
  | c :: s' => if p c then dropWhile p s' else s
  end.

Fixpoint takeWhile (p : ascii -> bool) (s : list ascii) : list ascii :=
  match s with
  | [] => []
  | c :: s' => if p c then c :: takeWhile p s' else []
  end.

(** [String.prototype.trim]. *)
Definition trim (s : list ascii) : list ascii :=
  rev (dropWhile is_space (rev (dropWhile is_space s))).

Definition text_eqb (a b : list ascii) : bool :=
  if list_eq_dec ascii_dec a b then true else false.

(** [s.startsWith(p)]. *)
Fixpoint startsWith (p s : list ascii) : bool :=
  match p, s with
  | [], _ => true
  | _ :: _, [] => false
  | a :: p', b :: s' => Ascii.eqb a b && startsWith p' s'
  end.

Definition endsWith (p s : list ascii) : bool := startsWith (rev p) (rev s).

(** [s.includes(p)]. *)
Fixpoint includes (s p : list ascii) : bool :=
  startsWith p s ||
  match s with
  | [] => false
  | _ :: s' => includes s' p
  end.

(** [s.split(/[...]+/)] for a one-character class [sep]: the pieces between
    the maximal runs of separator characters; a run at either end leaves an
    empty piece there, and the empty string gives one empty piece. *)
Fixpoint split_runs (sep : ascii -> bool) (s cur : list ascii) (in_run : bool)
  : list (list ascii) :=
  match s with
  | [] => [rev cur]
  | c :: s' =>
      if sep c then
        if in_run then split_runs sep s' cur true
        else rev cur :: split_runs sep s' [] true
      else split_runs sep s' (c :: cur) false
  end.

(** [s.split(/\s+/)]. *)
Definition split_ws (s : list ascii) : list (list ascii) :=
  split_runs is_space s [] false.

(** [s.split(/[.!?]+/)]. *)
Definition is_terminator (c : ascii) : bool :=
  existsb (Ascii.eqb c) ["."; "!"; "?"]%char.

Definition split_sentences (s : list ascii) : list (list ascii) :=
  split_runs is_terminator s [] false.

(** The tail [\s*\n] of [/\n\s*\n/], tried just after a line feed: [\s*]
    takes the whole run of white space and gives characters back until a
    line feed follows, so the match ends after the last line feed of the run.
    The result is the number of characters consumed. *)
Fixpoint blank_line_end (s : list ascii) : option nat :=
  match s with
  | [] => None
  | c :: s' =>
      if is_space c then
        match blank_line_end s' with
        | Some n => Some (S n)
        | None => if is_newline c then Some 1%nat else None
        end
      else None
  end.

(** [s.split(/\n\s*\n/)]; [skip] counts the characters of the current
    match that are still to be passed over. *)
Fixpoint split_blank_lines (s cur : list ascii) (skip : nat)
  : list (list ascii) :=
  match s with
  | [] => [rev cur]
  | c :: s' =>
      match skip with
      | S k => split_blank_lines s' cur k
      | O =>
          if is_newline c then
            match blank_line_end s' with
            | Some n => rev cur :: split_blank_lines s' [] n
            | None => split_blank_lines s' (c :: cur) 0
            end
          else split_blank_lines s' (c :: cur) 0
      end
  end.

Definition nonempty (s : list ascii) : bool := negb (length s =? 0).

(** [s => s.trim().length > 0]. *)
Definition nonblank (s : list ascii) : bool := nonempty (trim s).

(** [s.replace(/(a1|a2|...)$/, '')]: the leftmost position from which the
    rest of the string is one of the alternatives; the string is cut there. *)
Fixpoint strip_suffix (alts : list (list ascii)) (s : list ascii)
  : list ascii :=
  if existsb (text_eqb s) alts then []
  else match s with
       | [] => []
       | c :: s' => c :: strip_suffix alts s'
       end.

(** [Math.round], [Math.floor], [Math.ceil] on exact rationals. *)
Definition Math_round (x : Q) : Z := Qfloor (x + (1 # 2))%Q.
Definition Math_floor (x : Q) : Z := Qfloor x.
Definition Math_ceil (x : Q) : Z := Qceiling x.

(** Comparisons of Numbers: [a <= b], [a < b], [a === b]. *)
Definition Qleb (a b : Q) : bool := Qle_bool a b.
Definition Qltb (a b : Q) : bool := negb (Qle_bool b a).
Definition Qeqb (a b : Q) : bool := Qeq_bool a b.

(** [Math.max], [Math.min], [Math.abs]. *)
Definition Math_max (a b : Q) : Q := if Qleb a b then b else a.
Definition Math_min (a b : Q) : Q := if Qleb a b then a else b.
Definition Math_abs (a : Q) : Q := Qabs a.

Definition Qnat (n : nat) : Q := inject_Z (Z.of_nat n).

(** A string literal of the source. *)
Definition lit (s : string) : list ascii := list_ascii_of_string s.

(** Template-literal rendering of an integer. *)
Definition show_Z (z : Z) : list ascii :=
  lit (NilZero.string_of_int (Z.to_int z)).

(** *** Regular expressions

    The patterns of the source are sequences of single-character classes,
    greedy repetitions of a class, and assertions.  [match_here] is the
    backtracking matcher of ECMAScript on that fragment: it returns the
    text taken by each atom of the first alternative that succeeds, a
    repetition trying its longest extent first, and what is left of the
    input. *)

Inductive atom : Type :=
| Chr (p : ascii -> bool)
| Rep (p : ascii -> bool) (lo : nat) (hi : option nat)
| Bol
| Eol
| WordB.

Definition below (hi : option nat) (n : nat) : bool :=
  match hi with
  | None => true
  | Some h => n <? h
  end.

Definition is_word_at (o : option ascii) : bool :=
  match o with
  | Some c => is_word_char c
  | None => false
  end.

Definition is_break_at (o : option ascii) : bool :=
  match o with
  | Some c => is_line_terminator c
  | None => true
  end.

Definition match_result : Type := list (list ascii) * list ascii.

Definition took (seg : list ascii) (r : option match_result)
  : option match_result :=
  match r with
  | Some (segs, rest) => Some (seg :: segs, rest)
  | None => None
  end.

(** [p{lo,hi}] followed by the continuation [k]; [taken] holds, last
    first, the characters already given to the repetition. *)
Fixpoint rep_greedy (p : ascii -> bool) (lo : nat) (hi : option nat)
    (k : option ascii -> list ascii -> option match_result)
    (prev : option ascii) (s taken : list ascii) : option match_result :=
  let stop :=
    if lo <=? length taken then took (rev taken) (k prev s) else None in
  match s with
  | c :: s' =>
      if p c && below hi (length taken) then
        match rep_greedy p lo hi k (Some c) s' (c :: taken) with
        | Some r => Some r
        | None => stop
        end
      else stop
  | [] => stop
  end.

(** [prev] is the character before the current position ([None] at the
    start of the input). *)
Fixpoint match_here (atoms : list atom) (prev : option ascii)
    (s : list ascii) : option match_result :=
  match atoms with
  | [] => Some ([], s)
  | Chr p :: atoms' =>
      match s with
      | c :: s' => if p c then took [c] (match_here atoms' (Some c) s')
                   else None
      | [] => None
      end
  | Rep p lo hi :: atoms' => rep_greedy p lo hi (match_here atoms') prev s []
  | Bol :: atoms' =>
      if is_break_at prev then took [] (match_here atoms' prev s) else None
  | Eol :: atoms' =>
      if is_break_at (hd_error s) then took [] (match_here atoms' prev s)
      else None
  | WordB :: atoms' =>
      if xorb (is_word_at prev) (is_word_at (hd_error s))
      then took [] (match_here atoms' prev s) else None
  end.

(** All matches of a [g] pattern, left to right: each match is tried from
    the end of the one before ([skip] counts the characters of the current
    match still to be passed over; an empty match moves on by one).  A match
    is given with its index and the text taken by each atom. *)
Fixpoint matchAll (atoms : list atom) (prev : option ascii) (s : list ascii)
    (skip index : nat) : list (nat * list (list ascii)) :=
  match skip with
  | S k =>
      match s with
      | [] => []
      | c :: s' => matchAll atoms (Some c) s' k (S index)
      end
  | O =>
      match match_here atoms prev s with
      | Some (segs, _) =>
          (index, segs) ::
          match s with
          | [] => []
          | c :: s' =>
              matchAll atoms (Some c) s' (length (concat segs) - 1) (S index)
          end
      | None =>
          match s with
          | [] => []
          | c :: s' => matchAll atoms (Some c) s' 0 (S index)
          end
      end
  end.

(** Canonicalization of a code unit under the [i] flag: its upper-case
    form when that is again one code unit of this range. *)
Definition canon_char (c : ascii) : ascii :=
  if is_lower c || (in_range 224 254 c && negb (code c =? 247)%N)
  then ascii_of_N (code c - 32)
  else c.

Definition ci_eqb (a b : ascii) : bool :=
  Ascii.eqb (canon_char a) (canon_char b).

Definition char_eqb (a b : ascii) : bool := Ascii.eqb a b.

Definition is_syntax_char (c : ascii) : bool :=
  existsb (Ascii.eqb c)
    ["^"; "$"; "\"; "."; "*"; "+"; "?"; "("; ")"; "["; "]"; "{"; "}"; "|"]%char.

End JS.

Import JS.

Declare Scope js_scope.
Delimit Scope js_scope with js.
Infix "<=?" := Qleb (at level 70) : js_scope.
Infix "<?" := Qltb (at level 70) : js_scope.
Infix "=?" := Qeqb (at level 70) : js_scope.
Infix "+" := Qplus : js_scope.
Infix "-" := Qminus : js_scope.
Infix "*" := Qmult : js_scope.
Infix "/" := Qdiv : js_scope.

(** ** TextMetrics: [calculateWordStats] *)

Record WordStats := {
  words : nat;
  characters : nat;
  sentences : nat;
  paragraphs : nat;
  readingTime : Q
}.

(** [text.split(/\s+/).filter(word => word.length > 0).length] *)
Definition countWords (text : list ascii) : nat :=
  length (filter nonempty (split_ws text)).

(** [Math.round((words / 238) * 1.1 * 10) / 10] *)
Definition readingTimeOf (words : nat) : Q :=
  (inject_Z (Math_round ((inject_Z (Z.of_nat words) / 238) * 1.1 * 10)) / 10)%Q.

Definition calculateWordStats (content : list ascii) : WordStats :=
  let text := trim content in
  if negb (nonempty text) then
    {| words := 0; characters := 0; sentences := 0; paragraphs := 0;
       readingTime := 0%Q |}
  else
    let words := countWords text in
    let characters := length text in
    let sentences := length (filter nonblank (split_sentences text)) in
    let paragraphs := length (filter nonblank (split_blank_lines text [] 0)) in
    let readingTime := readingTimeOf words in
    {| words := words; characters := characters; sentences := sentences;
       paragraphs := paragraphs; readingTime := readingTime |}.

(** ** SyllableCounter: [countWordSyllables], [countSyllables],
    [countPolysyllabicWords] *)

(** [/[aeiouy]/.test(c)] *)
Definition is_vowel (c : ascii) : bool :=
  existsb (Ascii.eqb c) ["a"; "e"; "i"; "o"; "u"; "y"]%char.

(** [/[aeiouy]/.test(word[i])]: an index outside the word gives
    [undefined], whose string form contains the letter e. *)
Definition vowel_at (word : list ascii) (i : nat) : bool :=
  match nth_error word i with
  | Some c => is_vowel c
  | None => true
  end.

(** The loop over the letters: [prev] is [word[i - 1]] ([None] when
    [i = 0]).  A y at the start or after a vowel letter takes the
    [continue], which leaves [previousWasVowel] as it was. *)
Fixpoint vowelGroups (prev : option ascii) (word : list ascii)
    (syllables : nat) (previousWasVowel : bool) : nat :=
  match word with
  | [] => syllables
  | char :: rest =>
      let isVowel := is_vowel char in
      if Ascii.eqb char "y" &&
         match prev with None => true | Some p => is_vowel p end
      then vowelGroups (Some char) rest syllables previousWasVowel
      else vowelGroups (Some char) rest
             (if isVowel && negb previousWasVowel then S syllables
              else syllables)
             isVowel
  end.

Definition countWordSyllables (word0 : list ascii) : nat :=
  let word := toLowerCase (filter is_lower word0) in
  if length word =? 0 then 0
  else if length word <=? 3 then 1
  else
    let word := strip_suffix [lit "ed"; lit "es"; lit "s"] word in
    let syllables := vowelGroups None word 0 false in
    let syllables :=
      if endsWith (lit "e") word && (1 <? syllables) then
        if (2 <? length word) && negb (vowel_at word (length word - 2))
        then syllables - 1 else syllables
      else syllables in
    let syllables :=
      if endsWith (lit "le") word && (2 <? length word)
         && negb (vowel_at word (length word - 3))
      then S syllables else syllables in
    Nat.max 1 syllables.

(** [this.content.toLowerCase().split(/\s+/).filter(word => word.length > 0)] *)
Definition contentWords (content : list ascii) : list (list ascii) :=
  filter nonempty (split_ws (toLowerCase content)).

Definition countSyllables (content : list ascii) : nat :=
  fold_left (fun syllableCount word => syllableCount + countWordSyllables word)
            (contentWords content) 0.

Definition countPolysyllabicWords (content : list ascii) : nat :=
  fold_left (fun polysyllabicCount word =>
               if 3 <=? countWordSyllables word then S polysyllabicCount
               else polysyllabicCount)
            (contentWords content) 0.

(** ** ReadabilityScorer: [calculateReadabilityScores] *)

Record ReadabilityScores := {
  fleschEase : Q;
  fleschKincaid : Q;
  smogIndex : Q;
  fleschEaseGrade : list ascii;
  fleschKincaidGrade : list ascii;
  smogGrade : list ascii
}.

Definition getFleschEaseGrade (score : Q) : list ascii :=
  if (90 <=? score)%js then lit "Very Easy (5th grade)"
  else if (80 <=? score)%js then lit "Easy (6th grade)"
  else if (70 <=? score)%js then lit "Fairly Easy (7th grade)"
  else if (60 <=? score)%js then lit "Standard (8th-9th grade)"
  else if (50 <=? score)%js then lit "Fairly Difficult (10th-12th grade)"
  else if (30 <=? score)%js then lit "Difficult (College)"
  else lit "Very Difficult (Graduate)".

Definition getGradeDescription (grade : Q) : list ascii :=
  let gradeLevel := Math_round grade in
  if (gradeLevel <=? 6)%Z then show_Z gradeLevel ++ lit "th grade"
  else if (gradeLevel <=? 12)%Z then show_Z gradeLevel ++ lit "th grade"
  else if (gradeLevel <=? 16)%Z
       then lit "College level (" ++ show_Z (gradeLevel - 12) ++ lit " years)"
  else lit "Graduate level".

(** The divisions of [calculateReadabilityScores] are made explicit: a
    computation returns its value together with the list of the divisions
    (numerator, denominator) it performed, in order. *)
Definition Traced (A : Type) : Type := (A * list (Q * Q))%type.

Definition ret {A : Type} (a : A) : Traced A := (a, []).

Definition bind {A B : Type} (m : Traced A) (k : A -> Traced B) : Traced B :=
  let (a, t1) := m in
  let (b, t2) := k a in
  (b, t1 ++ t2).

Definition divide (n d : Q) : Traced Q := ((n / d)%Q, [(n, d)]).

Notation "x <- m ;; k" := (bind m (fun x => k))
  (at level 61, m at next level, right associativity).

(** The record returned by both guards, up to the grade label. *)
Definition zeroScores (label : list ascii) : ReadabilityScores :=
  {| fleschEase := 0; fleschKincaid := 0; smogIndex := 0;
     fleschEaseGrade := label; fleschKincaidGrade := label;
     smogGrade := label |}.

Section Readability.

Variable Math_sqrt : Q -> Q.

Definition calculateReadabilityScores (content : list ascii)
  : Traced ReadabilityScores :=
  let stats := calculateWordStats content in
  let words := words stats in
  let sentences := sentences stats in
  if (words =? 0) || (sentences =? 0) then ret (zeroScores (lit "N/A"))
  else
    let syllables := countSyllables content in
    let polysyllabicWords := countPolysyllabicWords content in
    if syllables =? 0 then ret (zeroScores (lit "No text to analyze"))
    else
      wordsPerSentence <-
        (if 0 <? sentences then divide (Qnat words) (Qnat sentences)
         else ret 0%Q) ;;
      syllablesPerWord <-
        (if 0 <? words then divide (Qnat syllables) (Qnat words)
         else ret 0%Q) ;;
      let fleschEase :=
        Math_max 0 (Math_min 100
          (206.835 - 1.015 * wordsPerSentence - 84.6 * syllablesPerWord)%js) in
      let fleschKincaid :=
        Math_max 0
          (0.39 * wordsPerSentence + 11.8 * syllablesPerWord - 15.59)%js in
      smogIndex <-
        (if (30 <=? sentences) && (0 <=? polysyllabicWords) then
           smogValue <-
             divide (Qnat polysyllabicWords * 30)%js (Qnat sentences) ;;
           ret (if (0 <=? smogValue)%js
                then (1.043 * Math_sqrt smogValue + 3.1291)%js else 0%Q)
         else if 0 <=? polysyllabicWords then
           ret (1.043 * Math_sqrt (Math_max 0 (Qnat polysyllabicWords))
                + 3.1291)%js
         else ret 0%Q) ;;
      fleschEase1 <- divide (inject_Z (Math_round (fleschEase * 10)%js)) 10 ;;
      fleschKincaid1 <-
        divide (inject_Z (Math_round (fleschKincaid * 10)%js)) 10 ;;
      smogIndex1 <- divide (inject_Z (Math_round (smogIndex * 10)%js)) 10 ;;
      ret {| fleschEase := fleschEase1;
             fleschKincaid := fleschKincaid1;
             smogIndex := smogIndex1;
             fleschEaseGrade := getFleschEaseGrade fleschEase;
             fleschKincaidGrade := getGradeDescription fleschKincaid;
             smogGrade := getGradeDescription smogIndex |}.

End Readability.

(** ** Result records and the analyzer object *)

Record KeywordEntry := {
  word : list ascii;
  count : nat;
  density : Q
}.

Record KeywordAnalysis := {
  primaryKeywordDensity : Q;
  primaryKeywordCount : nat;
  optimalRange : list ascii;
  status : list ascii;
  topKeywords : list KeywordEntry;
  semanticKeywords : list (list ascii)
}.

Record HeadingEntry := {
  level : nat;
  text : list ascii
}.

Record HeadingCounts := {
  h1 : nat; h2 : nat; h3 : nat; h4 : nat; h5 : nat; h6 : nat
}.

Record HeadingStructure := {
  totalHeadings : nat;
  headings : list HeadingEntry;
  headingCounts : HeadingCounts;
  hasH1 : bool;
  multipleH1 : bool;
  structureScore : Z;
  issues : list (list ascii);
  headingCount : nat;
  h1Text : list ascii
}.

Record SEOScore := {
  overall : Z;
  contentQuality : Z;
  technicalSEO : Z;
  readability : Z;
  userExperience : Z
}.

Record AnalysisResult := {
  wordStats : WordStats;
  readabilityScores : ReadabilityScores;
  keywordAnalysis : KeywordAnalysis;
  headingStructure : HeadingStructure;
  seoScore : SEOScore;
  timestamp : list ascii
}.

(** The fields of [this] that the engine reads and writes.  The
    constructor sets [analysisResults] to an empty object, which is [None]
    here: it has no [wordStats]. *)
Record Analyzer := {
  content : list ascii;
  targetKeyword : list ascii;
  metaDescription : list ascii;
  analysisResults : option AnalysisResult
}.

(** ** KeywordAnalyzer: [analyzeKeywords], [extractTopKeywords],
    [extractSemanticKeywords] *)

Definition stopWords : list (list ascii) :=
  map lit
    ["the"; "a"; "an"; "and"; "or"; "but"; "in"; "on"; "at"; "to"; "for";
     "of"; "with"; "by"; "is"; "are"; "was"; "were"; "be"; "been"; "have";
     "has"; "had"; "do"; "does"; "did"; "will"; "would"; "could"; "should";
     "may"; "might"; "must"; "can"; "this"; "that"; "these"; "those"; "i";
     "you"; "he"; "she"; "it"; "we"; "they"; "me"; "him"; "her"; "us";
     "them"; "my"; "your"; "his"; "her"; "its"; "our"; "their"; "mine";
     "yours"; "hers"; "ours"; "theirs"; "what"; "where"; "when"; "why";
     "how"; "which"; "who"; "whom"; "whose"; "if"; "unless"; "until";
     "while"; "although"; "though"; "because"; "since"; "so"; "than"; "as";
     "like"; "about"; "above"; "below"; "up"; "down"; "out"; "off"; "over";
     "under"; "again"; "further"; "then"; "once"]%string.

(** [wordCounts[cleanWord] = (wordCounts[cleanWord] || 0) + 1] on an object
    whose own keys keep their insertion order. *)
Fixpoint bump (cleanWord : list ascii) (wordCounts : list (list ascii * nat))
  : list (list ascii * nat) :=
  match wordCounts with
  | [] => [(cleanWord, 1)]
  | (k, n) :: rest =>
      if text_eqb k cleanWord then (k, S n) :: rest
      else (k, n) :: bump cleanWord rest
  end.

(** [word.replace(/[^a-z0-9]/gi, '').toLowerCase()] *)
Definition cleanWordOf (word : list ascii) : list ascii :=
  toLowerCase (filter is_alnum word).

(** [!/^\d+$/.test(cleanWord)] *)
Definition all_digits (s : list ascii) : bool :=
  nonempty s && forallb is_digit s.

(** [.sort(([,a], [,b]) => b - a)]: a stable sort, larger counts first. *)
Fixpoint insert_desc (x : list ascii * nat) (l : list (list ascii * nat))
  : list (list ascii * nat) :=
  match l with
  | [] => [x]
  | y :: l' => if snd x <? snd y then y :: insert_desc x l' else x :: l
  end.

Definition sort_desc (l : list (list ascii * nat)) : list (list ascii * nat) :=
  fold_right insert_desc [] l.

(** The one word whose count is not a number: [wordCounts] inherits a
    [constructor] property, so the first read of that key is a function and
    the sum is a string whose text the language leaves to the engine.  The
    model gives no result ([None]) for a content with that word. *)
Definition inherited_key (cleanWord : list ascii) : bool :=
  text_eqb cleanWord (lit "constructor").

Definition counted (cleanWord : list ascii) : bool :=
  (3 <=? length cleanWord)
  && negb (existsb (text_eqb cleanWord) stopWords)
  && negb (all_digits cleanWord).

Definition extractTopKeywords (words : list (list ascii))
  : option (list KeywordEntry) :=
  if existsb (fun word => inherited_key (cleanWordOf word)) words then None
  else
    let wordCounts :=
      fold_left (fun wordCounts word =>
                   let cleanWord := cleanWordOf word in
                   if counted cleanWord then bump cleanWord wordCounts
                   else wordCounts)
                words [] in
    Some (map (fun '(word, count) =>
                 {| word := word; count := count;
                    density :=
                      (inject_Z (Math_round
                         (Qnat count / Qnat (length words) * 10000)%js)
                       / 100)%Q |})
              (firstn 10 (sort_desc wordCounts))).

Definition extractSemanticKeywords (this : Analyzer) : list (list ascii) :=
  let text := toLowerCase (content this) in
  let semanticTerms :=
    if nonempty (trim (targetKeyword this)) then
      let keyword := toLowerCase (targetKeyword this) in
      let patterns :=
        [keyword ++ lit "s"; keyword ++ lit "ed"; keyword ++ lit "ing";
         keyword ++ lit "er"; keyword ++ lit "est"; lit "best " ++ keyword;
         keyword ++ lit " guide"; keyword ++ lit " tips";
         lit "how to " ++ keyword] in
      filter (fun pattern =>
                includes text pattern && negb (text_eqb pattern keyword))
             patterns
    else [] in
  firstn 5 semanticTerms.

(** [s.replace(/[^\w\s]/g, ' ')] *)
Definition punctuation_to_space (s : list ascii) : list ascii :=
  map (fun c => if is_word_char c || is_space c then c else " "%char) s.

(** [s.replace(/(ing|ed|er|est|ly|s)$/, '')] *)
Definition stem (s : list ascii) : list ascii :=
  strip_suffix (map lit ["ing"; "ed"; "er"; "est"; "ly"; "s"]%string) s.

(** One character of a keyword word as it is read by [new RegExp]: [.]
    is any character but a line terminator, a character without syntactic
    meaning stands for itself under the [i] flag.  The other syntax
    characters (quantifiers, classes, groups, anchors, escapes,
    alternation) are outside the fragment of the model: [None]. *)
Definition atom_of_char (c : ascii) : option atom :=
  if Ascii.eqb c "."%char then Some (Chr (fun x => negb (is_line_terminator x)))
  else if is_syntax_char c then None
  else Some (Chr (ci_eqb c)).

Fixpoint atoms_of_word (w : list ascii) : option (list atom) :=
  match w with
  | [] => Some []
  | c :: w' =>
      match atom_of_char c, atoms_of_word w' with
      | Some a, Some r => Some (a :: r)
      | _, _ => None
      end
  end.

(** [keywordWords.join('\\s+')] *)
Fixpoint join_atoms (keywordWords : list (list ascii)) : option (list atom) :=
  match keywordWords with
  | [] => Some []
  | [w] => atoms_of_word w
  | w :: rest =>
      match atoms_of_word w, join_atoms rest with
      | Some a, Some r => Some (a ++ Rep is_space 1 None :: r)
      | _, _ => None
      end
  end.

(** [new RegExp(`\\b${keywordWords.join('\\s+')}\\b`, 'gi')] *)
Definition phraseRegex (keywordWords : list (list ascii))
  : option (list atom) :=
  match join_atoms keywordWords with
  | Some a => Some (WordB :: a ++ [WordB])
  | None => None
  end.

(** [words.slice(i, i + n)] for [i = 0 .. words.length - n]. *)
Definition windows (n : nat) (words : list (list ascii))
  : list (list (list ascii)) :=
  map (fun i => firstn n (skipn i words)) (seq 0 (length words + 1 - n)).

(** [word => keywordWords.some(kw => word.includes(kw) || kw.includes(word))] *)
Definition loosely_matches (keywordWords : list (list ascii))
    (word : list ascii) : bool :=
  existsb (fun kw => includes word kw || includes kw word) keywordWords.

Definition is_partial_match (keywordWords : list (list ascii))
    (slice : list (list ascii)) : bool :=
  let matchCount := length (filter (loosely_matches keywordWords) slice) in
  (Math_ceil (Qnat (length keywordWords) * 0.7)%js <=? Z.of_nat matchCount)%Z.

Definition countPartialMatches (keywordWords : list (list ascii))
    (text : list ascii) : nat :=
  length (filter (is_partial_match keywordWords)
                 (windows (length keywordWords) (split_ws text))).

Definition countExactMatches (regex : list atom) (text : list ascii) : nat :=
  length (matchAll regex None text 0 0).

(** The single-word branch: exact and stem matching. *)
Definition countSingleWord (keywordWord : list ascii)
    (cleanedWords : list (list ascii)) : nat :=
  let targetWord := filter is_word_char keywordWord in
  length
    (filter (fun word =>
               let cleanWord := filter is_word_char word in
               if text_eqb cleanWord targetWord then true
               else
                 let stemmed := stem cleanWord in
                 let targetStemmed := stem targetWord in
                 text_eqb stemmed targetStemmed && (2 <? length stemmed))
            cleanedWords).

(** The phrase branch: exact matches plus half the partial matches. *)
Definition countPhrase (keywordWords : list (list ascii))
    (content : list ascii) : option nat :=
  let text := punctuation_to_space (toLowerCase content) in
  match phraseRegex keywordWords with
  | None => None
  | Some regex =>
      let exactMatches := countExactMatches regex text in
      let partialMatches := countPartialMatches keywordWords text in
      Some (exactMatches
            + Z.to_nat (Math_floor (Qnat partialMatches * 0.5)%js))
  end.

Definition status_not_found : list ascii :=
  lit "Keyword not found in content".
Definition status_too_low : list ascii := lit "Keyword density too low".
Definition status_optimal : list ascii := lit "Optimal keyword density".
Definition status_slightly_high : list ascii :=
  lit "Keyword density slightly high".
Definition status_too_high : list ascii :=
  lit "Keyword density too high - risk of over-optimization".

(** The status chain of [analyzeKeywords], on the density as it is at that
    point (not yet rounded). *)
Definition keywordStatus (primaryKeywordDensity : Q) : list ascii :=
  if (primaryKeywordDensity =? 0)%js then status_not_found
  else if (primaryKeywordDensity <? 0.5)%js then status_too_low
  else if (primaryKeywordDensity <=? 2)%js then status_optimal
  else if (primaryKeywordDensity <=? 3)%js then status_slightly_high
  else status_too_high.

(** [this.analysisResults?.wordStats?.words || <count of the content>] *)
Definition totalWordsOf (this : Analyzer) : nat :=
  let fresh := countWords (trim (content this)) in
  match analysisResults this with
  | Some results =>
      if words (wordStats results) =? 0 then fresh
      else words (wordStats results)
  | None => fresh
  end.

Definition cleanedWordsOf (content : list ascii) : list (list ascii) :=
  filter nonempty (split_ws (punctuation_to_space (toLowerCase content))).

(** [primaryKeywordCount] when a target keyword is set. *)
Definition countKeyword (this : Analyzer) : option nat :=
  let keyword := trim (toLowerCase (targetKeyword this)) in
  let keywordWords := filter nonempty (split_ws keyword) in
  match keywordWords with
  | [keywordWord] =>
      Some (countSingleWord keywordWord (cleanedWordsOf (content this)))
  | _ => countPhrase keywordWords (content this)
  end.

(** [primaryKeywordDensity] before it is rounded for the result. *)
Definition densityOf (primaryKeywordCount totalWords : nat) : Q :=
  if 0 <? totalWords
  then (Qnat primaryKeywordCount / Qnat totalWords * 100)%js
  else 0%Q.

(** [Math.round(x * 100) / 100] *)
Definition round2 (x : Q) : Q :=
  (inject_Z (Math_round (x * 100)%js) / 100)%Q.

Definition analyzeKeywords (this : Analyzer) : option KeywordAnalysis :=
  if negb (nonempty (trim (content this))) then
    Some {| primaryKeywordDensity := 0;
            primaryKeywordCount := 0;
            optimalRange := lit "1-2%";
            status := lit "No content to analyze";
            topKeywords := [];
            semanticKeywords := [] |}
  else
    let totalWords := totalWordsOf this in
    let cleanedWords := cleanedWordsOf (content this) in
    match
      (if nonempty (trim (targetKeyword this)) then
         match countKeyword this with
         | Some primaryKeywordCount =>
             let primaryKeywordDensity :=
               densityOf primaryKeywordCount totalWords in
             Some (primaryKeywordCount, primaryKeywordDensity,
                   keywordStatus primaryKeywordDensity)
         | None => None
         end
       else Some (0, 0%Q, lit "Enter target keyword for analysis")),
      extractTopKeywords cleanedWords
    with
    | Some (primaryKeywordCount, primaryKeywordDensity, status),
      Some topKeywords =>
        Some {| primaryKeywordDensity := round2 primaryKeywordDensity;
                primaryKeywordCount := primaryKeywordCount;
                optimalRange := lit "0.5-2%";
                status := status;
                topKeywords := topKeywords;
                semanticKeywords := extractSemanticKeywords this |}
    | _, _ => None
    end.

(** ** HeadingAnalyzer: [analyzeHeadingStructure] *)

Definition is_hash (c : ascii) : bool := Ascii.eqb c "#"%char.

(** [/^#{1,6}\s+(.+)$/gm] *)
Definition markdownHeading : list atom :=
  [Bol; Rep is_hash 1 (Some 6); Rep is_space 1 None;
   Rep (fun c => negb (is_line_terminator c)) 1 None; Eol].

(** The inline markup pattern, flags [gi]: an opening tag [<h], a digit
    1-6 (group 1), any characters but [>], then [>]; one or more characters
    but [<] (group 2); a closing tag [</h], a digit 1-6, [>]. *)
Definition htmlHeading : list atom :=
  [Chr (char_eqb "<"); Chr (ci_eqb "h"); Chr (in_range 49 54);
   Rep (fun c => negb (char_eqb ">" c)) 0 None; Chr (char_eqb ">");
   Rep (fun c => negb (char_eqb "<" c)) 1 None;
   Chr (char_eqb "<"); Chr (char_eqb "/"); Chr (ci_eqb "h");
   Chr (in_range 49 54); Chr (char_eqb ">")]%char.

(** A match object: [index], [match[0]] and the capture groups
    [match[1]], [match[2]]. *)
Record RegExpMatch := {
  index : nat;
  whole : list ascii;
  groups : list (list ascii)
}.

Definition group (m : RegExpMatch) (i : nat) : list ascii :=
  nth (i - 1) (groups m) [].

(** [Array.from(this.content.matchAll(...))] for the two patterns; the
    capture groups are the texts of the atoms inside the parentheses. *)
Definition markdownMatches (content : list ascii) : list RegExpMatch :=
  map (fun '(i, segs) =>
         {| index := i; whole := concat segs; groups := [nth 3 segs []] |})
      (matchAll markdownHeading None content 0 0).

Definition htmlMatches (content : list ascii) : list RegExpMatch :=
  map (fun '(i, segs) =>
         {| index := i; whole := concat segs;
            groups := [nth 2 segs []; nth 5 segs []] |})
      (matchAll htmlHeading None content 0 0).

(** [parseInt] of a string of one decimal digit. *)
Definition parseInt (s : list ascii) : nat :=
  match s with
  | c :: _ => N.to_nat (code c - 48)
  | [] => 0
  end.

(** The body of [headingMatches.forEach]: the heading pushed for a match. *)
Definition headingOf (m : RegExpMatch) : HeadingEntry :=
  if startsWith (lit "#") (whole m) then
    {| level := length (takeWhile is_hash (whole m));
       text := firstn 100 (trim (group m 1)) |}
  else
    {| level := parseInt (group m 1);
       text := firstn 100 (trim (group m 2)) |}.

(** [headingCounts[`h${level}`]++] *)
Definition countHeading (c : HeadingCounts) (level : nat) : HeadingCounts :=
  match level with
  | 1 => {| h1 := S (h1 c); h2 := h2 c; h3 := h3 c; h4 := h4 c; h5 := h5 c;
            h6 := h6 c |}
  | 2 => {| h1 := h1 c; h2 := S (h2 c); h3 := h3 c; h4 := h4 c; h5 := h5 c;
            h6 := h6 c |}
  | 3 => {| h1 := h1 c; h2 := h2 c; h3 := S (h3 c); h4 := h4 c; h5 := h5 c;
            h6 := h6 c |}
  | 4 => {| h1 := h1 c; h2 := h2 c; h3 := h3 c; h4 := S (h4 c); h5 := h5 c;
            h6 := h6 c |}
  | 5 => {| h1 := h1 c; h2 := h2 c; h3 := h3 c; h4 := h4 c; h5 := S (h5 c);
            h6 := h6 c |}
  | 6 => {| h1 := h1 c; h2 := h2 c; h3 := h3 c; h4 := h4 c; h5 := h5 c;
            h6 := S (h6 c) |}
  | _ => c
  end.

(** The hierarchy loop: the number of headings whose level is more than one
    above [previousLevel], which starts at 0 and then is the level of the
    heading before. *)
Fixpoint hierarchyIssuesFrom (previousLevel : nat)
    (headings : list HeadingEntry) : nat :=
  match headings with
  | [] => 0
  | heading :: rest =>
      (if previousLevel + 1 <? level heading then 1 else 0)
      + hierarchyIssuesFrom (level heading) rest
  end.

Definition issue_missing_h1 : list ascii := lit "Missing H1 tag".
Definition issue_multiple_h1 : list ascii := lit "Multiple H1 tags found".
Definition issue_hierarchy : list ascii :=
  lit "Heading hierarchy issues detected".

Definition analyzeHeadingStructure (content : list ascii) : HeadingStructure :=
  let headingMatches := markdownMatches content ++ htmlMatches content in
  let headings := map headingOf headingMatches in
  let headingCounts :=
    fold_left (fun c heading => countHeading c (level heading)) headings
      {| h1 := 0; h2 := 0; h3 := 0; h4 := 0; h5 := 0; h6 := 0 |} in
  let totalHeadings := length headings in
  let hasH1 := 0 <? h1 headingCounts in
  let multipleH1 := 1 <? h1 headingCounts in
  let structureScore := 100%Z in
  let issues := [] in
  let '(structureScore, issues) :=
    if negb hasH1 then ((structureScore - 30)%Z, issues ++ [issue_missing_h1])
    else (structureScore, issues) in
  let '(structureScore, issues) :=
    if multipleH1
    then ((structureScore - 20)%Z, issues ++ [issue_multiple_h1])
    else (structureScore, issues) in
  let hierarchyIssues := hierarchyIssuesFrom 0 headings in
  let '(structureScore, issues) :=
    if 0 <? hierarchyIssues
    then ((structureScore - Z.of_nat hierarchyIssues * 10)%Z,
          issues ++ [issue_hierarchy])
    else (structureScore, issues) in
  let h1Text :=
    if hasH1 then
      match find (fun h => level h =? 1) headings with
      | Some h => text h
      | None => []
      end
    else [] in
  {| totalHeadings := totalHeadings;
     headings := headings;
     headingCounts := headingCounts;
     hasH1 := hasH1;
     multipleH1 := multipleH1;
     structureScore := Z.max 0 structureScore;
     issues := issues;
     headingCount := totalHeadings;
     h1Text := h1Text |}.

(** ** CompositeScorer: [calculateSEOScore] and the four category scores *)

Definition between (lo x hi : Q) : bool := ((lo <=? x) && (x <=? hi))%js.

Definition betweenN (lo x hi : nat) : bool := (lo <=? x) && (x <=? hi).

(** The sum that [calculateContentQualityScore] builds, before [Math.min]. *)
Definition contentQualityPoints (wordStats : WordStats)
    (keywordAnalysis : KeywordAnalysis) : Z :=
  let wordCount := words wordStats in
  let byWordCount :=
    if betweenN 1500 wordCount 2500 then 25%Z
    else if betweenN 1000 wordCount 3000 then 20%Z
    else if betweenN 500 wordCount 4000 then 15%Z
    else if 300 <=? wordCount then 10%Z
    else 0%Z in
  let density := primaryKeywordDensity keywordAnalysis in
  let byDensity :=
    if between 0.8 density 1.5 then 30%Z
    else if between 0.5 density 2.5 then 25%Z
    else if ((0 <? density) && (density <=? 3.5))%js then 15%Z
    else if (3.5 <? density)%js then 5%Z
    else 0%Z in
  let semanticCount := length (semanticKeywords keywordAnalysis) in
  let bySemantic :=
    if 10 <=? semanticCount then 20%Z
    else if 5 <=? semanticCount then 15%Z
    else if 2 <=? semanticCount then 10%Z
    else 0%Z in
  let bySentence :=
    if 0 <? sentences wordStats then
      let avgWordsPerSentence :=
        (Qnat (words wordStats) / Qnat (sentences wordStats))%js in
      if between 12 avgWordsPerSentence 18 then 15%Z
      else if between 8 avgWordsPerSentence 25 then 12%Z
      else 8%Z
    else 0%Z in
  let uniqueKeywordRatio :=
    (Qnat (length (topKeywords keywordAnalysis))
     / Math_max 1 (Qnat (words wordStats) / 100))%js in
  let byVocabulary :=
    if (0.8 <=? uniqueKeywordRatio)%js then 10%Z
    else if (0.5 <=? uniqueKeywordRatio)%js then 7%Z
    else 3%Z in
  (byWordCount + byDensity + bySemantic + bySentence + byVocabulary)%Z.

Definition calculateContentQualityScore (wordStats : WordStats)
    (keywordAnalysis : KeywordAnalysis) : Z :=
  Z.min 100 (contentQualityPoints wordStats keywordAnalysis).

Definition technicalSEOPoints (this : Analyzer)
    (headingStructure : HeadingStructure) (keywordAnalysis : KeywordAnalysis)
  : Z :=
  let byH1 :=
    if hasH1 headingStructure then
      (15 +
       if nonempty (targetKeyword this) && nonempty (h1Text headingStructure)
       then
         let h1Text := toLowerCase (h1Text headingStructure) in
         let keyword := toLowerCase (targetKeyword this) in
         if includes h1Text keyword then 10%Z else 0%Z
       else 0%Z)%Z
    else 0%Z in
  let bySingleH1 := if negb (multipleH1 headingStructure) then 10%Z else 0%Z in
  let totalHeadings := headingCount headingStructure in
  let byHeadings :=
    if betweenN 3 totalHeadings 10 then 10%Z
    else if 0 <? totalHeadings then 5%Z
    else 0%Z in
  let metaLength := length (metaDescription this) in
  let byMeta :=
    if betweenN 120 metaLength 158 then
      (20 +
       if nonempty (targetKeyword this) && nonempty (metaDescription this)
       then
         let metaText := toLowerCase (metaDescription this) in
         let keyword := toLowerCase (targetKeyword this) in
         if includes metaText keyword then 10%Z else 0%Z
       else 0%Z)%Z
    else if betweenN 100 metaLength 180 then 15%Z
    else if 0 <? metaLength then 5%Z
    else 0%Z in
  let analysisFactors :=
    [0 <? primaryKeywordCount keywordAnalysis;
     5 <=? length (topKeywords keywordAnalysis);
     0 <? length (trim (targetKeyword this));
     0 <? metaLength;
     hasH1 headingStructure;
     2 <=? totalHeadings] in
  let activeFactors := length (filter (fun b : bool => b) analysisFactors) in
  let byDepth :=
    Math_round (Qnat activeFactors / Qnat (length analysisFactors) * 30)%js in
  (byH1 + bySingleH1 + byHeadings + byMeta + byDepth)%Z.

Definition calculateTechnicalSEOScore (this : Analyzer)
    (headingStructure : HeadingStructure) (keywordAnalysis : KeywordAnalysis)
  : Z :=
  Z.min 100 (technicalSEOPoints this headingStructure keywordAnalysis).

Definition readabilityPoints (readabilityScores : ReadabilityScores) : Z :=
  let fkGrade := fleschKincaid readabilityScores in
  let byGrade :=
    if between 6 fkGrade 8 then 40%Z
    else if between 5 fkGrade 10 then 35%Z
    else if between 4 fkGrade 12 then 25%Z
    else 15%Z in
  let fleschEase := fleschEase readabilityScores in
  let byEase :=
    if between 60 fleschEase 80 then 30%Z
    else if between 50 fleschEase 90 then 25%Z
    else if (30 <=? fleschEase)%js then 15%Z
    else 5%Z in
  let smogIndex := smogIndex readabilityScores in
  let readabilityConsistency := Math_abs (fkGrade - smogIndex)%js in
  let byConsistency :=
    if (readabilityConsistency <=? 2)%js then 30%Z
    else if (readabilityConsistency <=? 4)%js then 20%Z
    else 10%Z in
  (byGrade + byEase + byConsistency)%Z.

Definition calculateReadabilityScore (readabilityScores : ReadabilityScores)
  : Z :=
  Z.min 100 (readabilityPoints readabilityScores).

Definition userExperiencePoints (wordStats : WordStats) : Z :=
  let readingTime := readingTime wordStats in
  let byReadingTime :=
    if between 3 readingTime 12 then 50%Z
    else if between 2 readingTime 20 then 40%Z
    else if (1 <=? readingTime)%js then 25%Z
    else 0%Z in
  let sentenceCount := sentences wordStats in
  let wordCount := words wordStats in
  let byScannability :=
    if 0 <? sentenceCount then
      let avgSentenceLength := (Qnat wordCount / Qnat sentenceCount)%js in
      if (avgSentenceLength <=? 20)%js then 30%Z
      else if (avgSentenceLength <=? 25)%js then 20%Z
      else 10%Z
    else 0%Z in
  let byLength :=
    if betweenN 800 wordCount 3000 then 20%Z
    else if 300 <=? wordCount then 15%Z
    else 5%Z in
  (byReadingTime + byScannability + byLength)%Z.

Definition calculateUserExperienceScore (wordStats : WordStats) : Z :=
  Z.min 100 (userExperiencePoints wordStats).

(** The weighted sum inside [Math.round]. *)
Definition weighted (contentQuality technicalSEO readability userExperience : Z)
  : Q :=
  (inject_Z contentQuality * 0.35 + inject_Z technicalSEO * 0.30
   + inject_Z readability * 0.20 + inject_Z userExperience * 0.15)%js.

Definition calculateSEOScore (this : Analyzer) (wordStats : WordStats)
    (readabilityScores : ReadabilityScores)
    (keywordAnalysis : KeywordAnalysis) (headingStructure : HeadingStructure)
  : SEOScore :=
  let contentQuality := calculateContentQualityScore wordStats keywordAnalysis in
  let technicalSEO :=
    calculateTechnicalSEOScore this headingStructure keywordAnalysis in
  let readability := calculateReadabilityScore readabilityScores in
  let userExperience := calculateUserExperienceScore wordStats in
  let overallScore :=
    Math_round (weighted contentQuality technicalSEO readability userExperience)
  in
  {| overall := Z.min 100 (Z.max 0 overallScore);
     contentQuality := Math_round (inject_Z contentQuality);
     technicalSEO := Math_round (inject_Z technicalSEO);
     readability := Math_round (inject_Z readability);
     userExperience := Math_round (inject_Z userExperience) |}.

(** ** The pipeline: [updateAnalysis] *)

Section Pipeline.

Variable Math_sqrt : Q -> Q.

(** [now] is the value of [new Date().toISOString()] at the call.  The
    result is [None] when the keyword analysis is outside the model. *)
Definition updateAnalysis (now : list ascii) (this : Analyzer)
  : option Analyzer :=
  if negb (nonempty (trim (content this))) then Some this
  else
    let wordStats := calculateWordStats (content this) in
    let readabilityScores :=
      fst (calculateReadabilityScores Math_sqrt (content this)) in
    match analyzeKeywords this with
    | None => None
    | Some keywordAnalysis =>
        let headingStructure := analyzeHeadingStructure (content this) in
        let seoScore :=
          calculateSEOScore this wordStats readabilityScores keywordAnalysis
            headingStructure in
        Some {| content := content this;
                targetKeyword := targetKeyword this;
                metaDescription := metaDescription this;
                analysisResults :=
                  Some {| wordStats := wordStats;
                          readabilityScores := readabilityScores;
                          keywordAnalysis := keywordAnalysis;
                          headingStructure := headingStructure;
                          seoScore := seoScore;
                          timestamp := now |} |}
    end.

(** The engine's one operation: the caller supplies the three inputs, then
    the analysis runs on the analyzer as earlier calls left it. *)
Definition analyze (now : list ascii) (this : Analyzer)
    (content targetKeyword metaDescription : list ascii) : option Analyzer :=
  updateAnalysis now
    {| content := content;
       targetKeyword := targetKeyword;
       metaDescription := metaDescription;
       analysisResults := analysisResults this |}.

End Pipeline.

(** The analyzer as the constructor leaves it. *)
Definition newAnalyzer : Analyzer :=
  {| content := []; targetKeyword := []; metaDescription := [];
     analysisResults := None |}.

(** ** The first variant of the engine ([script.js])

    [script.js] holds an earlier [SEOContentAnalyzer].  Its
    [calculateWordStats], [getFleschEaseGrade], [getGradeDescription],
    [extractTopKeywords] and [extractSemanticKeywords] are the code
    modelled above, and so is its [analyzeHeadingStructure] but for the two
    fields [headingCount] and [h1Text], which it does not return and never
    reads.  The functions that differ are modelled here, under the names
    they have in that file. *)

Module Legacy.

Record SEOScore := {
  overall : Z;
  contentQuality : Z;
  technicalSEO : Z;
  readability : Z
}.

Record AnalysisResult := {
  wordStats : WordStats;
  readabilityScores : ReadabilityScores;
  keywordAnalysis : KeywordAnalysis;
  headingStructure : HeadingStructure;
  seoScore : SEOScore;
  timestamp : list ascii
}.

Record Analyzer := {
  content : list ascii;
  targetKeyword : list ascii;
  metaDescription : list ascii;
  analysisResults : option AnalysisResult
}.

(** [(word.match(/[aeiouy]+/g) || []).length]: the maximal runs of vowel
    letters; [in_run] tells that the character before is in one. *)
Fixpoint vowelRuns (word : list ascii) (in_run : bool) : nat :=
  match word with
  | [] => 0
  | c :: rest =>
      if is_vowel c then
        if in_run then vowelRuns rest true else S (vowelRuns rest true)
      else vowelRuns rest false
  end.

(** The syllables of one word, after its other characters were removed:
    the vowel groups, one less for a final e, at least 1. *)
Definition wordSyllables (word : list ascii) : nat :=
  let syllables := Z.of_nat (vowelRuns word false) in
  let syllables :=
    if endsWith (lit "e") word then (syllables - 1)%Z else syllables in
  Z.to_nat (Z.max 1 syllables).

(** [word.replace(/[^a-z]/g, '')] *)
Definition lettersOf (word : list ascii) : list ascii := filter is_lower word.

Definition countSyllables (content : list ascii) : nat :=
  fold_left (fun syllableCount word =>
               let word := lettersOf word in
               if length word =? 0 then syllableCount
               else syllableCount + wordSyllables word)
            (contentWords content) 0.

Definition countPolysyllabicWords (content : list ascii) : nat :=
  fold_left (fun polysyllabicCount word =>
               let word := lettersOf word in
               if length word =? 0 then polysyllabicCount
               else if 3 <=? wordSyllables word then S polysyllabicCount
               else polysyllabicCount)
            (contentWords content) 0.

Section Readability.

Variable Math_sqrt : Q -> Q.

Definition calculateReadabilityScores (content : list ascii)
  : Traced ReadabilityScores :=
  let stats := calculateWordStats content in
  let words := words stats in
  let sentences := sentences stats in
  if (words =? 0) || (sentences =? 0) then ret (zeroScores (lit "N/A"))
  else
    let syllables := countSyllables content in
    let polysyllabicWords := countPolysyllabicWords content in
    wordsPerSentence <- divide (Qnat words) (Qnat sentences) ;;
    syllablesPerWord <- divide (Qnat syllables) (Qnat words) ;;
    let fleschEase :=
      Math_max 0 (Math_min 100
        (206.835 - 1.015 * wordsPerSentence - 84.6 * syllablesPerWord)%js) in
    wordsPerSentence <- divide (Qnat words) (Qnat sentences) ;;
    syllablesPerWord <- divide (Qnat syllables) (Qnat words) ;;
    let fleschKincaid :=
      Math_max 0
        (0.39 * wordsPerSentence + 11.8 * syllablesPerWord - 15.59)%js in
    smogIndex <-
      (if 30 <=? sentences then
         perThirty <-
           divide (Qnat polysyllabicWords * 30)%js (Qnat sentences) ;;
         ret (1.043 * Math_sqrt perThirty + 3.1291)%js
       else
         ret (Math_max 0
                (1.043 * Math_sqrt (Qnat polysyllabicWords) + 3.1291)%js)) ;;
    fleschEase1 <- divide (inject_Z (Math_round (fleschEase * 10)%js)) 10 ;;
    fleschKincaid1 <-
      divide (inject_Z (Math_round (fleschKincaid * 10)%js)) 10 ;;
    smogIndex1 <- divide (inject_Z (Math_round (smogIndex * 10)%js)) 10 ;;
    ret {| fleschEase := fleschEase1;
           fleschKincaid := fleschKincaid1;
           smogIndex := smogIndex1;
           fleschEaseGrade := getFleschEaseGrade fleschEase;
           fleschKincaidGrade := getGradeDescription fleschKincaid;
           smogGrade := getGradeDescription smogIndex |}.

End Readability.

(** What [/[^a-z0-9]/g] leaves in place. *)
Definition is_lower_alnum (c : ascii) : bool := is_lower c || is_digit c.

(** The pattern between the two [\\b] is the keyword with a backslash put
    before each of its syntax characters: every character of the keyword
    stands for itself, under the [i] flag. *)
Definition phraseRegex (keyword : list ascii) : list atom :=
  WordB :: map (fun c => Chr (ci_eqb c)) keyword ++ [WordB].

(** [primaryKeywordCount] when a target keyword is set; [words] are the
    words of the lowercased content. *)
Definition countKeyword (keyword content : list ascii)
    (words : list (list ascii)) : nat :=
  let keywordWords := split_ws keyword in
  if length keywordWords =? 1 then
    length
      (filter (fun word =>
                 text_eqb (filter is_lower_alnum word)
                          (filter is_lower_alnum keyword))
              words)
  else
    let text := toLowerCase content in
    length (matchAll (phraseRegex keyword) None text 0 0).

Definition extractSemanticKeywords (this : Analyzer) : list (list ascii) :=
  let text := toLowerCase (content this) in
  let semanticTerms :=
    if nonempty (trim (targetKeyword this)) then
      let keyword := toLowerCase (targetKeyword this) in
      let patterns :=
        [keyword ++ lit "s"; keyword ++ lit "ed"; keyword ++ lit "ing";
         keyword ++ lit "er"; keyword ++ lit "est"; lit "best " ++ keyword;
         keyword ++ lit " guide"; keyword ++ lit " tips";
         lit "how to " ++ keyword] in
      filter (fun pattern =>
                includes text pattern && negb (text_eqb pattern keyword))
             patterns
    else [] in
  firstn 5 semanticTerms.

(** The result is [None] for a content with the word [constructor], as in
    [extractTopKeywords]. *)
Definition analyzeKeywords (this : Analyzer) : option KeywordAnalysis :=
  if negb (nonempty (trim (content this))) then
    Some {| primaryKeywordDensity := 0;
            primaryKeywordCount := 0;
            optimalRange := lit "1-2%";
            status := lit "No content to analyze";
            topKeywords := [];
            semanticKeywords := [] |}
  else
    let words := contentWords (content this) in
    let totalWords := length words in
    let '(primaryKeywordCount, primaryKeywordDensity, status) :=
      if nonempty (trim (targetKeyword this)) then
        let keyword := trim (toLowerCase (targetKeyword this)) in
        let primaryKeywordCount := countKeyword keyword (content this) words in
        let primaryKeywordDensity :=
          densityOf primaryKeywordCount totalWords in
        (primaryKeywordCount, primaryKeywordDensity,
         keywordStatus primaryKeywordDensity)
      else (0, 0%Q, lit "Enter target keyword for analysis") in
    match extractTopKeywords words with
    | Some topKeywords =>
        Some {| primaryKeywordDensity := round2 primaryKeywordDensity;
                primaryKeywordCount := primaryKeywordCount;
                optimalRange := lit "0.5-2%";
                status := status;
                topKeywords := topKeywords;
                semanticKeywords := extractSemanticKeywords this |}
    | None => None
    end.

(** [contentQualityScore] before [Math.min]. *)
Definition contentQualityPoints (wordStats : WordStats)
    (keywordAnalysis : KeywordAnalysis) : Z :=
  let wordCount := words wordStats in
  let byWordCount :=
    if betweenN 1500 wordCount 2500 then 30%Z
    else if betweenN 1000 wordCount 3000 then 20%Z
    else if 500 <=? wordCount then 10%Z
    else 0%Z in
  let density := primaryKeywordDensity keywordAnalysis in
  let byDensity :=
    if between 0.5 density 2 then 30%Z
    else if (0 <? density)%js then 15%Z
    else 0%Z in
  let bySentence :=
    if 0 <? sentences wordStats then
      let avgWordsPerSentence :=
        (Qnat (words wordStats) / Qnat (sentences wordStats))%js in
      if between 15 avgWordsPerSentence 20 then 25%Z
      else if between 10 avgWordsPerSentence 25 then 15%Z
      else 5%Z
    else 0%Z in
  let bySemantic :=
    if 0 <? length (semanticKeywords keywordAnalysis) then 15%Z else 0%Z in
  (0 + byWordCount + byDensity + bySentence + bySemantic)%Z.

Definition readabilityPoints (readabilityScores : ReadabilityScores) : Z :=
  let grade := fleschKincaid readabilityScores in
  if between 7 grade 8 then 100%Z
  else if between 6 grade 9 then 85%Z
  else if between 5 grade 12 then 70%Z
  else 50%Z.

(** The weighted sum inside [Math.round]. *)
Definition weighted (contentQualityScore technicalSEOScore readabilityScore : Z)
  : Q :=
  (inject_Z contentQualityScore * 0.4 + inject_Z technicalSEOScore * 0.3
   + inject_Z readabilityScore * 0.3)%js.

Definition calculateSEOScore (wordStats : WordStats)
    (readabilityScores : ReadabilityScores)
    (keywordAnalysis : KeywordAnalysis) (headingStructure : HeadingStructure)
  : SEOScore :=
  let contentQualityScore :=
    Z.min 100 (contentQualityPoints wordStats keywordAnalysis) in
  let technicalSEOScore := structureScore headingStructure in
  let readabilityScore := readabilityPoints readabilityScores in
  let overallScore :=
    Math_round (weighted contentQualityScore technicalSEOScore readabilityScore)
  in
  {| overall := overallScore;
     contentQuality := Math_round (inject_Z contentQualityScore);
     technicalSEO := Math_round (inject_Z technicalSEOScore);
     readability := Math_round (inject_Z readabilityScore) |}.

Section Pipeline.

Variable Math_sqrt : Q -> Q.

(** [now] is the value of [new Date().toISOString()] at the call; a blank
    content leaves the analyzer as it is. *)
Definition updateAnalysis (now : list ascii) (this : Analyzer)
  : option Analyzer :=
  if negb (nonempty (trim (content this))) then Some this
  else
    let wordStats := calculateWordStats (content this) in
    let readabilityScores :=
      fst (calculateReadabilityScores Math_sqrt (content this)) in
    match analyzeKeywords this with
    | None => None
    | Some keywordAnalysis =>
        let headingStructure := analyzeHeadingStructure (content this) in
        let seoScore :=
          calculateSEOScore wordStats readabilityScores keywordAnalysis
            headingStructure in
        Some {| content := content this;
                targetKeyword := targetKeyword this;
                metaDescription := metaDescription this;
                analysisResults :=
                  Some {| wordStats := wordStats;
                          readabilityScores := readabilityScores;
                          keywordAnalysis := keywordAnalysis;
                          headingStructure := headingStructure;
                          seoScore := seoScore;
                          timestamp := now |} |}
    end.

End Pipeline.

End Legacy.

(** ** Vocabulary of the statements *)

(** [x] clamped to [[lo, hi]]. *)
Definition clamp (lo hi x : Z) : Z := Z.min hi (Z.max lo x).

(** [n] copies of [s], one after the other. *)
Fixpoint copies (n : nat) (s : list ascii) : list ascii :=
  match n with
  | O => []
  | S k => s ++ copies k s
  end.

(** A square root to fifteen decimal places, to run the pipeline on
    concrete inputs; the statements below hold for every [Math_sqrt]. *)
Definition sqrt15 (x : Q) : Q :=
  (inject_Z (Z.sqrt (Qfloor (x * inject_Z (10 ^ 30)))) / inject_Z (10 ^ 15))%Q.

(** Two analysis results agree in every field but the timestamp. *)
Definition same_analysis (a b : AnalysisResult) : Prop :=
  wordStats a = wordStats b /\
  readabilityScores a = readabilityScores b /\
  keywordAnalysis a = keywordAnalysis b /\
  headingStructure a = headingStructure b /\
  seoScore a = seoScore b.

(** The keyword density reported by the last analysis. *)
Definition reportedDensity (this : Analyzer) : option Q :=
  match analysisResults this with
  | Some results => Some (primaryKeywordDensity (keywordAnalysis results))
  | None => None
  end.

(** The texts an atom can take: one character of the class, a run of
    characters of the class within the bounds, nothing for an assertion. *)
Definition atom_takes (a : atom) (seg : list ascii) : Prop :=
  match a with
  | Chr p => exists c : ascii, seg = [c] /\ p c = true
  | Rep p lo hi =>
      forallb p seg = true /\ lo <= length seg /\
      match hi with
      | Some h => length seg <= h
      | None => True
      end
  | Bol | Eol | WordB => seg = []
  end.

(** [1] when the condition holds, else [0]. *)
Definition indicator (b : bool) : Z := if b then 1%Z else 0%Z.

(** [headingCounts[`h${l}`]] *)
Definition countOf (c : HeadingCounts) (l : nat) : nat :=
  match l with
  | 1 => h1 c
  | 2 => h2 c
  | 3 => h3 c
  | 4 => h4 c
  | 5 => h5 c
  | 6 => h6 c
  | _ => 0
  end.

(** The number of headings of level [l]. *)
Definition headingsOfLevel (l : nat) (hs : list HeadingEntry) : nat :=
  length (filter (fun h => level h =? l) hs).

(** The number of words whose cleaned form is [k]. *)
Definition occurrences (k : list ascii) (words : list (list ascii)) : nat :=
  length (filter (fun w => text_eqb (cleanWordOf w) k) words).

(** [wordCounts[k]], 0 for a key that is not there. *)
Fixpoint countIn (k : list ascii) (wordCounts : list (list ascii * nat))
  : nat :=
  match wordCounts with
  | [] => 0
  | (k', n) :: rest => if text_eqb k' k then n else countIn k rest
  end.

(** The character before the position reached after [seg] was read:
    the last character of [seg], or [prev] when [seg] is empty. *)
Definition last_of (prev : option ascii) (seg : list ascii) : option ascii :=
  fold_left (fun _ c => Some c) seg prev.

(** A match in full: [segs] are the texts taken by [atoms], in order,
    starting after the character [prev] and followed by [rest]; every class
    and bound holds and every assertion holds at its position. *)
Fixpoint fits (atoms : list atom) (prev : option ascii)
    (segs : list (list ascii)) (rest : list ascii) : Prop :=
  match atoms, segs with
  | [], [] => True
  | a :: atoms', seg :: segs' =>
      atom_takes a seg /\
      match a with
      | Bol => is_break_at prev = true
      | Eol => is_break_at (hd_error (concat segs' ++ rest)) = true
      | WordB =>
          xorb (is_word_at prev)
               (is_word_at (hd_error (concat segs' ++ rest))) = true
      | _ => True
      end /\
      fits atoms' (last_of prev seg) segs' rest
  | _, _ => False
  end.

(** The pieces that a split on runs has completed after the prefix [pre],
    and the state in which it goes on. *)
Fixpoint split_front (sep : ascii -> bool) (pre cur : list ascii)
    (in_run : bool) : list (list ascii) :=
  match pre with
  | [] => []
  | c :: pre' =>
      if sep c then
        if in_run then split_front sep pre' cur true
        else rev cur :: split_front sep pre' [] true
      else split_front sep pre' (c :: cur) false
  end.

Fixpoint split_state (sep : ascii -> bool) (pre cur : list ascii)
    (in_run : bool) : list ascii * bool :=
  match pre with
  | [] => (cur, in_run)
  | c :: pre' =>
      if sep c then
        if in_run then split_state sep pre' cur true
        else split_state sep pre' [] true
      else split_state sep pre' (c :: cur) false
  end.

(** Text as [analyzeKeywords] prepares it for phrase matching: word
    characters and white space, no capital letter. *)
Definition plain_char (c : ascii) : bool :=
  (is_word_char c || is_space c) && negb (is_upper c).

(** A keyword word that [new RegExp] reads as itself: word characters, no
    capital letter. *)
Definition literal_word (w : list ascii) : bool :=
  nonempty w && forallb (fun c => is_word_char c && negb (is_upper c)) w.

(** * Properties *)

Local Open Scope Z_scope.

(** ** Arithmetic helpers *)

Lemma Math_round_inject_Z (z : Z) : Math_round (inject_Z z) = z.
Proof.
  unfold Math_round.
  assert (H1 : (inject_Z z <= inject_Z z + (1 # 2))%Q).
  { rewrite <- (Qplus_0_r (inject_Z z)) at 1.
    apply Qplus_le_compat; [apply Qle_refl | discriminate]. }
  assert (H2 : (inject_Z z + (1 # 2) < inject_Z (z + 1))%Q).
  { rewrite inject_Z_plus. apply Qplus_lt_r. reflexivity. }
  apply Qfloor_resp_le in H1. rewrite Qfloor_Z in H1.
  pose proof (Qfloor_le (inject_Z z + (1 # 2))) as H3.
  assert (H4 : (inject_Z (Qfloor (inject_Z z + (1 # 2))) < inject_Z (z + 1))%Q)
    by (eapply Qle_lt_trans; eassumption).
  rewrite <- Zlt_Qlt in H4. lia.
Qed.

Lemma Math_round_monotone (x y : Q) :
  (x <= y)%Q -> Math_round x <= Math_round y.
Proof.
  intros H. unfold Math_round. apply Qfloor_resp_le.
  apply Qplus_le_compat; [exact H | apply Qle_refl].
Qed.

Lemma Math_round_nonneg (x : Q) : (0 <= x)%Q -> 0 <= Math_round x.
Proof.
  intros H. change 0 with (Math_round 0). now apply Math_round_monotone.
Qed.

Lemma Qnat_nonneg (n : nat) : (0 <= Qnat n)%Q.
Proof.
  unfold Qnat. change 0%Q with (inject_Z 0). rewrite <- Zle_Qle. lia.
Qed.

Lemma Qnat_le (a b : nat) : (a <= b)%nat -> (Qnat a <= Qnat b)%Q.
Proof.
  intros H. unfold Qnat. rewrite <- Zle_Qle. lia.
Qed.

(** ** TextMetrics *)

Lemma readingTimeOf_monotone (w1 w2 : nat) :
  (w1 <= w2)%nat -> (readingTimeOf w1 <= readingTimeOf w2)%Q.
Proof.
  intros H. unfold readingTimeOf.
  apply Qmult_le_compat_r; [| discriminate].
  rewrite <- Zle_Qle. apply Math_round_monotone.
  repeat (apply Qmult_le_compat_r; [| discriminate]).
  apply (Qnat_le _ _ H).
Qed.

Lemma readingTime_of_words (content : list ascii) :
  (readingTime (calculateWordStats content)
   == readingTimeOf (words (calculateWordStats content)))%Q.
Proof.
  unfold calculateWordStats.
  destruct (negb (nonempty (trim content))); simpl; reflexivity.
Qed.

(** C5, as stated, fails: [calculateWordStats] measures the trimmed text.
    For the three-character content [" a "] the [characters] field is 1. *)
Lemma characters_not_raw_length :
  characters (calculateWordStats (lit " a ")) = 1%nat /\
  length (lit " a ") = 3%nat /\
  characters (calculateWordStats (lit " a ")) <> length (lit " a ").
Proof.
  repeat split; try reflexivity. vm_compute. discriminate.
Qed.

(** C5, amended: for every input string the [characters] field is the
    length of the input with its leading and trailing white space removed;
    white space inside the text is counted. *)
Theorem characters_is_trimmed_length (content : list ascii) :
  characters (calculateWordStats content) = length (trim content).
Proof.
  unfold calculateWordStats, nonempty.
  destruct (length (trim content)) as [| n] eqn:E; simpl.
  - reflexivity.
  - reflexivity.
Qed.

(** C7, as stated, fails: a text of exactly 238 words has a reading time
    of 1.1 minutes, not 1.0. *)
Lemma readingTime_238_words_not_1 :
  words (calculateWordStats (copies 238 (lit "a "))) = 238%nat /\
  (readingTime (calculateWordStats (copies 238 (lit "a "))) == 1.1)%Q /\
  ~ (readingTime (calculateWordStats (copies 238 (lit "a "))) == 1.0)%Q.
Proof.
  split; [vm_compute; reflexivity |].
  split; vm_compute; discriminate || reflexivity.
Qed.

(** C7, amended: the reading time is monotonically non-decreasing in the
    word count; a text of exactly 238 words yields 1.1 and a text of
    exactly 2380 words yields 11.0. *)
Theorem readingTime_monotone_in_words (c1 c2 : list ascii) :
  (words (calculateWordStats c1) <= words (calculateWordStats c2))%nat ->
  (readingTime (calculateWordStats c1)
   <= readingTime (calculateWordStats c2))%Q /\
  (words (calculateWordStats c1) = 238%nat ->
   (readingTime (calculateWordStats c1) == 1.1)%Q) /\
  (words (calculateWordStats c2) = 2380%nat ->
   (readingTime (calculateWordStats c2) == 11.0)%Q).
Proof.
  intros H. rewrite !readingTime_of_words. split; [| split].
  - now apply readingTimeOf_monotone.
  - intros ->. reflexivity.
  - intros ->. reflexivity.
Qed.

Lemma readingTime_monotone_in_words_witness :
  (readingTime (calculateWordStats (copies 238 (lit "a ")))
   <= readingTime (calculateWordStats (copies 2380 (lit "a "))))%Q /\
  (readingTime (calculateWordStats (copies 238 (lit "a "))) == 1.1)%Q /\
  (readingTime (calculateWordStats (copies 2380 (lit "a "))) == 11.0)%Q.
Proof.
  assert (H238 : words (calculateWordStats (copies 238 (lit "a "))) = 238%nat)
    by (vm_compute; reflexivity).
  assert (H2380 :
            words (calculateWordStats (copies 2380 (lit "a "))) = 2380%nat)
    by (vm_compute; reflexivity).
  destruct (readingTime_monotone_in_words
              (copies 238 (lit "a ")) (copies 2380 (lit "a "))) as [M [A B]].
  - rewrite H238, H2380. apply Nat.leb_le. vm_compute. reflexivity.
  - split; [exact M | split; [exact (A H238) | exact (B H2380)]].
Defined.

(** ** HeadingAnalyzer *)

(** C4, as stated, fails: for the single line ["## Section"] the structure
    score is not 70. *)
Lemma missing_h1_score_not_70 :
  structureScore (analyzeHeadingStructure (lit "## Section")) <> 70.
Proof.
  vm_compute. discriminate.
Qed.

(** C4, amended: for content consisting of exactly the single line
    ["## Section"], heading analysis returns [structureScore = 60]: the
    30-point missing-H1 deduction and one 10-point hierarchy deduction,
    because the first heading is compared with a previous level of 0; the
    issues list holds the missing-H1 entry, followed by the hierarchy
    entry. *)
Theorem missing_h1_scenario :
  let r := analyzeHeadingStructure (lit "## Section") in
  structureScore r = 60 /\
  hasH1 r = false /\
  hierarchyIssuesFrom 0 (headings r) = 1%nat /\
  In issue_missing_h1 (issues r) /\
  issues r = [issue_missing_h1; issue_hierarchy].
Proof.
  vm_compute. repeat split; auto.
Qed.

(** ** SyllableCounter *)

Lemma lower_char_of_lower (c : ascii) : is_lower c = true -> lower_char c = c.
Proof.
  unfold lower_char, is_lower, is_upper, in_range. intros H.
  apply andb_true_iff in H. destruct H as [H1 H2].
  apply N.leb_le in H1. apply N.leb_le in H2.
  replace ((65 <=? code c)%N && (code c <=? 90)%N) with false.
  2:{ symmetry. apply andb_false_iff. right. apply N.leb_gt. lia. }
  replace ((192 <=? code c)%N && (code c <=? 222)%N) with false.
  2:{ symmetry. apply andb_false_iff. left. apply N.leb_gt. lia. }
  reflexivity.
Qed.

Lemma toLowerCase_of_lower (w : list ascii) :
  forallb is_lower w = true -> toLowerCase w = w.
Proof.
  induction w as [| c w IH]; simpl; intros H.
  - reflexivity.
  - apply andb_true_iff in H. destruct H as [Hc Hw].
    now rewrite (lower_char_of_lower c Hc), (IH Hw).
Qed.

Lemma filter_of_all (p : ascii -> bool) (w : list ascii) :
  forallb p w = true -> filter p w = w.
Proof.
  induction w as [| c w IH]; simpl; intros H.
  - reflexivity.
  - apply andb_true_iff in H. destruct H as [Hc Hw].
    now rewrite Hc, (IH Hw).
Qed.

(** C9: every non-empty word of lowercase letters has at least one
    syllable, and when the word as given (before any suffix is removed) has
    at most three letters the count is exactly 1. *)
Theorem countWordSyllables_floor (word : list ascii) :
  word <> [] ->
  forallb is_lower word = true ->
  (1 <= countWordSyllables word)%nat /\
  ((length word <= 3)%nat -> countWordSyllables word = 1%nat).
Proof.
  intros Hne Hlow. unfold countWordSyllables.
  rewrite (filter_of_all _ _ Hlow), (toLowerCase_of_lower _ Hlow).
  destruct word as [| c w]; [contradiction |].
  change (length (c :: w) =? 0)%nat with false. cbv iota.
  destruct (length (c :: w) <=? 3)%nat eqn:E.
  - split; [lia | reflexivity].
  - split; [apply Nat.le_max_l |].
    intros H. apply Nat.leb_gt in E. lia.
Qed.

Lemma countWordSyllables_floor_witness :
  (1 <= countWordSyllables (lit "bed"))%nat /\
  countWordSyllables (lit "bed") = 1%nat.
Proof.
  destruct (countWordSyllables_floor (lit "bed")) as [A B].
  - discriminate.
  - reflexivity.
  - split; [exact A | apply B; simpl; lia].
Defined.

(** ** ReadabilityScorer *)

(** C6, as stated, fails: the content ["123"] has one word, one sentence
    and no syllable, and its three grade labels are not ["N/A"]. *)
Lemma zero_syllables_label_not_NA :
  let content := lit "123" in
  words (calculateWordStats content) = 1%nat /\
  sentences (calculateWordStats content) = 1%nat /\
  countSyllables content = 0%nat /\
  fleschEaseGrade (fst (calculateReadabilityScores sqrt15 content))
    = lit "No text to analyze" /\
  fleschEaseGrade (fst (calculateReadabilityScores sqrt15 content))
    <> lit "N/A".
Proof.
  vm_compute. repeat split; discriminate.
Qed.

(** C6, amended: whenever the word count is 0 or the sentence count is 0,
    the readability computation performs none of its divisions and returns
    all three scores equal to 0 with all three grade labels equal to
    ["N/A"]; whenever both counts are positive and the total syllable count
    is 0, it performs none of its divisions and returns all three scores
    equal to 0 with all three grade labels equal to
    ["No text to analyze"]. *)
Theorem readability_guards (Math_sqrt : Q -> Q) (content : list ascii) :
  let stats := calculateWordStats content in
  let result := calculateReadabilityScores Math_sqrt content in
  (words stats = 0%nat \/ sentences stats = 0%nat ->
   result = (zeroScores (lit "N/A"), [])) /\
  (words stats <> 0%nat -> sentences stats <> 0%nat ->
   countSyllables content = 0%nat ->
   result = (zeroScores (lit "No text to analyze"), [])).
Proof.
  cbv zeta. unfold calculateReadabilityScores. split.
  - intros [H | H]; rewrite H; [reflexivity |].
    now rewrite orb_true_r.
  - intros Hw Hs Hz.
    apply Nat.eqb_neq in Hw. apply Nat.eqb_neq in Hs.
    now rewrite Hw, Hs, Hz.
Qed.

Lemma readability_guards_witness :
  calculateReadabilityScores sqrt15 (lit "...")
    = (zeroScores (lit "N/A"), []) /\
  calculateReadabilityScores sqrt15 (lit "123")
    = (zeroScores (lit "No text to analyze"), []).
Proof.
  split.
  - apply (readability_guards sqrt15 (lit "...")). right. reflexivity.
  - apply (readability_guards sqrt15 (lit "123")).
    + discriminate.
    + discriminate.
    + reflexivity.
Defined.

(** ** CompositeScorer *)

Lemma if_nonneg (b : bool) (x y : Z) :
  0 <= x -> 0 <= y -> 0 <= (if b then x else y).
Proof.
  destruct b; auto.
Qed.

Ltac nonneg_points :=
  repeat match goal with
         | |- 0 <= _ + _ => apply Z.add_nonneg_nonneg
         | |- 0 <= (if _ then _ else _) => apply if_nonneg
         | |- 0 <= Math_round _ => apply Math_round_nonneg
         | |- 0 <= Z.pos _ => lia
         | |- 0 <= 0 => lia
         end.

Lemma contentQualityPoints_nonneg (ws : WordStats) (ka : KeywordAnalysis) :
  0 <= contentQualityPoints ws ka.
Proof.
  unfold contentQualityPoints. cbv zeta. nonneg_points.
Qed.

Lemma technicalSEOPoints_nonneg (this : Analyzer) (hs : HeadingStructure)
    (ka : KeywordAnalysis) :
  0 <= technicalSEOPoints this hs ka.
Proof.
  unfold technicalSEOPoints. cbv zeta. nonneg_points.
  apply Qmult_le_0_compat; [| discriminate].
  apply Qle_shift_div_l; [reflexivity |].
  rewrite Qmult_0_l. apply Qnat_nonneg.
Qed.

Lemma readabilityPoints_nonneg (rs : ReadabilityScores) :
  0 <= readabilityPoints rs.
Proof.
  unfold readabilityPoints. cbv zeta. nonneg_points.
Qed.

Lemma userExperiencePoints_nonneg (ws : WordStats) :
  0 <= userExperiencePoints ws.
Proof.
  unfold userExperiencePoints. cbv zeta. nonneg_points.
Qed.

Lemma min_is_clamp (x : Z) : 0 <= x -> Z.min 100 x = clamp 0 100 x.
Proof.
  intros H. unfold clamp. now rewrite (Z.max_r 0 x H).
Qed.

Lemma clamp_bounds (x : Z) : 0 <= clamp 0 100 x <= 100.
Proof.
  unfold clamp. lia.
Qed.


(** ** KeywordAnalyzer: status and density *)

Lemma Qleb_true (a b : Q) : Qleb a b = true <-> (a <= b)%Q.
Proof. apply Qle_bool_iff. Qed.

Lemma Qleb_false (a b : Q) : Qleb a b = false <-> (b < a)%Q.
Proof.
  unfold Qleb. split; intros H.
  - apply Qnot_le_lt. intros C. apply Qle_bool_iff in C. congruence.
  - destruct (Qle_bool a b) eqn:E; [| reflexivity].
    apply Qle_bool_iff in E. apply Qlt_not_le in H. contradiction.
Qed.

Lemma Qltb_true (a b : Q) : Qltb a b = true <-> (a < b)%Q.
Proof.
  unfold Qltb. rewrite negb_true_iff. apply (Qleb_false b a).
Qed.

Lemma Qltb_false (a b : Q) : Qltb a b = false <-> (b <= a)%Q.
Proof.
  unfold Qltb. rewrite negb_false_iff. apply (Qleb_true b a).
Qed.

Lemma Qeqb_true (a b : Q) : Qeqb a b = true <-> (a == b)%Q.
Proof. apply Qeq_bool_iff. Qed.

Lemma Qeqb_false (a b : Q) : Qeqb a b = false <-> ~ (a == b)%Q.
Proof.
  unfold Qeqb. split; intros H.
  - intros C. apply Qeq_bool_iff in C. congruence.
  - destruct (Qeq_bool a b) eqn:E; [| reflexivity].
    apply Qeq_bool_iff in E. contradiction.
Qed.

Ltac q_cases :=
  repeat match goal with
         | |- context [Qeqb ?a ?b] =>
             let E := fresh "E" in
             destruct (Qeqb a b) eqn:E;
             [apply Qeqb_true in E | apply Qeqb_false in E]
         | |- context [Qltb ?a ?b] =>
             let E := fresh "E" in
             destruct (Qltb a b) eqn:E;
             [apply Qltb_true in E | apply Qltb_false in E]
         | |- context [Qleb ?a ?b] =>
             let E := fresh "E" in
             destruct (Qleb a b) eqn:E;
             [apply Qleb_true in E | apply Qleb_false in E]
         end.

Lemma keywordStatus_bands (d : Q) :
  ((d == 0)%Q -> keywordStatus d = status_not_found) /\
  ((0 < d)%Q -> (d < 0.5)%Q -> keywordStatus d = status_too_low) /\
  ((0.5 <= d)%Q -> (d <= 2)%Q -> keywordStatus d = status_optimal) /\
  ((2 < d)%Q -> (d <= 3)%Q -> keywordStatus d = status_slightly_high) /\
  ((3 < d)%Q -> keywordStatus d = status_too_high).
Proof.
  unfold keywordStatus.
  repeat split; intros; q_cases; try reflexivity; exfalso; lra.
Qed.

Lemma densityOf_nonneg (c n : nat) : (0 <= densityOf c n)%Q.
Proof.
  unfold densityOf. destruct (0 <? n)%nat eqn:E; [| apply Qle_refl].
  apply Nat.ltb_lt in E.
  apply Qmult_le_0_compat; [| discriminate].
  apply Qle_shift_div_l.
  - unfold Qnat. change 0%Q with (inject_Z 0). rewrite <- Zlt_Qlt. lia.
  - rewrite Qmult_0_l. apply Qnat_nonneg.
Qed.

(** The pieces of the result of [analyzeKeywords] when a keyword is set. *)
Lemma analyzeKeywords_with_keyword (this : Analyzer) (r : KeywordAnalysis) :
  nonempty (trim (content this)) = true ->
  nonempty (trim (targetKeyword this)) = true ->
  analyzeKeywords this = Some r ->
  exists c : nat,
    countKeyword this = Some c /\
    primaryKeywordCount r = c /\
    primaryKeywordDensity r = round2 (densityOf c (totalWordsOf this)) /\
    status r = keywordStatus (densityOf c (totalWordsOf this)).
Proof.
  intros Hc Hk. unfold analyzeKeywords. rewrite Hc, Hk. cbn [negb].
  destruct (countKeyword this) as [c |]; [| discriminate].
  destruct (extractTopKeywords _) as [top |]; [| discriminate].
  intros H. injection H as <-. exists c. repeat split.
Qed.



(** ** The pipeline *)

(** [analyzeKeywords] reads the analyzer's stored results only through the
    total word count. *)
Lemma analyzeKeywords_reads_cache_only (this this' : Analyzer) :
  content this = content this' ->
  targetKeyword this = targetKeyword this' ->
  totalWordsOf this = totalWordsOf this' ->
  analyzeKeywords this = analyzeKeywords this'.
Proof.
  intros Hc Hk Ht.
  unfold analyzeKeywords, countKeyword, extractSemanticKeywords.
  now rewrite Hc, Hk, Ht.
Qed.

Lemma calculateSEOScore_reads_inputs_only (this this' : Analyzer)
    (ws : WordStats) (rs : ReadabilityScores) (ka : KeywordAnalysis)
    (hs : HeadingStructure) :
  targetKeyword this = targetKeyword this' ->
  metaDescription this = metaDescription this' ->
  calculateSEOScore this ws rs ka hs = calculateSEOScore this' ws rs ka hs.
Proof.
  intros Hk Hm.
  unfold calculateSEOScore, calculateTechnicalSEOScore, technicalSEOPoints.
  now rewrite Hk, Hm.
Qed.

Lemma countWords_is_words (content : list ascii) :
  nonempty (trim content) = true ->
  countWords (trim content) = words (calculateWordStats content).
Proof.
  intros H. unfold calculateWordStats. now rewrite H.
Qed.

(** The total word count that [analyzeKeywords] uses once a result with a
    positive word count is stored. *)
Lemma totalWordsOf_cached (this : Analyzer) (r : AnalysisResult) :
  analysisResults this = Some r ->
  words (wordStats r) <> 0%nat ->
  totalWordsOf this = words (wordStats r).
Proof.
  intros Hr Hn. unfold totalWordsOf. rewrite Hr.
  apply Nat.eqb_neq in Hn. now rewrite Hn.
Qed.

Lemma totalWordsOf_after_same_content (this : Analyzer) (r : AnalysisResult) :
  analysisResults this = Some r ->
  wordStats r = calculateWordStats (content this) ->
  nonempty (trim (content this)) = true ->
  totalWordsOf this = words (calculateWordStats (content this)).
Proof.
  intros Hr Hw Hc. unfold totalWordsOf. rewrite Hr, Hw.
  destruct (words (calculateWordStats (content this)) =? 0)%nat;
    [now apply countWords_is_words | reflexivity].
Qed.

Section PipelineProperties.

Variable Math_sqrt : Q -> Q.

Lemma updateAnalysis_blank (now : list ascii) (this : Analyzer) :
  nonempty (trim (content this)) = false ->
  updateAnalysis Math_sqrt now this = Some this.
Proof.
  intros H. unfold updateAnalysis. now rewrite H.
Qed.

Lemma updateAnalysis_nonblank (now : list ascii) (this this' : Analyzer) :
  nonempty (trim (content this)) = true ->
  updateAnalysis Math_sqrt now this = Some this' ->
  exists ka : KeywordAnalysis,
    analyzeKeywords this = Some ka /\
    content this' = content this /\
    targetKeyword this' = targetKeyword this /\
    metaDescription this' = metaDescription this /\
    analysisResults this' =
      Some {| wordStats := calculateWordStats (content this);
              readabilityScores :=
                fst (calculateReadabilityScores Math_sqrt (content this));
              keywordAnalysis := ka;
              headingStructure := analyzeHeadingStructure (content this);
              seoScore :=
                calculateSEOScore this (calculateWordStats (content this))
                  (fst (calculateReadabilityScores Math_sqrt (content this)))
                  ka (analyzeHeadingStructure (content this));
              timestamp := now |}.
Proof.
  intros Hc. unfold updateAnalysis. rewrite Hc. cbn [negb].
  destruct (analyzeKeywords this) as [ka |]; [| discriminate].
  intros H. injection H as <-. exists ka. repeat split.
Qed.


End PipelineProperties.




(** ** The pattern matcher *)

Lemma took_some (seg : list ascii) (r : option match_result)
    (segs : list (list ascii)) (rest : list ascii) :
  took seg r = Some (segs, rest) ->
  exists segs', segs = seg :: segs' /\ r = Some (segs', rest).
Proof.
  destruct r as [[segs0 rest0] |]; simpl; [| discriminate].
  intros H. injection H as <- <-. now exists segs0.
Qed.

Lemma rep_greedy_sound (p : ascii -> bool) (lo : nat) (hi : option nat)
    (k : option ascii -> list ascii -> option match_result) :
  forall (s taken : list ascii) (prev : option ascii)
         (segs : list (list ascii)) (rest : list ascii),
    rep_greedy p lo hi k prev s taken = Some (segs, rest) ->
    forallb p taken = true ->
    match hi with Some h => (length taken <= h)%nat | None => True end ->
    exists (seg : list ascii) (segs' : list (list ascii))
           (prev' : option ascii) (s' : list ascii),
      segs = seg :: segs' /\
      atom_takes (Rep p lo hi) seg /\
      rev taken ++ s = seg ++ s' /\
      k prev' s' = Some (segs', rest).
Proof.
  assert (Stop : forall (s taken : list ascii) (prev : option ascii)
                        (segs : list (list ascii)) (rest : list ascii),
             (if (lo <=? length taken)%nat then took (rev taken) (k prev s)
              else None) = Some (segs, rest) ->
             forallb p taken = true ->
             match hi with Some h => (length taken <= h)%nat | None => True end ->
             exists (seg : list ascii) (segs' : list (list ascii))
                    (prev' : option ascii) (s' : list ascii),
               segs = seg :: segs' /\
               atom_takes (Rep p lo hi) seg /\
               rev taken ++ s = seg ++ s' /\
               k prev' s' = Some (segs', rest)).
  { intros s taken prev segs rest H Hp Hh.
    destruct (lo <=? length taken)%nat eqn:E; [| discriminate].
    apply took_some in H. destruct H as [segs' [-> K]].
    exists (rev taken), segs', prev, s. repeat split; try assumption.
    - rewrite forallb_forall in *. intros x Hx. apply Hp.
      now apply in_rev.
    - rewrite length_rev. now apply Nat.leb_le.
    - destruct hi; [now rewrite length_rev | exact I]. }
  induction s as [| c s IH]; intros taken prev segs rest H Hp Hh.
  - simpl in H. now apply (Stop [] taken prev).
  - simpl in H.
    destruct (p c && below hi (length taken)) eqn:E.
    + apply andb_true_iff in E. destruct E as [Ec Eb].
      destruct (rep_greedy p lo hi k (Some c) s (c :: taken))
        as [r |] eqn:R.
      * injection H as ->.
        apply IH in R.
        -- destruct R as [seg [segs' [prev' [s' [-> [A [B K]]]]]]].
           exists seg, segs', prev', s'. repeat split; try apply A; try exact K.
           rewrite <- B. simpl. now rewrite <- app_assoc.
        -- simpl. now rewrite Ec, Hp.
        -- destruct hi as [h |]; [| exact I]. simpl in *.
           apply Nat.ltb_lt in Eb. lia.
      * now apply (Stop (c :: s) taken prev).
    + now apply (Stop (c :: s) taken prev).
Qed.

(** Soundness of the matcher: the texts it reports are admissible for their
    atoms, one per atom, and together with the rest they are the input. *)
Lemma match_here_sound (atoms : list atom) :
  forall (prev : option ascii) (s : list ascii)
         (segs : list (list ascii)) (rest : list ascii),
    match_here atoms prev s = Some (segs, rest) ->
    Forall2 atom_takes atoms segs /\ s = concat segs ++ rest.
Proof.
  induction atoms as [| a atoms IH]; intros prev s segs rest H.
  - simpl in H. injection H as <- <-. split; [constructor | reflexivity].
  - destruct a as [p | p lo hi | | |]; simpl in H.
    + destruct s as [| c s]; [discriminate |].
      destruct (p c) eqn:E; [| discriminate].
      apply took_some in H. destruct H as [segs' [-> K]].
      apply IH in K. destruct K as [F ->].
      split; [constructor; [now exists c | exact F] | reflexivity].
    + apply rep_greedy_sound in H; [| reflexivity |].
      * destruct H as [seg [segs' [prev' [s' [-> [A [B K]]]]]]].
        apply IH in K. destruct K as [F ->].
        split; [constructor; assumption |].
        simpl in B. rewrite B. simpl. now rewrite app_assoc.
      * destruct hi; [simpl; lia | exact I].
    + destruct (is_break_at prev); [| discriminate].
      apply took_some in H. destruct H as [segs' [-> K]].
      apply IH in K. destruct K as [F ->].
      split; [constructor; [reflexivity | exact F] | reflexivity].
    + destruct (is_break_at (hd_error s)); [| discriminate].
      apply took_some in H. destruct H as [segs' [-> K]].
      apply IH in K. destruct K as [F ->].
      split; [constructor; [reflexivity | exact F] | reflexivity].
    + destruct (xorb _ _); [| discriminate].
      apply took_some in H. destruct H as [segs' [-> K]].
      apply IH in K. destruct K as [F ->].
      split; [constructor; [reflexivity | exact F] | reflexivity].
Qed.

(** Every match that [matchAll] reports is a match of the pattern at its
    index, and no match starts before the position the scan has reached. *)
Lemma matchAll_sound (atoms : list atom) :
  forall (s : list ascii) (prev : option ascii) (skip index i : nat)
         (segs : list (list ascii)),
    In (i, segs) (matchAll atoms prev s skip index) ->
    (index + skip <= i)%nat /\
    Forall2 atom_takes atoms segs /\
    exists pre rest : list ascii,
      s = pre ++ concat segs ++ rest /\ (index + length pre = i)%nat.
Proof.
  induction s as [| c s IH]; intros prev skip index i segs H.
  - destruct skip as [| k]; simpl in H; [| contradiction].
    destruct (match_here atoms prev []) as [[segs0 rest0] |] eqn:M;
      [| contradiction].
    destruct H as [H | []]. injection H as <- <-.
    apply match_here_sound in M. destruct M as [F E].
    split; [lia |]. split; [exact F |].
    exists [], rest0. split; [exact E | simpl; lia].
  - assert (Tail : forall k,
               In (i, segs) (matchAll atoms (Some c) s k (S index)) ->
               (S index + k <= i)%nat /\
               Forall2 atom_takes atoms segs /\
               exists pre rest : list ascii,
                 c :: s = pre ++ concat segs ++ rest /\
                 (index + length pre = i)%nat).
    { intros k Hk. apply IH in Hk.
      destruct Hk as [A [F [pre [rest [E L]]]]].
      split; [exact A |]. split; [exact F |].
      exists (c :: pre), rest. split; [now rewrite E | simpl; lia]. }
    destruct skip as [| k]; simpl in H.
    + destruct (match_here atoms prev (c :: s)) as [[segs0 rest0] |] eqn:M.
      * destruct H as [H | H].
        -- injection H as <- <-.
           apply match_here_sound in M. destruct M as [F E].
           split; [lia |]. split; [exact F |].
           exists [], rest0. split; [exact E | simpl; lia].
        -- apply Tail in H. destruct H as [A R]. split; [lia | exact R].
      * apply Tail in H. destruct H as [A R]. split; [lia | exact R].
    + apply Tail in H. destruct H as [A R]. split; [lia | exact R].
Qed.

Lemma matchAll_sorted (atoms : list atom) :
  forall (s : list ascii) (prev : option ascii) (skip index : nat),
    StronglySorted lt (map fst (matchAll atoms prev s skip index)).
Proof.
  assert (Bound : forall (s : list ascii) (prev : option ascii)
                         (skip index : nat),
             Forall (lt index)
               (map fst (matchAll atoms prev s skip (S index)))).
  { intros s prev skip index. apply Forall_forall. intros i Hi.
    apply in_map_iff in Hi. destruct Hi as [[i' segs] [<- Hi]].
    apply matchAll_sound in Hi. simpl. lia. }
  induction s as [| c s IH]; intros prev skip index.
  - destruct skip; simpl; [| constructor].
    destruct (match_here atoms prev []) as [[segs0 rest0] |]; simpl;
      repeat constructor.
  - destruct skip as [| k]; simpl.
    + destruct (match_here atoms prev (c :: s)) as [[segs0 rest0] |]; simpl.
      * constructor; [apply IH | apply Bound].
      * apply IH.
    + apply IH.
Qed.

(** ** HeadingAnalyzer: the fields of the result *)

Lemma analyzeHeadingStructure_fields (content : list ascii) :
  let hs := map headingOf (markdownMatches content ++ htmlMatches content) in
  let counts :=
    fold_left (fun c heading => countHeading c (level heading)) hs
      {| h1 := 0; h2 := 0; h3 := 0; h4 := 0; h5 := 0; h6 := 0 |} in
  let r := analyzeHeadingStructure content in
  headings r = hs /\
  totalHeadings r = length hs /\
  headingCount r = length hs /\
  headingCounts r = counts /\
  hasH1 r = (0 <? h1 counts)%nat /\
  multipleH1 r = (1 <? h1 counts)%nat /\
  structureScore r
    = Z.max 0 (100 - 30 * indicator (negb (hasH1 r))
               - 20 * indicator (multipleH1 r)
               - 10 * Z.of_nat (hierarchyIssuesFrom 0 hs)) /\
  issues r
    = (if negb (hasH1 r) then [issue_missing_h1] else [])
      ++ (if multipleH1 r then [issue_multiple_h1] else [])
      ++ (if (0 <? hierarchyIssuesFrom 0 hs)%nat then [issue_hierarchy]
          else []).
Proof.
  cbv zeta. unfold analyzeHeadingStructure.
  set (hs := map headingOf (markdownMatches content ++ htmlMatches content)).
  set (counts := fold_left _ hs _).
  destruct (0 <? h1 counts)%nat eqn:E1;
    destruct (1 <? h1 counts)%nat eqn:E2;
    destruct (0 <? hierarchyIssuesFrom 0 hs)%nat eqn:E3;
    cbn [negb headings totalHeadings headingCount headingCounts hasH1
         multipleH1 structureScore issues indicator app];
    repeat split; try (f_equal; lia);
    apply Nat.ltb_ge in E3;
    replace (hierarchyIssuesFrom 0 hs) with 0%nat by lia; reflexivity.
Qed.

(** X5: the structure score lies in [[0, 100]]; it is 100 less 30 when
    there is no H1, less 20 when there are several, less 10 for each
    hierarchy violation, floored at 0; and it is 100 exactly when the
    issues list is empty. *)
Theorem structureScore_formula (content : list ascii) :
  let r := analyzeHeadingStructure content in
  structureScore r
    = Z.max 0 (100 - 30 * indicator (negb (hasH1 r))
               - 20 * indicator (multipleH1 r)
               - 10 * Z.of_nat (hierarchyIssuesFrom 0 (headings r))) /\
  0 <= structureScore r <= 100 /\
  (structureScore r = 100 <-> issues r = []).
Proof.
  cbv zeta.
  destruct (analyzeHeadingStructure_fields content)
    as [Hh [_ [_ [_ [_ [_ [Hs Hi]]]]]]].
  cbv zeta in *. rewrite Hh. split; [exact Hs |].
  rewrite Hs, Hi.
  set (n := hierarchyIssuesFrom 0 _).
  destruct (hasH1 _), (multipleH1 _), (0 <? n)%nat eqn:E;
    cbn [negb indicator app];
    (apply Nat.ltb_lt in E || apply Nat.ltb_ge in E);
    (split; [lia |]); split; intros H; try discriminate; try lia;
    reflexivity.
Qed.


(** ** HeadingAnalyzer: heading entries *)

Lemma takeWhile_app_stop (p : ascii -> bool) (a b : list ascii) :
  forallb p a = true ->
  match b with
  | c :: _ => p c = false
  | [] => True
  end ->
  takeWhile p (a ++ b) = a.
Proof.
  induction a as [| x a IH]; simpl; intros Ha Hb.
  - destruct b as [| c b]; [reflexivity |]. simpl. now rewrite Hb.
  - apply andb_true_iff in Ha. destruct Ha as [Hx Ha].
    now rewrite Hx, (IH Ha Hb).
Qed.

Lemma is_hash_char (c : ascii) : is_hash c = true -> c = "#"%char.
Proof.
  unfold is_hash. apply Ascii.eqb_eq.
Qed.

Lemma space_not_hash (c : ascii) : is_space c = true -> is_hash c = false.
Proof.
  intros H. destruct (is_hash c) eqn:E; [| reflexivity].
  apply is_hash_char in E. subst c. discriminate.
Qed.

Lemma markdown_heading_level (segs : list (list ascii)) :
  Forall2 atom_takes markdownHeading segs ->
  let h := headingOf {| index := 0; whole := concat segs;
                        groups := [nth 3 segs []] |} in
  (1 <= level h <= 6)%nat.
Proof.
  unfold markdownHeading. intros F.
  repeat match goal with
         | H : Forall2 _ _ _ |- _ => inversion H; subst; clear H
         end.
  repeat match goal with
         | H : atom_takes _ _ |- _ => simpl in H
         end.
  subst.
  match goal with
  | H1 : forallb is_hash ?hs = true /\ _,
    H2 : forallb is_space ?ws = true /\ _ |- _ =>
      destruct H1 as [Hh [Hl1 Hl2]]; destruct H2 as [Hw [Hl3 _]];
      rename hs into hashes; rename ws into spaces
  end.
  match goal with
  | H : forallb (fun c => negb (is_line_terminator c)) ?cap = true /\ _ |- _ =>
      rename cap into y2
  end.
  cbv zeta. unfold headingOf. cbn [whole groups concat].
  rewrite app_nil_l.
  assert (T : takeWhile is_hash (hashes ++ spaces ++ y2 ++ [] ++ []) = hashes).
  { apply takeWhile_app_stop; [exact Hh |].
    destruct spaces as [| w spaces]; [simpl in Hl3; lia |].
    simpl in Hw. apply andb_true_iff in Hw. destruct Hw as [Hw _].
    simpl. now apply space_not_hash. }
  rewrite T.
  destruct hashes as [| c hashes]; [simpl in Hl1; lia |].
  simpl in Hh. apply andb_true_iff in Hh.
  destruct Hh as [Hc _]. apply is_hash_char in Hc. subst c.
  cbn [startsWith lit list_ascii_of_string app Ascii.eqb Bool.eqb andb level].
  lia.
Qed.

Lemma html_heading_level (segs : list (list ascii)) :
  Forall2 atom_takes htmlHeading segs ->
  let h := headingOf {| index := 0; whole := concat segs;
                        groups := [nth 2 segs []; nth 5 segs []] |} in
  (1 <= level h <= 6)%nat.
Proof.
  unfold htmlHeading. intros F.
  repeat match goal with
         | H : Forall2 _ _ _ |- _ => inversion H; subst; clear H
         end.
  repeat match goal with
         | H : atom_takes (Chr _) _ |- _ =>
             cbn [atom_takes] in H; destruct H as [? [? ?]]; subst
         end.
  repeat match goal with
         | H : char_eqb _ _ = true |- _ => apply Ascii.eqb_eq in H; subst
         end.
  cbv zeta. unfold headingOf.
  cbn [whole groups concat app startsWith lit list_ascii_of_string
       Ascii.eqb Bool.eqb andb group nth Nat.sub level parseInt].
  match goal with
  | H : in_range 49 54 ?d = true |- (_ <= N.to_nat (code ?d - 48) <= _)%nat =>
      unfold in_range in H; apply andb_true_iff in H;
      destruct H as [L U]; apply N.leb_le in L; apply N.leb_le in U; lia
  end.
Qed.

Lemma headingOf_index (i j : nat) (w : list ascii) (g : list (list ascii)) :
  headingOf {| index := i; whole := w; groups := g |}
  = headingOf {| index := j; whole := w; groups := g |}.
Proof. reflexivity. Qed.

Lemma headingOf_text_length (m : RegExpMatch) :
  (length (text (headingOf m)) <= 100)%nat.
Proof.
  unfold headingOf. destruct (startsWith _ _); cbn [text];
    rewrite length_firstn; lia.
Qed.

Lemma heading_levels_in_range (content : list ascii) :
  Forall (fun h => (1 <= level h <= 6)%nat /\ (length (text h) <= 100)%nat)
         (headings (analyzeHeadingStructure content)).
Proof.
  destruct (analyzeHeadingStructure_fields content) as [Hh _].
  cbv zeta in Hh. rewrite Hh. clear Hh.
  rewrite map_app. apply Forall_app. split.
  - unfold markdownMatches. rewrite map_map. apply Forall_forall.
    intros h Hin. apply in_map_iff in Hin.
    destruct Hin as [[i segs] [<- Hin]].
    apply matchAll_sound in Hin. destruct Hin as [_ [F _]].
    split; [| apply headingOf_text_length].
    rewrite (headingOf_index i 0). now apply markdown_heading_level.
  - unfold htmlMatches. rewrite map_map. apply Forall_forall.
    intros h Hin. apply in_map_iff in Hin.
    destruct Hin as [[i segs] [<- Hin]].
    apply matchAll_sound in Hin. destruct Hin as [_ [F _]].
    split; [| apply headingOf_text_length].
    rewrite (headingOf_index i 0). now apply html_heading_level.
Qed.

Lemma countOf_countHeading (c : HeadingCounts) (l l' : nat) :
  (1 <= l <= 6)%nat ->
  countOf (countHeading c l') l
  = (countOf c l + if (l' =? l)%nat then 1 else 0)%nat.
Proof.
  intros [L U].
  destruct l as [| [| [| [| [| [| [| l]]]]]]]; try lia;
    destruct l' as [| [| [| [| [| [| [| l']]]]]]]; simpl; lia.
Qed.

Lemma countOf_fold (hs : list HeadingEntry) :
  forall (c : HeadingCounts) (l : nat),
    (1 <= l <= 6)%nat ->
    countOf (fold_left (fun c heading => countHeading c (level heading)) hs c)
            l
    = (countOf c l + headingsOfLevel l hs)%nat.
Proof.
  unfold headingsOfLevel.
  induction hs as [| h hs IH]; intros c l Hl; simpl.
  - lia.
  - rewrite (IH _ l Hl), (countOf_countHeading c l (level h) Hl).
    destruct (level h =? l)%nat; simpl; lia.
Qed.

Lemma levels_partition (hs : list HeadingEntry) :
  Forall (fun h => (1 <= level h <= 6)%nat) hs ->
  (headingsOfLevel 1 hs + headingsOfLevel 2 hs + headingsOfLevel 3 hs
   + headingsOfLevel 4 hs + headingsOfLevel 5 hs + headingsOfLevel 6 hs
   = length hs)%nat.
Proof.
  unfold headingsOfLevel.
  induction 1 as [| h hs [L U] _ IH]; [reflexivity |].
  cbn [filter length].
  destruct (level h) as [| [| [| [| [| [| [| n]]]]]]]; simpl in *; lia.
Qed.

(** X7: every heading entry has a level from 1 to 6 and a text of at most
    100 characters; the count kept for each level is the number of entries
    of that level, so the six counts add up to [totalHeadings]; [hasH1]
    holds exactly when there is an entry of level 1 and [multipleH1]
    exactly when there are at least two. *)
Theorem heading_inventory (content : list ascii) :
  let r := analyzeHeadingStructure content in
  Forall (fun h => (1 <= level h <= 6)%nat /\ (length (text h) <= 100)%nat)
         (headings r) /\
  (forall l : nat, (1 <= l <= 6)%nat ->
     countOf (headingCounts r) l = headingsOfLevel l (headings r)) /\
  (h1 (headingCounts r) + h2 (headingCounts r) + h3 (headingCounts r)
   + h4 (headingCounts r) + h5 (headingCounts r) + h6 (headingCounts r)
   = totalHeadings r)%nat /\
  totalHeadings r = length (headings r) /\
  (hasH1 r = true <-> (1 <= headingsOfLevel 1 (headings r))%nat) /\
  (multipleH1 r = true <-> (2 <= headingsOfLevel 1 (headings r))%nat).
Proof.
  cbv zeta.
  pose proof (heading_levels_in_range content) as W.
  destruct (analyzeHeadingStructure_fields content)
    as [Hh [Ht [_ [Hc [H1 [H2 _]]]]]].
  cbv zeta in *.
  assert (C : forall l : nat, (1 <= l <= 6)%nat ->
            countOf (headingCounts (analyzeHeadingStructure content)) l
            = headingsOfLevel l (headings (analyzeHeadingStructure content))).
  { intros l Hl. rewrite Hc, Hh, (countOf_fold _ _ l Hl).
    destruct l as [| [| [| [| [| [| [| l]]]]]]]; simpl; lia. }
  split; [exact W |]. split; [exact C |].
  assert (P := levels_partition (headings (analyzeHeadingStructure content))).
  rewrite <- (C 1%nat), <- (C 2%nat), <- (C 3%nat), <- (C 4%nat),
    <- (C 5%nat), <- (C 6%nat) in P by lia.
  cbn [countOf] in P.
  split.
  - rewrite Ht, <- Hh. apply P.
    eapply Forall_impl; [| exact W]. intros h [A _]. exact A.
  - split; [now rewrite Ht, Hh |].
    rewrite H1, H2, <- Hc, <- (C 1%nat) by lia. cbn [countOf].
    split; [apply Nat.ltb_lt | apply Nat.ltb_lt].
Qed.

(** ** TextMetrics: counts *)

Lemma dropWhile_keeps (p : ascii -> bool) (s : list ascii) (c : ascii) :
  In c s -> p c = false -> In c (dropWhile p s).
Proof.
  induction s as [| x s IH]; simpl; intros Hin Hc; [contradiction |].
  destruct (p x) eqn:E; [| exact Hin].
  destruct Hin as [-> | Hin]; [congruence | now apply IH].
Qed.

Lemma dropWhile_incl (p : ascii -> bool) (s : list ascii) (c : ascii) :
  In c (dropWhile p s) -> In c s.
Proof.
  induction s as [| x s IH]; simpl; intros H; [contradiction |].
  destruct (p x); [right; now apply IH | exact H].
Qed.

Lemma dropWhile_length (p : ascii -> bool) (s : list ascii) :
  (length (dropWhile p s) <= length s)%nat.
Proof.
  induction s as [| x s IH]; simpl; [lia |].
  destruct (p x); simpl; lia.
Qed.

Lemma dropWhile_head (p : ascii -> bool) (s r : list ascii) (c : ascii) :
  dropWhile p s = c :: r -> p c = false.
Proof.
  induction s as [| x s IH]; simpl; [discriminate |].
  destruct (p x) eqn:E; [exact IH |].
  intros H. injection H as <- _. exact E.
Qed.

Lemma trim_keeps (s : list ascii) (c : ascii) :
  In c s -> is_space c = false -> In c (trim s).
Proof.
  intros Hin Hc. unfold trim. apply -> in_rev.
  apply dropWhile_keeps; [| exact Hc]. apply -> in_rev.
  now apply dropWhile_keeps.
Qed.

Lemma trim_incl (s : list ascii) (c : ascii) : In c (trim s) -> In c s.
Proof.
  unfold trim. intros H. apply in_rev in H. apply dropWhile_incl in H.
  apply in_rev in H. now apply dropWhile_incl in H.
Qed.

Lemma trim_length (s : list ascii) : (length (trim s) <= length s)%nat.
Proof.
  unfold trim. rewrite length_rev.
  etransitivity; [apply dropWhile_length |]. rewrite length_rev.
  apply dropWhile_length.
Qed.

(** A trimmed text that is not empty ends, and so contains, a character
    that is not white space. *)
Lemma trim_has_ink (s : list ascii) :
  trim s <> [] -> exists c : ascii, In c (trim s) /\ is_space c = false.
Proof.
  unfold trim. intros H.
  destruct (dropWhile is_space (rev (dropWhile is_space s)))
    as [| c r] eqn:E; [contradiction |].
  exists c. split; [| exact (dropWhile_head _ _ _ _ E)].
  apply -> in_rev. now left.
Qed.

Lemma nonempty_true (s : list ascii) : nonempty s = true <-> s <> [].
Proof.
  unfold nonempty. destruct s; simpl; split; intros H; congruence.
Qed.

Lemma nonblank_of_ink (s : list ascii) (c : ascii) :
  In c s -> is_space c = false -> nonblank s = true.
Proof.
  intros Hin Hc. unfold nonblank. apply nonempty_true.
  pose proof (trim_keeps s c Hin Hc) as H. intros E. now rewrite E in H.
Qed.

Lemma nonblank_nonempty (s : list ascii) : nonblank s = true -> s <> [].
Proof.
  intros H E. subst s. discriminate.
Qed.

(** The pieces of a split on runs: a character that is not a separator
    lies in one of them, and together they are no longer than the input. *)
Lemma split_runs_keeps (sep : ascii -> bool) (c : ascii) :
  forall (s cur : list ascii) (in_run : bool),
    sep c = false -> In c s \/ In c cur ->
    exists piece, In piece (split_runs sep s cur in_run) /\ In c piece.
Proof.
  induction s as [| x s IH]; intros cur in_run Hc H; simpl.
  - destruct H as [[] | H]. exists (rev cur). split; [now left |].
    now apply -> in_rev.
  - destruct (sep x) eqn:E.
    + destruct H as [[-> | H] | H]; try congruence.
      * destruct in_run.
        -- apply (IH cur true Hc). now left.
        -- destruct (IH [] true Hc (or_introl H)) as [p [A B]].
           exists p. split; [now right | exact B].
      * destruct in_run.
        -- apply (IH cur true Hc). now right.
        -- exists (rev cur). split; [now left | now apply -> in_rev].
    + apply (IH (x :: cur) false Hc).
      destruct H as [[-> | H] | H]; [right; now left | now left |
                                     right; now right].
Qed.

Lemma split_runs_total_length (sep : ascii -> bool) :
  forall (s cur : list ascii) (in_run : bool),
    (length (concat (split_runs sep s cur in_run))
     <= length s + length cur)%nat.
Proof.
  induction s as [| x s IH]; intros cur in_run; simpl.
  - rewrite app_nil_r, length_rev. lia.
  - destruct (sep x).
    + destruct in_run.
      * specialize (IH cur true). lia.
      * simpl. rewrite length_app, length_rev.
        specialize (IH [] true). simpl in IH. lia.
    + specialize (IH (x :: cur) false). simpl in IH. lia.
Qed.

Lemma nonempty_pieces_bound (p : list ascii -> bool)
    (pieces : list (list ascii)) :
  (forall piece, p piece = true -> piece <> []) ->
  (length (filter p pieces) <= length (concat pieces))%nat.
Proof.
  intros Hp. induction pieces as [| x l IH]; simpl; [lia |].
  rewrite length_app. destruct (p x) eqn:E; simpl; [| lia].
  apply Hp in E. destruct x; [contradiction | simpl; lia].
Qed.

Lemma filter_has (p : list ascii -> bool) (pieces : list (list ascii))
    (piece : list ascii) :
  In piece pieces -> p piece = true -> (1 <= length (filter p pieces))%nat.
Proof.
  intros Hin Hp.
  assert (H : In piece (filter p pieces)) by (apply filter_In; now split).
  destruct (filter p pieces); [contradiction | simpl; lia].
Qed.

Lemma countWords_pos (text : list ascii) (c : ascii) :
  In c text -> is_space c = false -> (1 <= countWords text)%nat.
Proof.
  intros Hin Hc. unfold countWords, split_ws.
  destruct (split_runs_keeps is_space c text [] false Hc (or_introl Hin))
    as [piece [A B]].
  apply (filter_has _ _ piece A). apply nonempty_true.
  intros E. now rewrite E in B.
Qed.

Lemma countWords_le_length (text : list ascii) :
  (countWords text <= length text)%nat.
Proof.
  unfold countWords, split_ws.
  etransitivity; [apply nonempty_pieces_bound |].
  - intros piece. apply nonempty_true.
  - etransitivity; [apply split_runs_total_length | simpl; lia].
Qed.

(** The same two facts for the split on blank lines; the characters that a
    separator takes are white space. *)
Lemma blank_line_end_spaces (s : list ascii) (n : nat) :
  blank_line_end s = Some n ->
  (n <= length s)%nat /\ forallb is_space (firstn n s) = true.
Proof.
  revert n. induction s as [| x s IH]; simpl; intros n H; [discriminate |].
  destruct (is_space x) eqn:E; [| discriminate].
  destruct (blank_line_end s) as [m |].
  - injection H as <-. destruct (IH m eq_refl) as [A B].
    split; [lia |]. simpl. now rewrite E, B.
  - destruct (is_newline x); [| discriminate]. injection H as <-.
    split; [lia |]. simpl. now rewrite E.
Qed.

Lemma split_blank_lines_keeps (c : ascii) :
  forall (s cur : list ascii) (skip : nat),
    is_space c = false ->
    forallb is_space (firstn skip s) = true ->
    In c s \/ In c cur ->
    exists piece, In piece (split_blank_lines s cur skip) /\ In c piece.
Proof.
  induction s as [| x s IH]; intros cur skip Hc Hs H.
  - simpl. destruct H as [[] | H]. exists (rev cur).
    split; [now left | now apply -> in_rev].
  - destruct skip as [| k].
    + simpl. destruct (is_newline x) eqn:N.
      * assert (X : is_space x = true).
        { unfold is_newline in N. apply N.eqb_eq in N.
          unfold is_space. rewrite N. reflexivity. }
        destruct (blank_line_end s) as [n |] eqn:B.
        -- destruct (blank_line_end_spaces s n B) as [_ F].
           destruct H as [[-> | H] | H]; try congruence.
           ++ destruct (IH [] n Hc F (or_introl H)) as [p [A1 A2]].
              exists p. split; [now right | exact A2].
           ++ exists (rev cur). split; [now left | now apply -> in_rev].
        -- apply (IH (x :: cur) 0%nat Hc); [reflexivity |].
           destruct H as [[-> | H] | H];
             [right; now left | now left | right; now right].
      * apply (IH (x :: cur) 0%nat Hc); [reflexivity |].
        destruct H as [[-> | H] | H];
          [right; now left | now left | right; now right].
    + simpl in Hs. apply andb_true_iff in Hs. destruct Hs as [X Hs].
      simpl. apply (IH cur k Hc Hs).
      destruct H as [[-> | H] | H]; [congruence | now left | now right].
Qed.

Lemma split_blank_lines_total_length :
  forall (s cur : list ascii) (skip : nat),
    (length (concat (split_blank_lines s cur skip))
     <= length s + length cur)%nat.
Proof.
  induction s as [| x s IH]; intros cur skip; simpl.
  - rewrite app_nil_r, length_rev. lia.
  - destruct skip as [| k].
    + destruct (is_newline x).
      * destruct (blank_line_end s) as [n |].
        -- simpl. rewrite length_app, length_rev.
           specialize (IH [] n). simpl in IH. lia.
        -- specialize (IH (x :: cur) 0%nat). simpl in IH. lia.
      * specialize (IH (x :: cur) 0%nat). simpl in IH. lia.
    + specialize (IH cur k). lia.
Qed.

(** X8: a blank content (empty or white space only) gives the all-zero
    record; any other content has at least one word and one paragraph, and
    none of the word, sentence and paragraph counts exceeds the character
    count, which is itself at most the length of the content. *)
Theorem wordStats_counts (content : list ascii) :
  let stats := calculateWordStats content in
  (trim content = [] ->
   words stats = 0%nat /\ characters stats = 0%nat /\
   sentences stats = 0%nat /\ paragraphs stats = 0%nat /\
   readingTime stats = 0%Q) /\
  (trim content <> [] ->
   (1 <= words stats <= characters stats)%nat /\
   (sentences stats <= characters stats)%nat /\
   (1 <= paragraphs stats <= characters stats)%nat /\
   (characters stats <= length content)%nat).
Proof.
  cbv zeta. unfold calculateWordStats. split; intros H.
  - rewrite H. simpl. repeat split.
  - apply nonempty_true in H as Hn. rewrite Hn.
    cbn [negb words characters sentences paragraphs].
    destruct (trim_has_ink content H) as [c [Hin Hc]].
    repeat split.
    + now apply (countWords_pos _ c).
    + apply countWords_le_length.
    + unfold split_sentences.
      etransitivity; [apply nonempty_pieces_bound |].
      * intros piece. apply nonblank_nonempty.
      * etransitivity; [apply split_runs_total_length | simpl; lia].
    + destruct (split_blank_lines_keeps c (trim content) [] 0 Hc eq_refl
                  (or_introl Hin)) as [piece [A B]].
      apply (filter_has _ _ piece A). now apply (nonblank_of_ink _ c).
    + etransitivity; [apply nonempty_pieces_bound |].
      * intros piece. apply nonblank_nonempty.
      * etransitivity; [apply split_blank_lines_total_length | simpl; lia].
    + apply trim_length.
Qed.

Lemma wordStats_counts_witness :
  words (calculateWordStats (lit "  ")) = 0%nat /\
  (1 <= words (calculateWordStats (lit " Hi there. ")) <= 9)%nat.
Proof.
  destruct (wordStats_counts (lit "  ")) as [A _].
  destruct (wordStats_counts (lit " Hi there. ")) as [_ B].
  split.
  - apply A. reflexivity.
  - destruct B as [[B1 B2] _]; [discriminate |].
    split; [exact B1 |]. etransitivity; [exact B2 | vm_compute; lia].
Defined.

(** ** SyllableCounter: totals *)

Lemma countWordSyllables_zero_iff (word : list ascii) :
  countWordSyllables word = 0%nat <-> filter is_lower word = [].
Proof.
  unfold countWordSyllables.
  assert (L : length (toLowerCase (filter is_lower word))
              = length (filter is_lower word)) by apply length_map.
  destruct (length (toLowerCase (filter is_lower word)) =? 0)%nat eqn:E0.
  - apply Nat.eqb_eq in E0. split; [| reflexivity].
    intros _. destruct (filter is_lower word); [reflexivity |].
    simpl in *. lia.
  - apply Nat.eqb_neq in E0.
    destruct (length (toLowerCase (filter is_lower word)) <=? 3)%nat;
      (split; [lia |]); intros H; rewrite H in *; simpl in *; lia.
Qed.

Lemma code_ascii_of_N (n : N) : (n < 256)%N -> code (ascii_of_N n) = n.
Proof.
  intros H. unfold code. now apply N_ascii_embedding.
Qed.

Lemma code_bound (c : ascii) : (code c < 256)%N.
Proof.
  unfold code. apply N_ascii_bounded.
Qed.

Lemma is_lower_lower_char (c : ascii) :
  is_lower (lower_char c) = is_lower c || is_upper c.
Proof.
  pose proof (code_bound c) as B.
  unfold lower_char.
  destruct (is_upper c) eqn:U.
  - cbn [orb]. unfold is_upper, in_range in U.
    apply andb_true_iff in U. destruct U as [U1 U2].
    apply N.leb_le in U1. apply N.leb_le in U2.
    unfold is_lower, in_range. rewrite code_ascii_of_N by lia.
    replace (97 <=? code c)%N with false by (symmetry; apply N.leb_gt; lia).
    cbn [andb orb]. apply andb_true_iff.
    split; apply N.leb_le; lia.
  - cbn [orb]. rewrite orb_false_r.
    destruct (in_range 192 222 c && negb (code c =? 215)%N) eqn:L;
      [| reflexivity].
    apply andb_true_iff in L. destruct L as [L _].
    unfold in_range in L. apply andb_true_iff in L. destruct L as [L1 L2].
    apply N.leb_le in L1. apply N.leb_le in L2.
    unfold is_lower, in_range. rewrite code_ascii_of_N by lia.
    replace (code c + 32 <=? 122)%N with false
      by (symmetry; apply N.leb_gt; lia).
    replace (code c <=? 122)%N with false
      by (symmetry; apply N.leb_gt; lia).
    now rewrite !andb_false_r.
Qed.

Lemma lower_not_space (c : ascii) : is_lower c = true -> is_space c = false.
Proof.
  unfold is_lower, in_range, is_space. intros H.
  apply andb_true_iff in H. destruct H as [H1 H2].
  apply N.leb_le in H1. apply N.leb_le in H2.
  cbn [existsb].
  repeat match goal with
         | |- context [(code c =? ?k)%N] =>
             replace (code c =? k)%N with false
               by (symmetry; apply N.eqb_neq; lia)
         end.
  reflexivity.
Qed.

Lemma split_runs_incl (sep : ascii -> bool) (c : ascii) :
  forall (s cur : list ascii) (in_run : bool) (piece : list ascii),
    In piece (split_runs sep s cur in_run) -> In c piece ->
    In c s \/ In c cur.
Proof.
  induction s as [| x s IH]; intros cur in_run piece Hp Hc; simpl in Hp.
  - destruct Hp as [<- | []]. right. now apply in_rev.
  - destruct (sep x).
    + destruct in_run.
      * destruct (IH _ _ _ Hp Hc); [left; now right | now right].
      * destruct Hp as [<- | Hp]; [right; now apply in_rev |].
        destruct (IH _ _ _ Hp Hc) as [H | []]. left. now right.
    + destruct (IH _ _ _ Hp Hc) as [H | [<- | H]];
        [left; now right | left; now left | now right].
Qed.

Lemma fold_sum (f : list ascii -> nat) (l : list (list ascii)) :
  forall a : nat,
    fold_left (fun acc w => (acc + f w)%nat) l a
    = (a + list_sum (map f l))%nat.
Proof.
  induction l as [| w l IH]; intros a; simpl; [lia |].
  rewrite IH. lia.
Qed.

Lemma fold_count (p : list ascii -> bool) (l : list (list ascii)) :
  forall a : nat,
    fold_left (fun acc w => if p w then S acc else acc) l a
    = (a + length (filter p l))%nat.
Proof.
  induction l as [| w l IH]; intros a; simpl; [lia |].
  rewrite IH. destruct (p w); simpl; lia.
Qed.

Lemma list_sum_zero (f : list ascii -> nat) (l : list (list ascii)) :
  list_sum (map f l) = 0%nat <-> forall w, In w l -> f w = 0%nat.
Proof.
  induction l as [| x l IH]; simpl.
  - split; [intros _ w [] | reflexivity].
  - split.
    + intros H w [<- | Hw]; [lia |]. apply IH; [lia | exact Hw].
    + intros H. rewrite (H x (or_introl eq_refl)).
      simpl. apply IH. intros w Hw. apply H. now right.
Qed.

Lemma three_per_polysyllable (f : list ascii -> nat) (l : list (list ascii)) :
  (3 * length (filter (fun w => 3 <=? f w) l) <= list_sum (map f l))%nat.
Proof.
  induction l as [| w l IH]; [simpl; lia |].
  cbn [map filter].
  change (list_sum (f w :: map f l)) with (f w + list_sum (map f l))%nat.
  destruct (3 <=? f w)%nat eqn:E; cbn [length];
    [apply Nat.leb_le in E |]; lia.
Qed.


(** ** ReadabilityScorer: divisions and ranges *)

Lemma Math_max_ge_l (a b : Q) : (a <= Math_max a b)%Q.
Proof.
  unfold Math_max. destruct (Qleb a b) eqn:E.
  - now apply Qleb_true in E.
  - apply Qle_refl.
Qed.

Lemma Math_max_le (a b c : Q) :
  (a <= c)%Q -> (b <= c)%Q -> (Math_max a b <= c)%Q.
Proof.
  intros Ha Hb. unfold Math_max. now destruct (Qleb a b).
Qed.

Lemma Math_min_le_l (a b : Q) : (Math_min a b <= a)%Q.
Proof.
  unfold Math_min. destruct (Qleb a b) eqn:E.
  - apply Qle_refl.
  - apply Qleb_false in E. now apply Qlt_le_weak.
Qed.

Lemma round_tenth_bounds (lo hi : Z) (x : Q) :
  (inject_Z lo <= x)%Q -> (x <= inject_Z hi)%Q ->
  (inject_Z lo <= inject_Z (Math_round (x * 10)) / 10)%Q /\
  (inject_Z (Math_round (x * 10)) / 10 <= inject_Z hi)%Q.
Proof.
  intros L U.
  assert (A : lo * 10 <= Math_round (x * 10)).
  { rewrite <- (Math_round_inject_Z (lo * 10)). apply Math_round_monotone.
    rewrite inject_Z_mult.
    apply Qmult_le_compat_r; [exact L | unfold Qle; simpl; lia]. }
  assert (B : Math_round (x * 10) <= hi * 10).
  { rewrite <- (Math_round_inject_Z (hi * 10)). apply Math_round_monotone.
    rewrite inject_Z_mult.
    apply Qmult_le_compat_r; [exact U | unfold Qle; simpl; lia]. }
  rewrite Zle_Qle in A, B. rewrite inject_Z_mult in A, B.
  change (inject_Z 10) with 10%Q in *.
  split.
  - apply Qle_shift_div_l; [reflexivity | exact A].
  - apply Qle_shift_div_r; [reflexivity | exact B].
Qed.

Lemma Qnat_nonzero (n : nat) : n <> 0%nat -> ~ (Qnat n == 0)%Q.
Proof.
  intros H E. unfold Qnat, Qeq in E. simpl in E. lia.
Qed.

(** X10: the readability computation never divides by zero, whatever the
    content; the Flesch Reading Ease it returns lies in [[0, 100]] and the
    Flesch-Kincaid grade is never negative; the SMOG index is never
    negative when the square root is not. *)
Theorem readability_safe_and_bounded (Math_sqrt : Q -> Q)
    (content : list ascii) :
  let r := fst (calculateReadabilityScores Math_sqrt content) in
  let divisions := snd (calculateReadabilityScores Math_sqrt content) in
  Forall (fun nd : Q * Q => ~ (snd nd == 0)%Q) divisions /\
  (0 <= fleschEase r)%Q /\ (fleschEase r <= 100)%Q /\
  (0 <= fleschKincaid r)%Q /\
  ((forall x : Q, (0 <= Math_sqrt x)%Q) -> (0 <= smogIndex r)%Q).
Proof.
  cbv zeta. unfold calculateReadabilityScores.
  destruct (words (calculateWordStats content)) as [| w] eqn:Ew.
  { simpl. repeat split; try constructor; try discriminate; intros; apply Qle_refl. }
  destruct (sentences (calculateWordStats content)) as [| s] eqn:Es.
  { simpl. repeat split; try constructor; try discriminate; intros; apply Qle_refl. }
  cbn [Nat.eqb orb].
  destruct (countSyllables content =? 0)%nat.
  { simpl. repeat split; try constructor; try discriminate; intros; apply Qle_refl. }
  change (0 <? S s)%nat with true. change (0 <? S w)%nat with true.
  change (0 <=? countPolysyllabicWords content)%nat with true.
  rewrite andb_true_r. cbv iota.
  assert (N10 : ~ (10 == 0)%Q) by discriminate.
  assert (Ns : ~ (Qnat (S s) == 0)%Q) by (apply Qnat_nonzero; discriminate).
  assert (Nw : ~ (Qnat (S w) == 0)%Q) by (apply Qnat_nonzero; discriminate).
  assert (Rsm : forall x : Q, (0 <= x)%Q ->
                              (0 <= inject_Z (Math_round (x * 10)) / 10)%Q).
  { intros x Hx. apply Qle_shift_div_l; [reflexivity |]. rewrite Qmult_0_l.
    change 0%Q with (inject_Z 0). rewrite <- Zle_Qle.
    apply Math_round_nonneg.
    apply Qmult_le_0_compat; [exact Hx | discriminate]. }
  assert (Sm : forall x : Q, (forall y : Q, (0 <= Math_sqrt y)%Q) ->
                             (0 <= 1.043 * Math_sqrt x + 3.1291)%Q).
  { intros x H. specialize (H x).
    assert (M : (0 <= 1.043 * Math_sqrt x)%Q)
      by (apply Qmult_le_0_compat; [discriminate | exact H]).
    lra. }
  destruct (30 <=? S s)%nat; unfold bind, divide, ret; cbn beta iota;
    cbn [fst snd app fleschEase fleschKincaid smogIndex];
    match goal with
    | |- context [Math_max 0 (Math_min 100 ?x)] =>
        set (fe := Math_max 0 (Math_min 100 x))
    end;
    match goal with
    | |- context [Math_max 0 ?x] => set (fk := Math_max 0 x)
    end;
    (assert (Hfe : (inject_Z 0 <= fe)%Q /\ (fe <= inject_Z 100)%Q)
      by (split; [apply Math_max_ge_l |];
          apply Math_max_le; [discriminate | apply Math_min_le_l]));
    (assert (Hfk : (0 <= fk)%Q) by apply Math_max_ge_l);
    destruct (round_tenth_bounds 0 100 fe (proj1 Hfe) (proj2 Hfe))
      as [F1 F2];
    (split; [repeat constructor; cbn [snd]; assumption |]);
    (split; [exact F1 |]); (split; [exact F2 |]);
    (split; [now apply Rsm |]);
    intros H; apply Rsm.
  - destruct (Qleb 0 _); [now apply Sm | apply Qle_refl].
  - now apply Sm.
Qed.

Lemma sqrt15_nonneg (x : Q) : (0 <= sqrt15 x)%Q.
Proof.
  unfold sqrt15. apply Qle_shift_div_l; [reflexivity |].
  rewrite Qmult_0_l. change 0%Q with (inject_Z 0). rewrite <- Zle_Qle.
  apply Z.sqrt_nonneg.
Qed.

Lemma readability_safe_and_bounded_witness :
  (0 <= smogIndex
          (fst (calculateReadabilityScores sqrt15
                  (lit "Hello world. This is a simple test."))))%Q.
Proof.
  apply (readability_safe_and_bounded sqrt15
           (lit "Hello world. This is a simple test.")).
  exact sqrt15_nonneg.
Defined.

(** ** KeywordAnalyzer: top keywords *)

Lemma text_eqb_eq (a b : list ascii) : text_eqb a b = true <-> a = b.
Proof.
  unfold text_eqb. destruct (list_eq_dec ascii_dec a b); split; congruence.
Qed.

Lemma text_eqb_refl (a : list ascii) : text_eqb a a = true.
Proof. now apply text_eqb_eq. Qed.

Lemma text_eqb_neq (a b : list ascii) : text_eqb a b = false <-> a <> b.
Proof.
  unfold text_eqb. destruct (list_eq_dec ascii_dec a b); split; congruence.
Qed.

Lemma countIn_bump (w k : list ascii) (acc : list (list ascii * nat)) :
  countIn k (bump w acc)
  = (countIn k acc + if text_eqb w k then 1 else 0)%nat.
Proof.
  induction acc as [| [k' n] acc IH]; simpl.
  - destruct (text_eqb w k); lia.
  - destruct (text_eqb k' w) eqn:E; simpl.
    + apply text_eqb_eq in E. subst k'.
      destruct (text_eqb w k); lia.
    + destruct (text_eqb k' k) eqn:E'; [| exact IH].
      apply text_eqb_eq in E'. subst k'. apply text_eqb_neq in E.
      replace (text_eqb w k) with false; [lia |].
      symmetry. apply text_eqb_neq. congruence.
Qed.

Lemma keys_bump (w : list ascii) (acc : list (list ascii * nat)) :
  map fst (bump w acc)
  = if existsb (text_eqb w) (map fst acc) then map fst acc
    else map fst acc ++ [w].
Proof.
  induction acc as [| [k' n] acc IH]; simpl; [reflexivity |].
  destruct (text_eqb k' w) eqn:E; simpl.
  - apply text_eqb_eq in E. subst k'. now rewrite text_eqb_refl.
  - replace (text_eqb w k') with false.
    2:{ symmetry. apply text_eqb_neq. apply text_eqb_neq in E. congruence. }
    simpl. rewrite IH. now destruct (existsb _ _).
Qed.

Lemma countIn_of_entry (acc : list (list ascii * nat)) (k : list ascii)
    (n : nat) :
  NoDup (map fst acc) -> In (k, n) acc -> countIn k acc = n.
Proof.
  induction acc as [| [k' m] acc IH]; simpl; intros N H; [contradiction |].
  inversion N as [| ? ? Hn N']; subst.
  destruct H as [H | H].
  - injection H as -> ->. now rewrite text_eqb_refl.
  - destruct (text_eqb k' k) eqn:E; [| now apply IH].
    apply text_eqb_eq in E. subst k'. exfalso. apply Hn.
    now apply (in_map fst) in H.
Qed.

(** The table that [extractTopKeywords] builds: its keys are distinct
    counted words, and each holds the number of occurrences so far, which is
    at least 1. *)
Lemma wordCounts_invariant (words : list (list ascii)) :
  forall (acc : list (list ascii * nat)) (seen : list (list ascii)),
    NoDup (map fst acc) ->
    (forall k, In k (map fst acc) ->
               counted k = true /\ (1 <= countIn k acc)%nat) ->
    (forall k, counted k = true -> countIn k acc = occurrences k seen) ->
    let acc' :=
      fold_left (fun wordCounts word =>
                   let cleanWord := cleanWordOf word in
                   if counted cleanWord then bump cleanWord wordCounts
                   else wordCounts) words acc in
    NoDup (map fst acc') /\
    (forall k, In k (map fst acc') ->
               counted k = true /\ (1 <= countIn k acc')%nat) /\
    (forall k, counted k = true ->
               countIn k acc' = occurrences k (seen ++ words)).
Proof.
  induction words as [| w words IH]; intros acc seen N C O.
  - simpl. rewrite app_nil_r. auto.
  - cbn [fold_left]. cbv zeta.
    replace (seen ++ w :: words) with ((seen ++ [w]) ++ words)
      by (now rewrite <- app_assoc).
    apply IH.
    + destruct (counted (cleanWordOf w)); [| exact N].
      rewrite keys_bump.
      destruct (existsb _ _) eqn:E; [exact N |].
      apply NoDup_app; [exact N | repeat constructor; intros [] |].
      intros k Hk [<- | []].
      assert (X : existsb (text_eqb (cleanWordOf w)) (map fst acc) = true).
      { apply existsb_exists. exists (cleanWordOf w).
        split; [exact Hk | apply text_eqb_refl]. }
      congruence.
    + destruct (counted (cleanWordOf w)) eqn:E; [| exact C].
      intros k Hk. rewrite countIn_bump. rewrite keys_bump in Hk.
      destruct (existsb _ _).
      * destruct (C k Hk) as [C1 C2]. split; [exact C1 | lia].
      * apply in_app_or in Hk. destruct Hk as [Hk | [<- | []]].
        -- destruct (C k Hk) as [C1 C2]. split; [exact C1 | lia].
        -- rewrite text_eqb_refl. split; [exact E | lia].
    + intros k Hk. unfold occurrences. rewrite filter_app, length_app.
      fold (occurrences k seen). rewrite <- (O k Hk). cbn [filter].
      destruct (counted (cleanWordOf w)) eqn:E.
      * rewrite countIn_bump. now destruct (text_eqb (cleanWordOf w) k).
      * destruct (text_eqb (cleanWordOf w) k) eqn:E'; [| simpl; lia].
        apply text_eqb_eq in E'. congruence.
Qed.

Lemma insert_desc_perm (x : list ascii * nat) (l : list (list ascii * nat)) :
  Permutation (x :: l) (insert_desc x l).
Proof.
  induction l as [| y l IH]; simpl; [reflexivity |].
  destruct (snd x <? snd y)%nat; [| reflexivity].
  rewrite perm_swap. now constructor.
Qed.

Lemma sort_desc_perm (l : list (list ascii * nat)) :
  Permutation l (sort_desc l).
Proof.
  induction l as [| x l IH]; simpl; [constructor |].
  rewrite <- insert_desc_perm. now constructor.
Qed.

Lemma insert_desc_sorted (x : list ascii * nat)
    (l : list (list ascii * nat)) :
  StronglySorted (fun a b => (snd b <= snd a)%nat) l ->
  StronglySorted (fun a b => (snd b <= snd a)%nat) (insert_desc x l).
Proof.
  induction 1 as [| y l S IH F]; simpl; [repeat constructor |].
  destruct (snd x <? snd y)%nat eqn:E.
  - apply Nat.ltb_lt in E. constructor; [exact IH |].
    apply (Permutation_Forall (insert_desc_perm x l)).
    constructor; [lia | exact F].
  - apply Nat.ltb_ge in E. constructor; [now constructor |].
    constructor; [exact E |].
    eapply Forall_impl; [| exact F]. intros a Ha. simpl in *. lia.
Qed.

Lemma sort_desc_sorted (l : list (list ascii * nat)) :
  StronglySorted (fun a b => (snd b <= snd a)%nat) (sort_desc l).
Proof.
  induction l as [| x l IH]; simpl; [constructor |].
  now apply insert_desc_sorted.
Qed.

Lemma firstn_sorted {A : Type} (R : A -> A -> Prop) (n : nat) (l : list A) :
  StronglySorted R l -> StronglySorted R (firstn n l).
Proof.
  revert n. induction l as [| x l IH]; intros n S.
  - now rewrite firstn_nil.
  - destruct n as [| n]; [constructor |]. simpl.
    inversion S as [| ? ? S' F]; subst. constructor; [now apply IH |].
    apply Forall_forall. intros y Hy.
    rewrite Forall_forall in F. apply F.
    rewrite <- (firstn_skipn n l). apply in_or_app. now left.
Qed.

Lemma firstn_NoDup {A : Type} (n : nat) (l : list A) :
  NoDup l -> NoDup (firstn n l).
Proof.
  intros N. rewrite <- (firstn_skipn n l) in N.
  now apply NoDup_app_remove_r in N.
Qed.

Lemma firstn_In {A : Type} (n : nat) (l : list A) (x : A) :
  In x (firstn n l) -> In x l.
Proof.
  intros H. rewrite <- (firstn_skipn n l). apply in_or_app. now left.
Qed.

Lemma extractTopKeywords_properties (words : list (list ascii))
    (top : list KeywordEntry) :
  extractTopKeywords words = Some top ->
  (length top <= 10)%nat /\
  StronglySorted (fun a b => (count b <= count a)%nat) top /\
  NoDup (map word top) /\
  Forall (fun e => counted (word e) = true /\
                   count e = occurrences (word e) words /\
                   (1 <= count e)%nat) top.
Proof.
  unfold extractTopKeywords.
  destruct (existsb _ words); [discriminate |].
  set (table := fold_left _ words []).
  set (f := fun '(word, count) => {| word := word; count := count;
                                     density := _ |}).
  intros H.
  assert (E : top = map f (firstn 10 (sort_desc table))) by congruence.
  subst top. clear H.
  destruct (wordCounts_invariant words [] []) as [N [C O]];
    [constructor | intros k [] | reflexivity |].
  cbv zeta in N, C, O. fold table in N, C, O. cbn [app] in O.
  assert (Fw : forall x, word (f x) = fst x) by (intros [k n]; reflexivity).
  assert (Fc : forall x, count (f x) = snd x) by (intros [k n]; reflexivity).
  pose proof (sort_desc_perm table) as P.
  assert (N' : NoDup (map fst (sort_desc table)))
    by (eapply Permutation_NoDup; [apply Permutation_map; exact P | exact N]).
  split; [rewrite length_map, length_firstn; lia |].
  split.
  - assert (S := firstn_sorted _ 10 _ (sort_desc_sorted table)).
    induction S as [| x l S IH F]; simpl; constructor; [exact IH |].
    apply Forall_forall. intros e He. apply in_map_iff in He.
    destruct He as [y [<- Hy]]. rewrite !Fc.
    rewrite Forall_forall in F. now apply F.
  - split.
    + rewrite map_map. erewrite map_ext; [| exact Fw].
      rewrite <- firstn_map. now apply firstn_NoDup.
    + apply Forall_forall. intros e He. apply in_map_iff in He.
      destruct He as [[k n] [<- Hy]]. unfold f. cbn [word count].
      apply firstn_In in Hy.
      apply (Permutation_in _ (Permutation_sym P)) in Hy.
      assert (K : In k (map fst table)) by (now apply (in_map fst) in Hy).
      destruct (C k K) as [C1 C2].
      rewrite <- (O k C1), (countIn_of_entry table k n N Hy) in *.
      auto.
Qed.



(** ** KeywordAnalyzer: semantic keywords *)

Lemma includes_app (pre s suf : list ascii) :
  includes (pre ++ s ++ suf) s = true.
Proof.
  assert (P : forall a b : list ascii, startsWith a (a ++ b) = true).
  { induction a as [| x a IH]; intros b; simpl; [reflexivity |].
    now rewrite Ascii.eqb_refl, IH. }
  assert (U : forall t p : list ascii,
             includes t p
             = startsWith p t
               || match t with
                  | [] => false
                  | _ :: t' => includes t' p
                  end)
    by (intros [| c t] p; reflexivity).
  induction pre as [| x pre IH].
  - cbn [app]. now rewrite U, P.
  - rewrite U. cbn [app]. rewrite IH. apply orb_true_r.
Qed.

(** X12: the semantic keywords are at most 5; there are none when the
    target keyword is blank; each one occurs in the lowercased content and
    is the lowercased target keyword with a non-empty prefix or suffix
    added. *)
Theorem semanticKeywords_properties (this : Analyzer) :
  let found := extractSemanticKeywords this in
  let keyword := toLowerCase (targetKeyword this) in
  (length found <= 5)%nat /\
  (nonempty (trim (targetKeyword this)) = false -> found = []) /\
  Forall (fun term =>
            includes (toLowerCase (content this)) term = true /\
            includes term keyword = true /\
            (length keyword < length term)%nat)
         found.
Proof.
  cbv zeta. unfold extractSemanticKeywords.
  split; [rewrite length_firstn; lia |].
  split; [intros ->; reflexivity |].
  apply Forall_forall. intros term H. apply firstn_In in H.
  destruct (nonempty (trim (targetKeyword this))); [| contradiction].
  apply filter_In in H. destruct H as [H F].
  apply andb_true_iff in F. destruct F as [F _].
  split; [exact F |].
  set (k := toLowerCase (targetKeyword this)) in *.
  assert (A : forall suf, includes (k ++ suf) k = true)
    by (intros suf; apply (includes_app [] k suf)).
  assert (B : forall pre, includes (pre ++ k) k = true).
  { intros pre. rewrite <- (app_nil_r k) at 1. apply includes_app. }
  cbn [In] in H.
  repeat (destruct H as [<- | H]; [split; [auto |]; rewrite length_app;
                                   simpl; lia |]).
  contradiction.
Qed.

Lemma semanticKeywords_properties_witness :
  extractSemanticKeywords
    {| content := lit "Tea"; targetKeyword := lit "  ";
       metaDescription := []; analysisResults := None |} = [].
Proof.
  apply (semanticKeywords_properties
           {| content := lit "Tea"; targetKeyword := lit "  ";
              metaDescription := []; analysisResults := None |}).
  reflexivity.
Defined.

(** ** CompositeScorer: ranges *)

Ltac if_bounds :=
  repeat match goal with
         | |- context [if ?c then _ else _] => destruct c
         end;
  lia.

Lemma contentQualityPoints_range (ws : WordStats) (ka : KeywordAnalysis) :
  (length (semanticKeywords ka) <= 5)%nat ->
  3 <= contentQualityPoints ws ka <= 95.
Proof.
  intros H. unfold contentQualityPoints. cbv zeta.
  match goal with
  | |- _ <= ?a + ?b + ?c + ?d + ?e <= _ =>
      assert (Ha : 0 <= a <= 25) by if_bounds;
      assert (Hb : 0 <= b <= 30) by if_bounds;
      assert (Hc : 0 <= c <= 15)
        by (destruct (10 <=? length (semanticKeywords ka))%nat eqn:E;
            [apply Nat.leb_le in E; lia | if_bounds]);
      assert (Hd : 0 <= d <= 15) by if_bounds;
      assert (He : 3 <= e <= 10) by if_bounds;
      lia
  end.
Qed.

Lemma depth_points_range (n : nat) :
  (n <= 6)%nat -> 0 <= Math_round (Qnat n / Qnat 6 * 30)%Q <= 30.
Proof.
  intros H. split.
  - apply Math_round_nonneg.
    apply Qmult_le_0_compat; [| discriminate].
    apply Qle_shift_div_l; [reflexivity |].
    rewrite Qmult_0_l. apply Qnat_nonneg.
  - rewrite <- (Math_round_inject_Z 30) at 2. apply Math_round_monotone.
    assert (L : (Qnat n <= Qnat 6)%Q) by now apply Qnat_le.
    assert (D : (Qnat n / Qnat 6 <= 1)%Q).
    { apply Qle_shift_div_r; [reflexivity |]. now rewrite Qmult_1_l. }
    change (inject_Z 30) with (1 * 30)%Q.
    apply Qmult_le_compat_r; [exact D | discriminate].
Qed.

Lemma technicalSEOPoints_range (this : Analyzer) (hs : HeadingStructure)
    (ka : KeywordAnalysis) :
  (multipleH1 hs = true -> hasH1 hs = true) ->
  10 <= technicalSEOPoints this hs ka <= 105.
Proof.
  intros H. unfold technicalSEOPoints. cbv zeta.
  match goal with
  | |- _ <= ?a + ?b + ?c + ?d + Math_round ?e <= _ =>
      assert (Hab : 10 <= a + b <= 35)
        by (destruct (hasH1 hs), (multipleH1 hs);
            try (specialize (H eq_refl); discriminate);
            cbn [negb]; if_bounds);
      assert (Hc : 0 <= c <= 10) by if_bounds;
      assert (Hd : 0 <= d <= 30) by if_bounds;
      assert (He : 0 <= Math_round e <= 30)
  end.
  { apply depth_points_range.
    etransitivity; [apply filter_length_le | simpl; lia]. }
  lia.
Qed.

Lemma readabilityPoints_range (rs : ReadabilityScores) :
  30 <= readabilityPoints rs <= 100.
Proof.
  unfold readabilityPoints. cbv zeta.
  match goal with
  | |- _ <= ?a + ?b + ?c <= _ =>
      assert (Ha : 15 <= a <= 40) by if_bounds;
      assert (Hb : 5 <= b <= 30) by if_bounds;
      assert (Hc : 10 <= c <= 30) by if_bounds;
      lia
  end.
Qed.

Lemma userExperiencePoints_range (ws : WordStats) :
  5 <= userExperiencePoints ws <= 100.
Proof.
  unfold userExperiencePoints. cbv zeta.
  match goal with
  | |- _ <= ?a + ?b + ?c <= _ =>
      assert (Ha : 0 <= a <= 50) by if_bounds;
      assert (Hb : 0 <= b <= 30) by if_bounds;
      assert (Hc : 5 <= c <= 20) by if_bounds;
      lia
  end.
Qed.

Lemma weighted_monotone (a b c d a' b' c' d' : Z) :
  a <= a' -> b <= b' -> c <= c' -> d <= d' ->
  (weighted a b c d <= weighted a' b' c' d')%Q.
Proof.
  intros Ha Hb Hc Hd. unfold weighted.
  rewrite Zle_Qle in Ha, Hb, Hc, Hd. lra.
Qed.

Lemma calculateSEOScore_ranges (this : Analyzer) (ws : WordStats)
    (rs : ReadabilityScores) (ka : KeywordAnalysis) (hs : HeadingStructure) :
  (length (semanticKeywords ka) <= 5)%nat ->
  (multipleH1 hs = true -> hasH1 hs = true) ->
  let s := calculateSEOScore this ws rs ka hs in
  3 <= contentQuality s <= 95 /\
  10 <= technicalSEO s <= 100 /\
  30 <= readability s <= 100 /\
  5 <= userExperience s <= 100 /\
  11 <= overall s <= 98.
Proof.
  intros Hk Hh. cbv zeta. unfold calculateSEOScore.
  cbn [overall contentQuality technicalSEO readability userExperience].
  rewrite !Math_round_inject_Z.
  unfold calculateContentQualityScore, calculateTechnicalSEOScore,
    calculateReadabilityScore, calculateUserExperienceScore.
  pose proof (contentQualityPoints_range ws ka Hk) as A.
  pose proof (technicalSEOPoints_range this hs ka Hh) as B.
  pose proof (readabilityPoints_range rs) as C.
  pose proof (userExperiencePoints_range ws) as D.
  set (cq := Z.min 100 (contentQualityPoints ws ka)).
  set (te := Z.min 100 (technicalSEOPoints this hs ka)).
  set (re := Z.min 100 (readabilityPoints rs)).
  set (ux := Z.min 100 (userExperiencePoints ws)).
  assert (A' : 3 <= cq <= 95) by (unfold cq; lia).
  assert (B' : 10 <= te <= 100) by (unfold te; lia).
  assert (C' : 30 <= re <= 100) by (unfold re; lia).
  assert (D' : 5 <= ux <= 100) by (unfold ux; lia).
  repeat (split; [lia |]).
  assert (L : 11 <= Math_round (weighted cq te re ux)).
  { change 11 with (Math_round (weighted 3 10 30 5)).
    apply Math_round_monotone. apply weighted_monotone; lia. }
  assert (U : Math_round (weighted cq te re ux) <= 98).
  { change 98 with (Math_round (weighted 95 100 100 100)).
    apply Math_round_monotone. apply weighted_monotone; lia. }
  clearbody cq te re ux. revert L U.
  generalize (Math_round (weighted cq te re ux)). intros z L U. lia.
Qed.

Lemma semanticKeywords_bound_aux (this : Analyzer) :
  (length (extractSemanticKeywords this) <= 5)%nat.
Proof.
  unfold extractSemanticKeywords. rewrite length_firstn. lia.
Qed.

Lemma analyzeKeywords_semantic_bound (this : Analyzer) (ka : KeywordAnalysis) :
  analyzeKeywords this = Some ka ->
  (length (semanticKeywords ka) <= 5)%nat.
Proof.
  unfold analyzeKeywords.
  destruct (negb (nonempty (trim (content this)))).
  - intros H. injection H as <-. simpl. lia.
  - destruct (if nonempty (trim (targetKeyword this)) then _ else _)
      as [[[c d] st] |]; [| discriminate].
    destruct (extractTopKeywords _) as [top |]; [| discriminate].
    intros H. injection H as <-. cbn [semanticKeywords].
    apply (semanticKeywords_bound_aux this).
Qed.

Lemma multipleH1_hasH1 (content : list ascii) :
  multipleH1 (analyzeHeadingStructure content) = true ->
  hasH1 (analyzeHeadingStructure content) = true.
Proof.
  destruct (analyzeHeadingStructure_fields content)
    as [_ [_ [_ [_ [H1 [H2 _]]]]]].
  cbv zeta in *. rewrite H1, H2. intros H.
  apply Nat.ltb_lt in H. apply Nat.ltb_lt. lia.
Qed.



(** ** The pattern matcher: matches in full *)

Lemma last_of_app (prev : option ascii) (a b : list ascii) :
  last_of prev (a ++ b) = last_of (last_of prev a) b.
Proof.
  unfold last_of. apply fold_left_app.
Qed.

Lemma last_of_snoc (prev : option ascii) (a : list ascii) (c : ascii) :
  last_of prev (a ++ [c]) = Some c.
Proof.
  now rewrite last_of_app.
Qed.

Lemma rep_greedy_fits (p : ascii -> bool) (lo : nat) (hi : option nat)
    (k : option ascii -> list ascii -> option match_result) :
  forall (s taken : list ascii) (prev0 : option ascii)
         (segs : list (list ascii)) (rest : list ascii),
    rep_greedy p lo hi k (last_of prev0 (rev taken)) s taken
      = Some (segs, rest) ->
    forallb p taken = true ->
    match hi with Some h => (length taken <= h)%nat | None => True end ->
    exists (seg : list ascii) (segs' : list (list ascii)) (s' : list ascii),
      segs = seg :: segs' /\
      atom_takes (Rep p lo hi) seg /\
      rev taken ++ s = seg ++ s' /\
      k (last_of prev0 seg) s' = Some (segs', rest).
Proof.
  assert (Stop : forall (s taken : list ascii) (prev0 : option ascii)
                        (segs : list (list ascii)) (rest : list ascii),
             (if (lo <=? length taken)%nat
              then took (rev taken) (k (last_of prev0 (rev taken)) s)
              else None) = Some (segs, rest) ->
             forallb p taken = true ->
             match hi with Some h => (length taken <= h)%nat | None => True end ->
             exists (seg : list ascii) (segs' : list (list ascii))
                    (s' : list ascii),
               segs = seg :: segs' /\
               atom_takes (Rep p lo hi) seg /\
               rev taken ++ s = seg ++ s' /\
               k (last_of prev0 seg) s' = Some (segs', rest)).
  { intros s taken prev0 segs rest H Hp Hh.
    destruct (lo <=? length taken)%nat eqn:E; [| discriminate].
    apply took_some in H. destruct H as [segs' [-> K]].
    exists (rev taken), segs', s. repeat split; try assumption.
    - rewrite forallb_forall in *. intros x Hx. apply Hp.
      now apply in_rev.
    - rewrite length_rev. now apply Nat.leb_le.
    - destruct hi; [now rewrite length_rev | exact I]. }
  induction s as [| c s IH]; intros taken prev0 segs rest H Hp Hh.
  - simpl in H. now apply (Stop [] taken prev0).
  - simpl in H.
    destruct (p c && below hi (length taken)) eqn:E.
    + apply andb_true_iff in E. destruct E as [Ec Eb].
      destruct (rep_greedy p lo hi k (Some c) s (c :: taken))
        as [r |] eqn:R.
      * injection H as ->.
        assert (R' : rep_greedy p lo hi k
                       (last_of prev0 (rev (c :: taken))) s (c :: taken)
                     = Some (segs, rest))
          by (simpl rev; now rewrite last_of_snoc).
        apply IH in R'.
        -- destruct R' as [seg [segs' [s' [-> [A [B K]]]]]].
           exists seg, segs', s'. repeat split; try apply A; try exact K.
           rewrite <- B. simpl. now rewrite <- app_assoc.
        -- simpl. now rewrite Ec, Hp.
        -- destruct hi as [h |]; [| exact I]. simpl in *.
           apply Nat.ltb_lt in Eb. lia.
      * now apply (Stop (c :: s) taken prev0).
    + now apply (Stop (c :: s) taken prev0).
Qed.

Lemma match_here_fits (atoms : list atom) :
  forall (prev : option ascii) (s : list ascii)
         (segs : list (list ascii)) (rest : list ascii),
    match_here atoms prev s = Some (segs, rest) ->
    fits atoms prev segs rest /\ s = concat segs ++ rest.
Proof.
  induction atoms as [| a atoms IH]; intros prev s segs rest H.
  - simpl in H. injection H as <- <-. split; [exact I | reflexivity].
  - destruct a as [p | p lo hi | | |]; simpl in H.
    + destruct s as [| c s]; [discriminate |].
      destruct (p c) eqn:E; [| discriminate].
      apply took_some in H. destruct H as [segs' [-> K]].
      apply IH in K. destruct K as [F ->].
      split; [| reflexivity].
      cbn [fits]. split; [now exists c |]. split; [exact I | exact F].
    + apply (rep_greedy_fits p lo hi (match_here atoms) s [] prev) in H;
        [| reflexivity |].
      * destruct H as [seg [segs' [s' [-> [A [B K]]]]]].
        apply IH in K. destruct K as [F ->].
        split; [| simpl in B; rewrite B; simpl; now rewrite app_assoc].
        cbn [fits]. split; [exact A |]. split; [exact I | exact F].
      * destruct hi; [simpl; lia | exact I].
    + destruct (is_break_at prev) eqn:E; [| discriminate].
      apply took_some in H. destruct H as [segs' [-> K]].
      apply IH in K. destruct K as [F ->].
      split; [| reflexivity].
      cbn [fits]. split; [reflexivity |]. split; [exact E | exact F].
    + destruct (is_break_at (hd_error s)) eqn:E; [| discriminate].
      apply took_some in H. destruct H as [segs' [-> K]].
      apply IH in K. destruct K as [F ->].
      split; [| reflexivity].
      cbn [fits]. split; [reflexivity |]. split; [exact E | exact F].
    + destruct (xorb _ _) eqn:E; [| discriminate].
      apply took_some in H. destruct H as [segs' [-> K]].
      apply IH in K. destruct K as [F ->].
      split; [| reflexivity].
      cbn [fits]. split; [reflexivity |]. split; [exact E | exact F].
Qed.

(** Every match of [matchAll] is a match in full of the pattern at its
    index: it follows the [index] characters before it. *)
Lemma matchAll_fits (atoms : list atom) (i : nat) (segs : list (list ascii)) :
  forall (s pre0 : list ascii) (skip : nat),
    In (i, segs) (matchAll atoms (last_of None pre0) s skip (length pre0)) ->
    exists pre rest : list ascii,
      pre0 ++ s = pre ++ concat segs ++ rest /\
      length pre = i /\
      fits atoms (last_of None pre) segs rest.
Proof.
  induction s as [| c s IH]; intros pre0 skip H.
  - destruct skip as [| k]; simpl in H; [| contradiction].
    destruct (match_here atoms (last_of None pre0) [])
      as [[segs0 rest0] |] eqn:M; [| contradiction].
    destruct H as [H | []]. injection H as <- <-.
    apply match_here_fits in M. destruct M as [F E].
    exists pre0, rest0. now rewrite E.
  - assert (Tail : forall k,
               In (i, segs)
                  (matchAll atoms (Some c) s k (S (length pre0))) ->
               exists pre rest : list ascii,
                 pre0 ++ c :: s = pre ++ concat segs ++ rest /\
                 length pre = i /\
                 fits atoms (last_of None pre) segs rest).
    { intros k Hk.
      replace (Some c) with (last_of None (pre0 ++ [c])) in Hk
        by apply last_of_snoc.
      replace (S (length pre0)) with (length (pre0 ++ [c])) in Hk
        by (rewrite length_app; simpl; lia).
      apply IH in Hk. destruct Hk as [pre [rest [E R]]].
      exists pre, rest. split; [| exact R].
      rewrite <- E, <- app_assoc. reflexivity. }
    destruct skip as [| k]; simpl in H.
    + destruct (match_here atoms (last_of None pre0) (c :: s))
        as [[segs0 rest0] |] eqn:M.
      * destruct H as [H | H]; [| eapply Tail; exact H].
        injection H as <- <-.
        apply match_here_fits in M. destruct M as [F E].
        exists pre0, rest0. now rewrite E.
      * now apply (Tail 0%nat).
    + now apply (Tail k).
Qed.

(** ** Characters of keyword words and of prepared text *)

Lemma in_range_true (lo hi : N) (c : ascii) :
  in_range lo hi c = true <-> (lo <= code c <= hi)%N.
Proof.
  unfold in_range. rewrite andb_true_iff, !N.leb_le. tauto.
Qed.

Lemma in_range_false (lo hi : N) (c : ascii) :
  in_range lo hi c = false <-> (code c < lo \/ hi < code c)%N.
Proof.
  unfold in_range. rewrite andb_false_iff, !N.leb_gt. tauto.
Qed.

Lemma code_inj (a b : ascii) : code a = code b -> a = b.
Proof.
  unfold code. intros H.
  rewrite <- (ascii_N_embedding a), <- (ascii_N_embedding b). now rewrite H.
Qed.

Lemma is_word_char_cases (c : ascii) :
  is_word_char c = true ->
  (97 <= code c <= 122 \/ 65 <= code c <= 90 \/ 48 <= code c <= 57
   \/ code c = 95)%N.
Proof.
  unfold is_word_char, is_lower, is_upper, is_digit.
  rewrite !orb_true_iff, !in_range_true, N.eqb_eq. tauto.
Qed.

Lemma code_canon_char (c : ascii) :
  code (canon_char c)
  = if is_lower c || (in_range 224 254 c && negb (code c =? 247)%N)
    then (code c - 32)%N else code c.
Proof.
  unfold canon_char. pose proof (code_bound c).
  destruct (is_lower c || _); [| reflexivity].
  apply code_ascii_of_N. lia.
Qed.

Lemma ci_eqb_literal (c x : ascii) :
  is_word_char c = true -> is_upper c = false -> is_upper x = false ->
  ci_eqb c x = true -> c = x.
Proof.
  intros Hw Hc Hx H. apply code_inj.
  unfold ci_eqb in H. apply Ascii.eqb_eq in H.
  apply (f_equal code) in H. rewrite !code_canon_char in H.
  apply is_word_char_cases in Hw.
  unfold is_upper in Hc, Hx. apply in_range_false in Hc, Hx.
  unfold is_lower in H.
  destruct (in_range 97 122 c) eqn:L1;
    [apply in_range_true in L1 | apply in_range_false in L1];
    destruct (in_range 224 254 c) eqn:L2;
    [apply in_range_true in L2 | apply in_range_false in L2
     | apply in_range_true in L2 | apply in_range_false in L2];
    destruct (in_range 97 122 x) eqn:L3;
    [apply in_range_true in L3 | apply in_range_false in L3
     | apply in_range_true in L3 | apply in_range_false in L3
     | apply in_range_true in L3 | apply in_range_false in L3
     | apply in_range_true in L3 | apply in_range_false in L3];
    destruct (in_range 224 254 x) eqn:L4;
    try apply in_range_true in L4; try apply in_range_false in L4;
    destruct (code c =? 247)%N eqn:E1;
    try apply N.eqb_eq in E1; try apply N.eqb_neq in E1;
    destruct (code x =? 247)%N eqn:E2;
    try apply N.eqb_eq in E2; try apply N.eqb_neq in E2;
    cbn [negb andb orb] in H; lia.
Qed.

Lemma lower_char_not_upper (c : ascii) : is_upper (lower_char c) = false.
Proof.
  pose proof (code_bound c) as B. unfold lower_char.
  destruct (is_upper c) eqn:U.
  - cbn [orb]. apply in_range_true in U.
    apply in_range_false. rewrite code_ascii_of_N by lia. lia.
  - cbn [orb].
    destruct (in_range 192 222 c && negb (code c =? 215)%N) eqn:L;
      [| exact U].
    apply andb_true_iff in L. destruct L as [L _].
    apply in_range_true in L.
    apply in_range_false. rewrite code_ascii_of_N by lia. lia.
Qed.

Lemma prepared_text_plain (content : list ascii) :
  forallb plain_char (punctuation_to_space (toLowerCase content)) = true.
Proof.
  unfold punctuation_to_space, toLowerCase. rewrite map_map.
  apply forallb_forall. intros y Hy. apply in_map_iff in Hy.
  destruct Hy as [c [<- _]]. unfold plain_char.
  destruct (is_word_char (lower_char c) || is_space (lower_char c)) eqn:E.
  - now rewrite E, lower_char_not_upper.
  - reflexivity.
Qed.

Lemma plain_space_or_word (c : ascii) :
  plain_char c = true -> is_space c = false -> is_word_char c = true.
Proof.
  unfold plain_char. intros H S. apply andb_true_iff in H.
  destruct H as [H _]. now rewrite S, orb_false_r in H.
Qed.

Lemma word_char_not_space (c : ascii) :
  is_word_char c = true -> is_space c = false.
Proof.
  intros H. apply is_word_char_cases in H.
  unfold is_space. cbn [existsb].
  repeat match goal with
         | |- context [(code c =? ?k)%N] =>
             replace (code c =? k)%N with false
               by (symmetry; apply N.eqb_neq; lia)
         end.
  reflexivity.
Qed.

(** ** Splitting on runs, piece by piece *)

Lemma split_runs_app (sep : ascii -> bool) (s : list ascii) :
  forall (pre cur : list ascii) (in_run : bool),
    split_runs sep (pre ++ s) cur in_run
    = split_front sep pre cur in_run
      ++ split_runs sep s (fst (split_state sep pre cur in_run))
           (snd (split_state sep pre cur in_run)).
Proof.
  induction pre as [| c pre IH]; intros cur in_run; simpl; [reflexivity |].
  destruct (sep c); [destruct in_run |]; simpl; now rewrite IH.
Qed.

Lemma split_front_app (sep : ascii -> bool) (b : list ascii) :
  forall (a cur : list ascii) (in_run : bool),
    split_front sep (a ++ b) cur in_run
    = split_front sep a cur in_run
      ++ split_front sep b (fst (split_state sep a cur in_run))
           (snd (split_state sep a cur in_run)).
Proof.
  induction a as [| c a IH]; intros cur in_run; simpl; [reflexivity |].
  destruct (sep c); [destruct in_run |]; simpl; now rewrite IH.
Qed.

Lemma split_state_app (sep : ascii -> bool) (b : list ascii) :
  forall (a cur : list ascii) (in_run : bool),
    split_state sep (a ++ b) cur in_run
    = split_state sep b (fst (split_state sep a cur in_run))
        (snd (split_state sep a cur in_run)).
Proof.
  induction a as [| c a IH]; intros cur in_run; simpl; [reflexivity |].
  destruct (sep c); [destruct in_run |]; now rewrite IH.
Qed.

(** In a run the current piece is empty. *)
Lemma split_state_in_run (sep : ascii -> bool) :
  forall (pre cur : list ascii) (in_run : bool),
    (in_run = true -> cur = []) ->
    snd (split_state sep pre cur in_run) = true ->
    fst (split_state sep pre cur in_run) = [].
Proof.
  induction pre as [| c pre IH]; intros cur in_run H; simpl; [exact H |].
  destruct (sep c); [destruct in_run |]; apply IH; auto; discriminate.
Qed.

(** After a prefix that is empty or ends with a separator, no piece is
    under way. *)
Lemma split_state_at_boundary (sep : ascii -> bool) (pre : list ascii) :
  match last_of None pre with
  | Some c => sep c = true
  | None => True
  end ->
  fst (split_state sep pre [] false) = [].
Proof.
  destruct pre as [| x pre'] using rev_ind; [reflexivity |].
  rewrite last_of_snoc. intros H. rewrite split_state_app.
  cbn [split_state]. rewrite H.
  destruct (snd (split_state sep pre' [] false)) eqn:E; [| reflexivity].
  cbn [fst]. apply split_state_in_run; [discriminate | exact E].
Qed.

Lemma split_runs_start (sep : ascii -> bool) (s : list ascii)
    (in_run : bool) :
  match s with
  | c :: _ => sep c = false
  | [] => False
  end ->
  split_runs sep s [] in_run = split_runs sep s [] false.
Proof.
  destruct s as [| c s]; [contradiction |]. simpl. now intros ->.
Qed.

Lemma split_ws_at_boundary (pre s : list ascii) :
  match last_of None pre with
  | Some c => is_space c = true
  | None => True
  end ->
  match s with
  | c :: _ => is_space c = false
  | [] => False
  end ->
  split_ws (pre ++ s) = split_front is_space pre [] false ++ split_ws s.
Proof.
  intros B S. unfold split_ws. rewrite split_runs_app.
  rewrite (split_state_at_boundary is_space pre B).
  now rewrite (split_runs_start is_space s _ S).
Qed.

Lemma split_front_positive (sep : ascii -> bool) :
  forall (x cur : list ascii),
    (exists c, In c x /\ sep c = true) ->
    (1 <= length (split_front sep x cur false))%nat.
Proof.
  induction x as [| y x IH]; intros cur [c [Hin Hc]]; [contradiction |].
  simpl. destruct (sep y) eqn:E; [simpl; lia |].
  apply IH. destruct Hin as [-> | Hin]; [congruence |]. now exists c.
Qed.

Lemma split_runs_ink (sep : ascii -> bool) (w : list ascii) :
  forall (s cur : list ascii),
    forallb (fun c => negb (sep c)) w = true ->
    split_runs sep (w ++ s) cur false = split_runs sep s (rev w ++ cur) false.
Proof.
  induction w as [| c w IH]; intros s cur H; [reflexivity |].
  simpl in H. apply andb_true_iff in H. destruct H as [Hc Hw].
  apply negb_true_iff in Hc. simpl. rewrite Hc, (IH s (c :: cur) Hw).
  now rewrite <- app_assoc.
Qed.

Lemma split_runs_skip (sep : ascii -> bool) (gap : list ascii) :
  forall (s : list ascii),
    forallb sep gap = true ->
    split_runs sep (gap ++ s) [] true = split_runs sep s [] true.
Proof.
  induction gap as [| c gap IH]; intros s H; [reflexivity |].
  simpl in H. apply andb_true_iff in H. destruct H as [Hc Hg].
  simpl. now rewrite Hc, (IH s Hg).
Qed.

(** ** Phrase patterns of literal keyword words *)

Lemma word_char_not_syntax (c : ascii) :
  is_word_char c = true ->
  Ascii.eqb c "."%char = false /\ is_syntax_char c = false.
Proof.
  intros H.
  assert (D : forall k : ascii, is_word_char k = false -> Ascii.eqb c k = false).
  { intros k Hk. destruct (Ascii.eqb_spec c k) as [-> |]; congruence. }
  split; [now apply D |].
  unfold is_syntax_char. cbn [existsb].
  rewrite !D by reflexivity. reflexivity.
Qed.

Lemma atoms_of_literal (w : list ascii) :
  forallb (fun c => is_word_char c && negb (is_upper c)) w = true ->
  atoms_of_word w = Some (map (fun c => Chr (ci_eqb c)) w).
Proof.
  induction w as [| c w IH]; simpl; intros H; [reflexivity |].
  apply andb_true_iff in H. destruct H as [Hc Hw].
  apply andb_true_iff in Hc. destruct Hc as [Hc _].
  destruct (word_char_not_syntax c Hc) as [D S].
  unfold atom_of_char. now rewrite D, S, (IH Hw).
Qed.

Lemma literal_ink (w : list ascii) :
  forallb (fun c => is_word_char c && negb (is_upper c)) w = true ->
  forallb (fun c => negb (is_space c)) w = true.
Proof.
  intros H. rewrite forallb_forall in *. intros c Hc.
  specialize (H c Hc). apply andb_true_iff in H. destruct H as [H _].
  now rewrite (word_char_not_space c H).
Qed.

Lemma fits_literal (more : list atom) (rest : list ascii) :
  forall (w : list ascii) (prev : option ascii) (segs : list (list ascii)),
    forallb (fun c => is_word_char c && negb (is_upper c)) w = true ->
    fits (map (fun c => Chr (ci_eqb c)) w ++ more) prev segs rest ->
    forallb plain_char (concat segs ++ rest) = true ->
    exists segs2 : list (list ascii),
      segs = map (fun c => [c]) w ++ segs2 /\
      fits more (last_of prev w) segs2 rest.
Proof.
  induction w as [| c w IH]; intros prev segs Hw F P.
  - now exists segs.
  - simpl in Hw. apply andb_true_iff in Hw. destruct Hw as [Hc Hw].
    apply andb_true_iff in Hc. destruct Hc as [Hc1 Hc2].
    apply negb_true_iff in Hc2.
    destruct segs as [| seg segs]; [contradiction |].
    cbn [map app fits] in F. destruct F as [[x [-> X]] [_ F]].
    cbn [concat app forallb] in P. apply andb_true_iff in P.
    destruct P as [Px P].
    assert (Ux : is_upper x = false).
    { unfold plain_char in Px. apply andb_true_iff in Px.
      destruct Px as [_ Px]. now apply negb_true_iff in Px. }
    apply (ci_eqb_literal c x Hc1 Hc2 Ux) in X. subst x.
    destruct (IH (last_of prev [c]) segs Hw F P) as [segs2 [-> F2]].
    exists segs2. split; [reflexivity | exact F2].
Qed.

Lemma concat_singles (w : list ascii) : concat (map (fun c => [c]) w) = w.
Proof.
  induction w as [| c w IH]; simpl; [reflexivity | now rewrite IH].
Qed.

Lemma split_runs_word (w s cur : list ascii) (in_run : bool) :
  w <> [] ->
  forallb (fun c => negb (is_space c)) w = true ->
  split_runs is_space (w ++ s) cur in_run
  = split_runs is_space s (rev w ++ cur) false.
Proof.
  destruct w as [| c w]; [contradiction |]. intros _ H.
  simpl in H. apply andb_true_iff in H. destruct H as [Hc Hw].
  apply negb_true_iff in Hc. cbn [app split_runs]. rewrite Hc.
  rewrite (split_runs_ink is_space w s (c :: cur) Hw).
  simpl. now rewrite <- app_assoc.
Qed.

(** The text of a phrase match, split on white space, begins with the
    keyword words themselves. *)
Lemma phrase_tokens (rest : list ascii) :
  forall (kws' : list (list ascii)) (w : list ascii) (atoms : list atom)
         (prev : option ascii) (segs : list (list ascii))
         (cur : list ascii) (in_run : bool),
    join_atoms (w :: kws') = Some atoms ->
    forallb literal_word (w :: kws') = true ->
    fits (atoms ++ [WordB]) prev segs rest ->
    forallb plain_char (concat segs ++ rest) = true ->
    exists tail : list (list ascii),
      split_runs is_space (concat segs ++ rest) cur in_run
      = (rev cur ++ w) :: kws' ++ tail.
Proof.
  induction kws' as [| w2 kws' IH];
    intros w atoms prev segs cur in_run J L F P.
  - cbn [join_atoms] in J. cbn [forallb] in L.
    rewrite andb_true_r in L. unfold literal_word in L.
    apply andb_true_iff in L. destruct L as [Ln Lw].
    apply nonempty_true in Ln.
    rewrite (atoms_of_literal w Lw) in J. injection J as <-.
    destruct (fits_literal [WordB] rest w prev segs Lw F P)
      as [segs2 [-> F2]].
    destruct segs2 as [| s0 [| s1 segs3]]; cbn [fits] in F2;
      try contradiction; [| destruct F2 as [_ [_ []]]].
    destruct F2 as [A [X _]]. cbn [atom_takes] in A. subst s0.
    cbn [concat app] in X.
    rewrite concat_app, concat_singles in *. cbn [concat app] in *.
    rewrite app_nil_r in *.
    rewrite (split_runs_word w rest cur in_run Ln (literal_ink w Lw)).
    assert (Last : exists c, last_of prev w = Some c /\ is_word_char c = true).
    { destruct w as [| c w] using rev_ind; [contradiction |].
      exists c. split; [apply last_of_snoc |].
      rewrite forallb_app in Lw. apply andb_true_iff in Lw.
      destruct Lw as [_ Lw]. simpl in Lw. rewrite andb_true_r in Lw.
      apply andb_true_iff in Lw. tauto. }
    destruct Last as [c [Lc Wc]]. rewrite Lc in X. cbn [is_word_at] in X.
    rewrite Wc in X. cbn [xorb] in X. apply negb_true_iff in X.
    destruct rest as [| y rest']; simpl.
    + exists []. now rewrite rev_app_distr, rev_involutive.
    + cbn [hd_error is_word_at] in X.
      rewrite forallb_app in P. apply andb_true_iff in P.
      destruct P as [_ P]. cbn [forallb] in P. apply andb_true_iff in P.
      destruct P as [Py _].
      assert (Sy : is_space y = true).
      { destruct (is_space y) eqn:E; [reflexivity |].
        rewrite (plain_space_or_word y Py E) in X. discriminate. }
      rewrite Sy. exists (split_runs is_space rest' [] true).
      now rewrite rev_app_distr, rev_involutive.
  - cbn [forallb] in L. apply andb_true_iff in L. destruct L as [L1 L2].
    unfold literal_word in L1. apply andb_true_iff in L1.
    destruct L1 as [Ln Lw]. apply nonempty_true in Ln.
    change (join_atoms (w :: w2 :: kws'))
      with (match atoms_of_word w, join_atoms (w2 :: kws') with
            | Some a, Some r => Some (a ++ Rep is_space 1 None :: r)
            | _, _ => None
            end) in J.
    rewrite (atoms_of_literal w Lw) in J.
    destruct (join_atoms (w2 :: kws')) as [r |] eqn:J2; [| discriminate].
    injection J as <-. rewrite <- app_assoc in F. cbn [app] in F.
    destruct (fits_literal _ rest w prev segs Lw F P) as [segs2 [-> F2]].
    destruct segs2 as [| gap segs3]; [contradiction |].
    cbn [fits] in F2. destruct F2 as [[G [Gn _]] [_ F3]].
    rewrite concat_app, concat_singles in *. cbn [concat] in *.
    rewrite <- !app_assoc in *.
    assert (P3 : forallb plain_char (concat segs3 ++ rest) = true).
    { rewrite !forallb_app in P. repeat (apply andb_true_iff in P;
        destruct P as [? P]). now rewrite forallb_app, H1, P. }
    rewrite (split_runs_word w _ cur in_run Ln (literal_ink w Lw)).
    destruct gap as [| sp gap]; [simpl in Gn; lia |].
    simpl in G. apply andb_true_iff in G. destruct G as [G1 G2].
    cbn [app split_runs]. rewrite G1.
    rewrite (split_runs_skip is_space gap _ G2).
    destruct (IH w2 r _ segs3 [] true J2 L2 F3 P3) as [tail T].
    rewrite T. exists tail. cbn [rev app].
    now rewrite rev_app_distr, rev_involutive.
Qed.

(** ** Exact phrase matches and token windows *)

Lemma phrase_starts_with_word (rest : list ascii)
    (kws' : list (list ascii)) (w : list ascii) (atoms : list atom)
    (prev : option ascii) (segs : list (list ascii)) :
  join_atoms (w :: kws') = Some atoms ->
  forallb literal_word (w :: kws') = true ->
  fits (atoms ++ [WordB]) prev segs rest ->
  forallb plain_char (concat segs ++ rest) = true ->
  exists X : list ascii, concat segs ++ rest = w ++ X.
Proof.
  intros J L F P.
  cbn [forallb] in L. apply andb_true_iff in L. destruct L as [L1 _].
  unfold literal_word in L1. apply andb_true_iff in L1.
  destruct L1 as [_ Lw].
  assert (A : exists more, atoms ++ [WordB]
                           = map (fun c => Chr (ci_eqb c)) w ++ more).
  { destruct kws' as [| w2 kws'].
    - cbn [join_atoms] in J. rewrite (atoms_of_literal w Lw) in J.
      injection J as <-. now exists [WordB].
    - change (join_atoms (w :: w2 :: kws'))
        with (match atoms_of_word w, join_atoms (w2 :: kws') with
              | Some a, Some r => Some (a ++ Rep is_space 1 None :: r)
              | _, _ => None
              end) in J.
      rewrite (atoms_of_literal w Lw) in J.
      destruct (join_atoms (w2 :: kws')) as [r |]; [| discriminate].
      injection J as <-. rewrite <- app_assoc. eexists. reflexivity. }
  destruct A as [more A]. rewrite A in F.
  destruct (fits_literal more rest w prev segs Lw F P) as [segs2 [-> _]].
  rewrite concat_app, concat_singles, <- app_assoc. eexists. reflexivity.
Qed.

Lemma last_of_plain (pre : list ascii) (c : ascii) :
  forallb plain_char pre = true -> last_of None pre = Some c ->
  plain_char c = true.
Proof.
  destruct pre as [| x pre'] using rev_ind; [discriminate |].
  rewrite last_of_snoc, forallb_app. intros H E. injection E as <-.
  apply andb_true_iff in H. destruct H as [_ H]. simpl in H.
  now rewrite andb_true_r in H.
Qed.

(** Where a phrase match starts, a token starts: the text before it is
    empty or ends with white space, and the tokens from there on begin
    with the keyword words. *)
Lemma phrase_match_tokens (kws' : list (list ascii)) (w : list ascii)
    (re : list atom) (text : list ascii) (i : nat)
    (segs : list (list ascii)) :
  phraseRegex (w :: kws') = Some re ->
  forallb literal_word (w :: kws') = true ->
  forallb plain_char text = true ->
  In (i, segs) (matchAll re None text 0 0) ->
  exists (pre Y : list ascii) (tail : list (list ascii)),
    text = pre ++ Y /\ length pre = i /\
    match last_of None pre with
    | Some c => is_space c = true
    | None => True
    end /\
    match Y with
    | c :: _ => is_space c = false
    | [] => False
    end /\
    split_ws text
    = split_front is_space pre [] false ++ (w :: kws') ++ tail.
Proof.
  intros R L P H. unfold phraseRegex in R.
  destruct (join_atoms (w :: kws')) as [atoms |] eqn:J; [| discriminate].
  injection R as <-.
  apply (matchAll_fits _ i segs text [] 0%nat) in H.
  destruct H as [pre [rest [E [Len F]]]]. cbn [app] in E.
  destruct segs as [| s0 segs']; [contradiction |].
  cbn [fits] in F. destruct F as [A [X F]].
  cbn [atom_takes] in A. subst s0. cbn [last_of fold_left] in F.
  fold (last_of None pre) in F.
  cbn [concat app] in E.
  assert (P2 : forallb plain_char (concat segs' ++ rest) = true).
  { rewrite E, forallb_app in P. apply andb_true_iff in P. tauto. }
  assert (P1 : forallb plain_char pre = true).
  { rewrite E, forallb_app in P. apply andb_true_iff in P. tauto. }
  destruct (phrase_starts_with_word rest kws' w atoms _ segs' J L F P2)
    as [Z Ez].
  destruct (phrase_tokens rest kws' w atoms _ segs' [] false J L F P2)
    as [tail T].
  cbn [rev app] in T.
  assert (Lw : exists c w', w = c :: w' /\ is_word_char c = true).
  { cbn [forallb] in L. apply andb_true_iff in L. destruct L as [L1 _].
    unfold literal_word in L1. apply andb_true_iff in L1.
    destruct L1 as [Ln Lw]. destruct w as [| c w']; [discriminate |].
    exists c, w'. split; [reflexivity |]. simpl in Lw.
    apply andb_true_iff in Lw. destruct Lw as [Lw _].
    apply andb_true_iff in Lw. tauto. }
  destruct Lw as [c [w' [-> Wc]]].
  rewrite Ez in X. cbn [app hd_error is_word_at] in X. rewrite Wc in X.
  assert (B : match last_of None pre with
              | Some c => is_space c = true
              | None => True
              end).
  { destruct (last_of None pre) as [y |] eqn:Ly; [| exact I].
    cbn [is_word_at] in X.
    destruct (is_space y) eqn:Sy; [reflexivity |].
    rewrite (plain_space_or_word y (last_of_plain pre y P1 Ly) Sy) in X.
    discriminate. }
  assert (S : match concat segs' ++ rest with
              | y :: _ => is_space y = false
              | [] => False
              end).
  { rewrite Ez. cbn [app]. now apply word_char_not_space. }
  exists pre, (concat segs' ++ rest), tail.
  split; [exact E |]. split; [exact Len |]. split; [exact B |].
  split; [exact S |].
  rewrite E, (split_ws_at_boundary pre _ B S). unfold split_ws.
  now rewrite T.
Qed.

Lemma token_index_strict (text pre1 Y1 pre2 Y2 : list ascii) :
  text = pre1 ++ Y1 -> text = pre2 ++ Y2 ->
  (length pre1 < length pre2)%nat ->
  match last_of None pre1 with
  | Some c => is_space c = true
  | None => True
  end ->
  match last_of None pre2 with
  | Some c => is_space c = true
  | None => True
  end ->
  match Y1 with
  | c :: _ => is_space c = false
  | [] => False
  end ->
  (length (split_front is_space pre1 [] false)
   < length (split_front is_space pre2 [] false))%nat.
Proof.
  intros E1 E2 Lt B1 B2 S1.
  assert (D : exists x, pre2 = pre1 ++ x /\ Y1 = x ++ Y2).
  { rewrite E1 in E2. apply app_eq_app in E2.
    destruct E2 as [l [[A1 A2] | [A1 A2]]].
    - subst pre1. rewrite length_app in Lt. lia.
    - now exists l. }
  destruct D as [x [-> ->]].
  rewrite length_app in Lt.
  destruct x as [| c x]; [simpl in Lt; lia |]. cbn [app] in S1.
  rewrite split_front_app, length_app.
  rewrite (split_state_at_boundary is_space pre1 B1).
  cbn [split_front]. rewrite S1.
  assert (K : exists y, In y x /\ is_space y = true).
  { destruct x as [| z x'] using rev_ind.
    - rewrite last_of_snoc in B2. congruence.
    - replace (pre1 ++ c :: x' ++ [z]) with ((pre1 ++ c :: x') ++ [z]) in B2
        by (now rewrite <- app_assoc).
      rewrite last_of_snoc in B2. exists z.
      split; [apply in_or_app; right; now left | exact B2]. }
  pose proof (split_front_positive is_space x [c] K). lia.
Qed.

Lemma sorted_lt_NoDup (l : list nat) : StronglySorted lt l -> NoDup l.
Proof.
  induction 1 as [| a l S IH F]; constructor; [| exact IH].
  intros H. rewrite Forall_forall in F. specialize (F a H). lia.
Qed.

Lemma map_sorted_on (g : nat -> nat) (l : list nat) :
  (forall a b, In a l -> In b l -> (a < b)%nat -> (g a < g b)%nat) ->
  StronglySorted lt l -> StronglySorted lt (map g l).
Proof.
  intros G S. induction S as [| a l S IH F]; simpl; constructor.
  - apply IH. intros x y Hx Hy. apply G; now right.
  - apply Forall_forall. intros y Hy. apply in_map_iff in Hy.
    destruct Hy as [b [<- Hb]]. rewrite Forall_forall in F.
    apply G; [now left | now right | now apply F].
Qed.

Lemma filter_map_length {A B : Type} (p : B -> bool) (f : A -> B)
    (l : list A) :
  length (filter p (map f l)) = length (filter (fun a => p (f a)) l).
Proof.
  induction l as [| a l IH]; simpl; [reflexivity |].
  destruct (p (f a)); simpl; now rewrite IH.
Qed.

Lemma hits_bound (pass : nat -> bool) (n : nat) (js : list nat) :
  StronglySorted lt js ->
  Forall (fun j => (j < n)%nat /\ pass j = true) js ->
  (length js <= length (filter pass (seq 0 n)))%nat.
Proof.
  intros S F. apply NoDup_incl_length; [now apply sorted_lt_NoDup |].
  intros j Hj. rewrite Forall_forall in F. destruct (F j Hj) as [A B].
  apply filter_In. split; [| exact B]. apply in_seq. lia.
Qed.

Lemma includes_refl (w : list ascii) : includes w w = true.
Proof.
  pose proof (includes_app [] w []) as H. cbn [app] in H.
  now rewrite app_nil_r in H.
Qed.

Lemma exact_window_is_partial (kws : list (list ascii)) :
  is_partial_match kws kws = true.
Proof.
  unfold is_partial_match.
  assert (A : filter (loosely_matches kws) kws = kws).
  { assert (G : forall l, incl l kws -> filter (loosely_matches kws) l = l).
    { induction l as [| w l IH]; intros I; [reflexivity |]. simpl.
      replace (loosely_matches kws w) with true.
      - rewrite IH; [reflexivity |]. intros x Hx. apply I. now right.
      - symmetry. unfold loosely_matches. apply existsb_exists.
        exists w. split; [apply I; now left |].
        now rewrite includes_refl. }
    apply G. apply incl_refl. }
  rewrite A. apply Z.leb_le. unfold Math_ceil.
  etransitivity;
    [| apply Z.eq_le_incl; apply (Qceiling_Z (Z.of_nat (length kws)))].
  apply Qceiling_resp_le.
  pose proof (Qnat_nonneg (length kws)) as N. unfold Qnat in *. lra.
Qed.

Lemma firstn_length_app {A : Type} (pre Y : list A) :
  firstn (length pre) (pre ++ Y) = pre.
Proof.
  induction pre as [| x pre IH]; simpl; [now destruct Y | now rewrite IH].
Qed.

Lemma skipn_length_app {A : Type} (pre Y : list A) :
  skipn (length pre) (pre ++ Y) = Y.
Proof.
  induction pre as [| x pre IH]; simpl; [reflexivity | exact IH].
Qed.

(** Each exact phrase match is one of the windows that pass the partial
    test, and different matches are different windows. *)
Lemma exact_le_partial (kws' : list (list ascii)) (w : list ascii)
    (re : list atom) (text : list ascii) :
  phraseRegex (w :: kws') = Some re ->
  forallb literal_word (w :: kws') = true ->
  forallb plain_char text = true ->
  (countExactMatches re text <= countPartialMatches (w :: kws') text)%nat.
Proof.
  intros R L P. unfold countExactMatches, countPartialMatches, windows.
  set (kws := w :: kws') in *.
  set (matches := matchAll re None text 0 0).
  set (g := fun i => length (split_front is_space (firstn i text) [] false)).
  set (n := (length (split_ws text) + 1 - length kws)%nat).
  rewrite filter_map_length.
  rewrite <- (length_map fst matches), <- (length_map g (map fst matches)).
  assert (M : forall i, In i (map fst matches) ->
              exists (pre Y : list ascii) (tail : list (list ascii)),
                text = pre ++ Y /\ length pre = i /\
                match last_of None pre with
                | Some c => is_space c = true
                | None => True
                end /\
                match Y with
                | c :: _ => is_space c = false
                | [] => False
                end /\
                split_ws text
                = split_front is_space pre [] false ++ kws ++ tail).
  { intros i Hi. apply in_map_iff in Hi. destruct Hi as [[i' segs] [<- Hi]].
    now apply (phrase_match_tokens kws' w re text i' segs). }
  apply hits_bound.
  - apply map_sorted_on; [| apply matchAll_sorted].
    intros a b Ha Hb Lt.
    destruct (M a Ha) as [pre1 [Y1 [_ [E1 [L1 [B1 [S1 _]]]]]]].
    destruct (M b Hb) as [pre2 [Y2 [_ [E2 [L2 [B2 _]]]]]].
    unfold g. subst a b.
    rewrite E1 at 1. rewrite firstn_length_app.
    rewrite E2 at 1. rewrite firstn_length_app.
    now apply (token_index_strict text pre1 Y1 pre2 Y2).
  - apply Forall_forall. intros j Hj. apply in_map_iff in Hj.
    destruct Hj as [i [<- Hi]].
    destruct (M i Hi) as [pre [Y [tail [E [Len [_ [_ T]]]]]]].
    assert (F : firstn (length pre) text = pre)
      by (rewrite E; apply firstn_length_app).
    unfold g. subst i. rewrite !F.
    split.
    + unfold n. rewrite T, !length_app. unfold kws. simpl. lia.
    + rewrite T, skipn_length_app, firstn_length_app.
      apply exact_window_is_partial.
Qed.

Lemma join_atoms_literal (kws : list (list ascii)) :
  forallb literal_word kws = true ->
  exists atoms, join_atoms kws = Some atoms.
Proof.
  induction kws as [| w kws IH]; intros L; [now exists [] |].
  cbn [forallb] in L. apply andb_true_iff in L. destruct L as [L1 L2].
  unfold literal_word in L1. apply andb_true_iff in L1.
  destruct L1 as [_ Lw]. destruct (IH L2) as [r R].
  destruct kws as [| w2 kws].
  - cbn [join_atoms]. rewrite (atoms_of_literal w Lw). eexists. reflexivity.
  - change (join_atoms (w :: w2 :: kws))
      with (match atoms_of_word w, join_atoms (w2 :: kws) with
            | Some a, Some r => Some (a ++ Rep is_space 1 None :: r)
            | _, _ => None
            end).
    rewrite (atoms_of_literal w Lw), R. eexists. reflexivity.
Qed.

Lemma half_floor (p : nat) :
  Z.to_nat (Math_floor (Qnat p * 0.5)%Q) = (p / 2)%nat.
Proof.
  unfold Math_floor, Qnat.
  replace (Qfloor (inject_Z (Z.of_nat p) * 0.5)) with (Z.of_nat p / 2).
  - change 2 with (Z.of_nat 2).
    rewrite <- (Nat2Z.inj_div p 2). apply Nat2Z.id.
  - rewrite (Zdiv_Qdiv (Z.of_nat p) 2). apply Qfloor_comp.
    unfold Qdiv. apply Qmult_comp; reflexivity.
Qed.

Lemma keyword_words_literal (keyword : list ascii)
    (kws : list (list ascii)) :
  kws = filter nonempty (split_ws (trim (toLowerCase keyword))) ->
  forallb (forallb is_word_char) kws = true ->
  forallb literal_word kws = true.
Proof.
  intros -> H. rewrite forallb_forall in *. intros w Hw.
  specialize (H w Hw). apply filter_In in Hw. destruct Hw as [Hin Hn].
  unfold literal_word. rewrite Hn. cbn [andb].
  rewrite forallb_forall in *. intros c Hc.
  rewrite (H c Hc). cbn [andb]. apply negb_true_iff.
  unfold split_ws in Hin.
  destruct (split_runs_incl is_space c _ _ _ _ Hin Hc) as [I | []].
  apply trim_incl in I. unfold toLowerCase in I. apply in_map_iff in I.
  destruct I as [x [<- _]]. apply lower_char_not_upper.
Qed.

(** X14: for a target keyword of two or more words that consist of word
    characters (letters, digits, underscore), every exact phrase match is
    also a window that passes the 70% partial test, so the partial-match
    count is at least the exact-match count and the reported count
    [exactMatches + floor(partialMatches / 2)] is at least
    [exactMatches + floor(exactMatches / 2)]; with two or more exact
    matches it is strictly larger than their number. *)
Theorem phrase_count_exceeds_exact (this : Analyzer) :
  let keywordWords :=
    filter nonempty (split_ws (trim (toLowerCase (targetKeyword this)))) in
  let text := punctuation_to_space (toLowerCase (content this)) in
  (2 <= length keywordWords)%nat ->
  forallb (forallb is_word_char) keywordWords = true ->
  exists regex : list atom,
    phraseRegex keywordWords = Some regex /\
    let exactMatches := countExactMatches regex text in
    let partialMatches := countPartialMatches keywordWords text in
    (exactMatches <= partialMatches)%nat /\
    countKeyword this = Some (exactMatches + partialMatches / 2)%nat /\
    (exactMatches + exactMatches / 2
     <= exactMatches + partialMatches / 2)%nat /\
    ((2 <= exactMatches)%nat ->
     (exactMatches < exactMatches + partialMatches / 2)%nat).
Proof.
  cbv zeta. intros Hk Hw.
  set (kws := filter nonempty
                (split_ws (trim (toLowerCase (targetKeyword this))))) in *.
  pose proof (keyword_words_literal _ kws eq_refl Hw) as L.
  destruct (join_atoms_literal kws L) as [atoms J].
  exists (WordB :: atoms ++ [WordB]).
  assert (R : phraseRegex kws = Some (WordB :: atoms ++ [WordB]))
    by (unfold phraseRegex; now rewrite J).
  split; [exact R |].
  set (text := punctuation_to_space (toLowerCase (content this))).
  assert (E : (countExactMatches (WordB :: atoms ++ [WordB]) text
               <= countPartialMatches kws text)%nat).
  { destruct kws as [| w kws'] eqn:K; [simpl in Hk; lia |].
    apply (exact_le_partial kws' w _ text R L).
    apply prepared_text_plain. }
  split; [exact E |].
  assert (D : (countExactMatches (WordB :: atoms ++ [WordB]) text / 2
               <= countPartialMatches kws text / 2)%nat)
    by (now apply Nat.Div0.div_le_mono).
  split.
  - unfold countKeyword. fold kws.
    destruct kws as [| w [| w2 kws']] eqn:K; try (simpl in Hk; lia).
    unfold countPhrase. fold text. rewrite R. now rewrite half_floor.
  - split; [lia |]. intros H2.
    assert (1 <= countExactMatches (WordB :: atoms ++ [WordB]) text / 2)%nat.
    { change 1%nat with (2 / 2)%nat. now apply Nat.Div0.div_le_mono. }
    lia.
Qed.

Lemma phrase_count_exceeds_exact_witness :
  exists exactMatches partialMatches : nat,
    (exactMatches <= partialMatches)%nat /\
    countKeyword
      {| content := lit "Coffee maker tips: a coffee maker.";
         targetKeyword := lit "coffee maker";
         metaDescription := []; analysisResults := None |}
    = Some (exactMatches + partialMatches / 2)%nat.
Proof.
  destruct (phrase_count_exceeds_exact
              {| content := lit "Coffee maker tips: a coffee maker.";
                 targetKeyword := lit "coffee maker";
                 metaDescription := []; analysisResults := None |})
    as [regex [_ [E [C _]]]].
  - vm_compute. lia.
  - vm_compute. reflexivity.
  - eexists. eexists. split; [exact E | exact C].
Defined.

(** ** The first variant of the engine *)

Lemma legacy_fold_sum (f : list ascii -> nat) (l : list (list ascii)) :
  forall a : nat,
    fold_left (fun acc w =>
                 let w' := Legacy.lettersOf w in
                 if (length w' =? 0)%nat then acc else (acc + f w')%nat)
              l a
    = (a + list_sum
             (map f (filter nonempty (map Legacy.lettersOf l))))%nat.
Proof.
  induction l as [| w l IH]; intros a; cbn [fold_left map filter];
    [simpl; lia |].
  rewrite IH. unfold nonempty.
  destruct (length (Legacy.lettersOf w) =? 0)%nat; cbn [negb map list_sum];
    simpl; lia.
Qed.

Lemma legacy_fold_count (f : list ascii -> nat) (l : list (list ascii)) :
  forall a : nat,
    fold_left (fun acc w =>
                 let w' := Legacy.lettersOf w in
                 if (length w' =? 0)%nat then acc
                 else if (3 <=? f w')%nat then S acc else acc)
              l a
    = (a + length
             (filter (fun w => (3 <=? f w)%nat)
                     (filter nonempty (map Legacy.lettersOf l))))%nat.
Proof.
  induction l as [| w l IH]; intros a; cbn [fold_left map filter];
    [simpl; lia |].
  rewrite IH. unfold nonempty.
  destruct (length (Legacy.lettersOf w) =? 0)%nat; cbn [negb filter];
    [lia |].
  destruct (3 <=? f (Legacy.lettersOf w))%nat; simpl; lia.
Qed.

Lemma legacy_wordSyllables_pos (w : list ascii) :
  (1 <= Legacy.wordSyllables w)%nat.
Proof.
  unfold Legacy.wordSyllables. cbv zeta. lia.
Qed.

Lemma one_per_word_two_per_polysyllable (f : list ascii -> nat)
    (l : list (list ascii)) :
  (forall w, (1 <= f w)%nat) ->
  (length l + 2 * length (filter (fun w => (3 <=? f w)%nat) l)
   <= list_sum (map f l))%nat.
Proof.
  intros H. induction l as [| w l IH]; [simpl; lia |].
  cbn [map filter].
  change (list_sum (f w :: map f l)) with (f w + list_sum (map f l))%nat.
  specialize (H w).
  destruct (3 <=? f w)%nat eqn:E; cbn [length];
    [apply Nat.leb_le in E |]; lia.
Qed.


(** X16: the readability computation of the first variant never divides
    by zero, whatever the content; the Flesch Reading Ease it returns lies
    in [[0, 100]] and the Flesch-Kincaid grade is never negative; the SMOG
    index is never negative when the square root is not. *)
Theorem legacy_readability_safe_and_bounded (Math_sqrt : Q -> Q)
    (content : list ascii) :
  let r := fst (Legacy.calculateReadabilityScores Math_sqrt content) in
  let divisions :=
    snd (Legacy.calculateReadabilityScores Math_sqrt content) in
  Forall (fun nd : Q * Q => ~ (snd nd == 0)%Q) divisions /\
  (0 <= fleschEase r)%Q /\ (fleschEase r <= 100)%Q /\
  (0 <= fleschKincaid r)%Q /\
  ((forall x : Q, (0 <= Math_sqrt x)%Q) -> (0 <= smogIndex r)%Q).
Proof.
  cbv zeta. unfold Legacy.calculateReadabilityScores.
  destruct (words (calculateWordStats content)) as [| w] eqn:Ew.
  { simpl. repeat split; try constructor; try discriminate; intros;
      apply Qle_refl. }
  destruct (sentences (calculateWordStats content)) as [| s] eqn:Es.
  { simpl. repeat split; try constructor; try discriminate; intros;
      apply Qle_refl. }
  cbn [Nat.eqb orb]. cbv iota.
  assert (N10 : ~ (10 == 0)%Q) by discriminate.
  assert (Ns : ~ (Qnat (S s) == 0)%Q) by (apply Qnat_nonzero; discriminate).
  assert (Nw : ~ (Qnat (S w) == 0)%Q) by (apply Qnat_nonzero; discriminate).
  assert (Rsm : forall x : Q, (0 <= x)%Q ->
                              (0 <= inject_Z (Math_round (x * 10)) / 10)%Q).
  { intros x Hx. apply Qle_shift_div_l; [reflexivity |]. rewrite Qmult_0_l.
    change 0%Q with (inject_Z 0). rewrite <- Zle_Qle.
    apply Math_round_nonneg.
    apply Qmult_le_0_compat; [exact Hx | discriminate]. }
  assert (Sm : forall x : Q, (forall y : Q, (0 <= Math_sqrt y)%Q) ->
                             (0 <= 1.043 * Math_sqrt x + 3.1291)%Q).
  { intros x H. specialize (H x).
    assert (M : (0 <= 1.043 * Math_sqrt x)%Q)
      by (apply Qmult_le_0_compat; [discriminate | exact H]).
    lra. }
  destruct (30 <=? S s)%nat; unfold bind, divide, ret; cbn beta iota;
    cbn [fst snd app fleschEase fleschKincaid smogIndex];
    match goal with
    | |- context [Math_max 0 (Math_min 100 ?x)] =>
        set (fe := Math_max 0 (Math_min 100 x))
    end;
    match goal with
    | |- context [Math_max 0 (?a + ?b - ?c)%Q] =>
        set (fk := Math_max 0 (a + b - c)%Q)
    end;
    (assert (Hfe : (inject_Z 0 <= fe)%Q /\ (fe <= inject_Z 100)%Q)
      by (split; [apply Math_max_ge_l |];
          apply Math_max_le; [discriminate | apply Math_min_le_l]));
    (assert (Hfk : (0 <= fk)%Q) by apply Math_max_ge_l);
    destruct (round_tenth_bounds 0 100 fe (proj1 Hfe) (proj2 Hfe))
      as [F1 F2];
    (split; [repeat constructor; cbn [snd]; assumption |]);
    (split; [exact F1 |]); (split; [exact F2 |]);
    (split; [now apply Rsm |]);
    intros H; apply Rsm.
  - now apply Sm.
  - apply Math_max_ge_l.
Qed.

Lemma legacy_readability_safe_and_bounded_witness :
  (0 <= smogIndex
          (fst (Legacy.calculateReadabilityScores sqrt15
                  (lit "Hello world. This is a simple test."))))%Q.
Proof.
  apply (legacy_readability_safe_and_bounded sqrt15
           (lit "Hello world. This is a simple test.")).
  exact sqrt15_nonneg.
Defined.

Lemma legacy_contentQualityPoints_range (ws : WordStats)
    (ka : KeywordAnalysis) :
  0 <= Legacy.contentQualityPoints ws ka <= 100.
Proof.
  unfold Legacy.contentQualityPoints. cbv zeta.
  match goal with
  | |- _ <= 0 + ?a + ?b + ?c + ?d <= _ =>
      assert (Ha : 0 <= a <= 30) by if_bounds;
      assert (Hb : 0 <= b <= 30) by if_bounds;
      assert (Hc : 0 <= c <= 25) by if_bounds;
      assert (Hd : 0 <= d <= 15) by if_bounds;
      lia
  end.
Qed.

Lemma legacy_readabilityPoints_cases (rs : ReadabilityScores) :
  In (Legacy.readabilityPoints rs) [50; 70; 85; 100].
Proof.
  unfold Legacy.readabilityPoints. cbv zeta.
  repeat match goal with
         | |- context [if ?c then _ else _] => destruct c
         end; simpl; tauto.
Qed.

Lemma legacy_weighted_monotone (a b c a' b' c' : Z) :
  a <= a' -> b <= b' -> c <= c' ->
  (Legacy.weighted a b c <= Legacy.weighted a' b' c')%Q.
Proof.
  intros Ha Hb Hc. unfold Legacy.weighted.
  rewrite Zle_Qle in Ha, Hb, Hc. lra.
Qed.

Lemma structureScore_range (content : list ascii) :
  0 <= structureScore (analyzeHeadingStructure content) <= 100.
Proof.
  destruct (analyzeHeadingStructure_fields content)
    as [_ [_ [_ [_ [_ [_ [Hs _]]]]]]].
  cbv zeta in Hs. rewrite Hs.
  destruct (hasH1 _), (multipleH1 _); cbn [negb indicator]; lia.
Qed.

Lemma legacy_updateAnalysis_nonblank (Math_sqrt : Q -> Q) (now : list ascii)
    (this this' : Legacy.Analyzer) :
  nonempty (trim (Legacy.content this)) = true ->
  Legacy.updateAnalysis Math_sqrt now this = Some this' ->
  exists ka : KeywordAnalysis,
    Legacy.analyzeKeywords this = Some ka /\
    Legacy.content this' = Legacy.content this /\
    Legacy.targetKeyword this' = Legacy.targetKeyword this /\
    Legacy.analysisResults this'
    = Some {| Legacy.wordStats := calculateWordStats (Legacy.content this);
              Legacy.readabilityScores :=
                fst (Legacy.calculateReadabilityScores Math_sqrt
                       (Legacy.content this));
              Legacy.keywordAnalysis := ka;
              Legacy.headingStructure :=
                analyzeHeadingStructure (Legacy.content this);
              Legacy.seoScore :=
                Legacy.calculateSEOScore
                  (calculateWordStats (Legacy.content this))
                  (fst (Legacy.calculateReadabilityScores Math_sqrt
                          (Legacy.content this)))
                  ka (analyzeHeadingStructure (Legacy.content this));
              Legacy.timestamp := now |}.
Proof.
  intros Hc H. unfold Legacy.updateAnalysis in H. rewrite Hc in H.
  cbn [negb] in H.
  destruct (Legacy.analyzeKeywords this) as [ka |]; [| discriminate].
  injection H as <-. exists ka. repeat split.
Qed.



(** *** Keyword counting in the first variant *)

Lemma is_space_canon_char (c : ascii) : is_space (canon_char c) = is_space c.
Proof.
  destruct c as [[|] [|] [|] [|] [|] [|] [|] [|]]; vm_compute; reflexivity.
Qed.

Lemma is_space_lower_char (c : ascii) : is_space (lower_char c) = is_space c.
Proof.
  destruct c as [[|] [|] [|] [|] [|] [|] [|] [|]]; vm_compute; reflexivity.
Qed.

Lemma ci_eqb_space (a b : ascii) :
  ci_eqb a b = true -> is_space a = is_space b.
Proof.
  unfold ci_eqb. intros H. apply Ascii.eqb_eq in H.
  rewrite <- (is_space_canon_char a), <- (is_space_canon_char b).
  now rewrite H.
Qed.

(** A run of literal characters of a pattern takes a text of the same
    length that agrees with it character by character, up to case. *)
Lemma fits_ci (more : list atom) (rest : list ascii) :
  forall (w : list ascii) (prev : option ascii) (segs : list (list ascii)),
    fits (map (fun c => Chr (ci_eqb c)) w ++ more) prev segs rest ->
    exists (m : list ascii) (segs2 : list (list ascii)),
      segs = map (fun c => [c]) m ++ segs2 /\
      Forall2 (fun c x => ci_eqb c x = true) w m /\
      fits more (last_of prev m) segs2 rest.
Proof.
  induction w as [| c w IH]; intros prev segs F.
  - exists [], segs. repeat split; [constructor | exact F].
  - destruct segs as [| seg segs]; [contradiction |].
    cbn [map app fits] in F. destruct F as [[x [-> X]] [_ F]].
    destruct (IH (last_of prev [x]) segs F) as [m [segs2 [-> [A F2]]]].
    exists (x :: m), segs2. split; [reflexivity |].
    split; [now constructor | exact F2].
Qed.

Lemma space_then_ink (l : list ascii) :
  forall prev : option ascii,
    (exists c, In c l /\ is_space c = true) ->
    match last_of prev l with
    | Some c => is_space c = false
    | None => True
    end ->
    exists (X Z : list ascii) (s b : ascii),
      l = X ++ s :: b :: Z /\ is_space s = true /\ is_space b = false.
Proof.
  induction l as [| c l IH]; intros prev [x [Hx Sx]] L;
    [contradiction |].
  destruct l as [| d l].
  - unfold last_of in L. cbn [fold_left] in L.
    destruct Hx as [-> | []]. congruence.
  - destruct (is_space c) eqn:Sc.
    + destruct (is_space d) eqn:Sd.
      * destruct (IH (Some c)) as [X [Z [s [b [E [Hs Hb]]]]]].
        -- exists d. split; [now left | exact Sd].
        -- exact L.
        -- exists (c :: X), Z, s, b. rewrite E. now repeat split.
      * exists [], l, c, d. now repeat split.
    + destruct (IH (Some c)) as [X [Z [s [b [E [Hs Hb]]]]]].
      * exists x. destruct Hx as [-> | Hx]; [congruence | now split].
      * exact L.
      * exists (c :: X), Z, s, b. rewrite E. now repeat split.
Qed.

Lemma trim_last_ink (s : list ascii) :
  match last_of None (trim s) with
  | Some c => is_space c = false
  | None => True
  end.
Proof.
  unfold trim.
  destruct (dropWhile is_space (rev (dropWhile is_space s)))
    as [| c r] eqn:E; [exact I |].
  cbn [rev]. rewrite last_of_snoc. exact (dropWhile_head _ _ _ _ E).
Qed.

Lemma split_ws_single (w : list ascii) :
  forallb (fun c => negb (is_space c)) w = true -> split_ws w = [w].
Proof.
  intros H. unfold split_ws.
  rewrite <- (app_nil_r w) at 1. rewrite (split_runs_ink is_space w [] [] H).
  cbn [split_runs]. now rewrite app_nil_r, rev_involutive.
Qed.

Lemma has_space_of_not_all_ink (w : list ascii) :
  forallb (fun c => negb (is_space c)) w = false ->
  exists c, In c w /\ is_space c = true.
Proof.
  induction w as [| c w IH]; [discriminate |]. cbn [forallb].
  destruct (is_space c) eqn:E.
  - intros _. exists c. split; [now left | exact E].
  - cbn [negb andb]. intros H. destruct (IH H) as [x [A B]].
    exists x. split; [now right | exact B].
Qed.

Lemma split_runs_head (sep : ascii -> bool) :
  forall (s cur : list ascii),
    exists (x : list ascii) (tail : list (list ascii)),
      split_runs sep s cur false = (rev cur ++ x) :: tail.
Proof.
  induction s as [| c s IH]; intros cur; cbn [split_runs].
  - exists [], []. now rewrite app_nil_r.
  - destruct (sep c).
    + exists [], (split_runs sep s [] true). now rewrite app_nil_r.
    + destruct (IH (c :: cur)) as [x [tail E]].
      exists (c :: x), tail. rewrite E. cbn [rev].
      now rewrite <- app_assoc.
Qed.

(** A position where a word starts is the start of one of the pieces of
    the split, and that piece is not empty. *)
Lemma token_at_boundary (pre Y : list ascii) :
  match last_of None pre with
  | Some c => is_space c = true
  | None => True
  end ->
  match Y with
  | c :: _ => is_space c = false
  | [] => False
  end ->
  exists (tok : list ascii) (tail : list (list ascii)),
    split_ws (pre ++ Y)
    = split_front is_space pre [] false ++ tok :: tail /\
    nonempty tok = true.
Proof.
  intros B S. rewrite (split_ws_at_boundary pre Y B S).
  destruct Y as [| c Y]; [contradiction |].
  unfold split_ws. cbn [split_runs]. rewrite S.
  destruct (split_runs_head is_space Y [c]) as [x [tail E]].
  rewrite E. exists (rev [c] ++ x), tail. split; reflexivity.
Qed.

Lemma filter_nth_seq {A : Type} (p : A -> bool) (d : A) (l : list A) :
  length (filter (fun j => p (nth j l d)) (seq 0 (length l)))
  = length (filter p l).
Proof.
  induction l as [| a l IH]; [reflexivity |].
  cbn [length seq]. rewrite <- seq_shift. cbn [filter nth].
  destruct (p a); cbn [length]; rewrite filter_map_length; cbn [nth];
    now rewrite IH.
Qed.

(** A match of the phrase pattern of the first variant, for a keyword with
    a white-space character followed by another character, contains the
    start of a word of the text at a fixed offset from its own start. *)
Lemma legacy_phrase_match_token (keyword text X Z : list ascii) (s b : ascii)
    (i : nat) (segs : list (list ascii)) :
  keyword = X ++ s :: b :: Z ->
  is_space s = true -> is_space b = false ->
  In (i, segs) (matchAll (Legacy.phraseRegex keyword) None text 0 0) ->
  exists pre Y : list ascii,
    text = pre ++ Y /\ length pre = (i + length X + 1)%nat /\
    match last_of None pre with
    | Some c => is_space c = true
    | None => True
    end /\
    match Y with
    | c :: _ => is_space c = false
    | [] => False
    end.
Proof.
  intros K Hs Hb H. unfold Legacy.phraseRegex in H.
  apply (matchAll_fits _ i segs text [] 0%nat) in H.
  destruct H as [pre [rest [E [Len F]]]]. cbn [app] in E.
  destruct segs as [| s0 segs']; [contradiction |].
  cbn [fits] in F. destruct F as [A [_ F]].
  cbn [atom_takes] in A. subst s0.
  destruct (fits_ci [WordB] rest keyword _ segs' F)
    as [m [segs2 [-> [M F2]]]].
  destruct segs2 as [| s2 segs3]; [contradiction |].
  cbn [fits] in F2. destruct F2 as [A2 [_ F3]].
  cbn [atom_takes] in A2. subst s2.
  destruct segs3; [| contradiction].
  cbn [concat app] in E. rewrite concat_app, concat_singles in E.
  cbn [concat app] in E. rewrite app_nil_r in E.
  rewrite K in M. apply Forall2_app_inv_l in M.
  destruct M as [X' [R' [MX [MR ->]]]].
  destruct R' as [| s' R']; [inversion MR |].
  destruct R' as [| b' Z'];
    [inversion MR as [| ? ? ? ? ? MR1]; inversion MR1 |].
  assert (Cs : ci_eqb s s' = true) by (inversion MR; assumption).
  assert (Cb : ci_eqb b b' = true)
    by (inversion MR as [| ? ? ? ? ? MR1]; inversion MR1; assumption).
  apply ci_eqb_space in Cs. apply ci_eqb_space in Cb.
  apply Forall2_length in MX.
  exists (pre ++ X' ++ [s']), (b' :: Z' ++ rest).
  split; [| split; [| split]].
  - rewrite E. rewrite <- !app_assoc. reflexivity.
  - rewrite !length_app. cbn [length]. lia.
  - rewrite app_assoc, last_of_snoc. congruence.
  - congruence.
Qed.

Lemma legacy_phrase_count_bound (keyword text X Z : list ascii) (s b : ascii) :
  keyword = X ++ s :: b :: Z ->
  is_space s = true -> is_space b = false ->
  (length (matchAll (Legacy.phraseRegex keyword) None text 0 0)
   <= length (filter nonempty (split_ws text)))%nat.
Proof.
  intros K Hs Hb.
  set (matches := matchAll (Legacy.phraseRegex keyword) None text 0 0).
  set (g := fun i =>
              length (split_front is_space
                        (firstn (i + length X + 1) text) [] false)).
  rewrite <- (filter_nth_seq nonempty [] (split_ws text)).
  rewrite <- (length_map fst matches), <- (length_map g (map fst matches)).
  assert (M : forall i, In i (map fst matches) ->
              exists pre Y : list ascii,
                text = pre ++ Y /\
                firstn (i + length X + 1) text = pre /\
                length pre = (i + length X + 1)%nat /\
                match last_of None pre with
                | Some c => is_space c = true
                | None => True
                end /\
                match Y with
                | c :: _ => is_space c = false
                | [] => False
                end).
  { intros i Hi. apply in_map_iff in Hi. destruct Hi as [[i' segs] [<- Hi]].
    destruct (legacy_phrase_match_token keyword text X Z s b i' segs
                K Hs Hb Hi) as [pre [Y [E [Len [B S]]]]].
    exists pre, Y. repeat split; try assumption.
    cbn [fst]. rewrite <- Len, E. apply firstn_length_app. }
  apply hits_bound.
  - apply map_sorted_on; [| apply matchAll_sorted].
    intros a c Ha Hc Lt.
    destruct (M a Ha) as [pre1 [Y1 [E1 [F1 [L1 [B1 S1]]]]]].
    destruct (M c Hc) as [pre2 [Y2 [E2 [F2 [L2 [B2 _]]]]]].
    unfold g. rewrite F1, F2.
    apply (token_index_strict text pre1 Y1 pre2 Y2); try assumption. lia.
  - apply Forall_forall. intros j Hj. apply in_map_iff in Hj.
    destruct Hj as [i [<- Hi]].
    destruct (M i Hi) as [pre [Y [E [F [Len [B S]]]]]].
    unfold g. rewrite F.
    destruct (token_at_boundary pre Y B S) as [tok [tail [T N]]].
    rewrite <- E in T. rewrite T. split.
    + rewrite length_app. cbn [length]. lia.
    + now rewrite nth_middle.
Qed.

Lemma filter_length_bound {A : Type} (p : A -> bool) (l : list A) :
  (length (filter p l) <= length l)%nat.
Proof.
  induction l as [| a l IH]; simpl; [lia |]. destruct (p a); simpl; lia.
Qed.

(** The keyword count of the first variant is at most the word count. *)
Lemma legacy_countKeyword_le (target content : list ascii) :
  (Legacy.countKeyword (trim (toLowerCase target)) content
     (contentWords content)
   <= length (contentWords content))%nat.
Proof.
  unfold Legacy.countKeyword. cbv zeta.
  set (keyword := trim (toLowerCase target)).
  destruct (length (split_ws keyword) =? 1)%nat eqn:E1.
  - apply filter_length_bound.
  - apply Nat.eqb_neq in E1.
    destruct (forallb (fun c => negb (is_space c)) keyword) eqn:A.
    + rewrite (split_ws_single keyword A) in E1. now contradiction E1.
    + destruct (space_then_ink keyword None (has_space_of_not_all_ink _ A)
                  (trim_last_ink _)) as [X [Z [s [b [K [Hs Hb]]]]]].
      apply (legacy_phrase_count_bound keyword _ X Z s b K Hs Hb).
Qed.

Lemma densityOf_le_100 (c n : nat) :
  (c <= n)%nat -> (densityOf c n <= 100)%Q.
Proof.
  intros H. unfold densityOf. destruct (0 <? n)%nat eqn:E; [| discriminate].
  apply Nat.ltb_lt in E.
  assert (P : (0 < Qnat n)%Q).
  { unfold Qnat. change 0%Q with (inject_Z 0). rewrite <- Zlt_Qlt. lia. }
  assert (D : (Qnat c / Qnat n <= 1)%Q).
  { apply Qle_shift_div_r; [exact P |]. rewrite Qmult_1_l.
    now apply Qnat_le. }
  lra.
Qed.

Lemma round2_range (x : Q) :
  (0 <= x)%Q -> (x <= 100)%Q -> (0 <= round2 x)%Q /\ (round2 x <= 100)%Q.
Proof.
  intros L U. unfold round2.
  assert (A : 0 <= Math_round (x * 100)).
  { apply Math_round_nonneg. apply Qmult_le_0_compat; [exact L | discriminate]. }
  assert (B : Math_round (x * 100) <= 10000).
  { rewrite <- (Math_round_inject_Z 10000). apply Math_round_monotone.
    change (inject_Z 10000) with (100 * 100)%Q.
    apply Qmult_le_compat_r; [exact U | discriminate]. }
  rewrite Zle_Qle in A, B.
  split.
  - apply Qle_shift_div_l; [reflexivity |]. now rewrite Qmult_0_l.
  - apply Qle_shift_div_r; [reflexivity | exact B].
Qed.

Lemma densityOf_zero_iff (c n : nat) :
  (0 < n)%nat -> ((densityOf c n == 0)%Q <-> c = 0%nat).
Proof.
  intros H. unfold densityOf.
  replace (0 <? n)%nat with true by (symmetry; now apply Nat.ltb_lt).
  assert (P : (0 < Qnat n)%Q).
  { unfold Qnat. change 0%Q with (inject_Z 0). rewrite <- Zlt_Qlt. lia. }
  split.
  - intros E. destruct c as [| c]; [reflexivity |]. exfalso.
    assert (Pc : (0 < Qnat (S c))%Q).
    { unfold Qnat. change 0%Q with (inject_Z 0). rewrite <- Zlt_Qlt. lia. }
    assert (D : (0 < Qnat (S c) / Qnat n)%Q).
    { apply Qlt_shift_div_l; [exact P |]. now rewrite Qmult_0_l. }
    lra.
  - intros ->. unfold Qdiv. change (Qnat 0) with 0%Q.
    rewrite !Qmult_0_l. reflexivity.
Qed.

Lemma keywordStatus_not_found (d : Q) :
  keywordStatus d = status_not_found <-> (d == 0)%Q.
Proof.
  split; [| apply keywordStatus_bands].
  unfold keywordStatus. destruct (Qeqb d 0) eqn:E.
  - intros _. now apply Qeqb_true.
  - repeat match goal with
           | |- context [if ?c then _ else _] => destruct c
           end; intros H; vm_compute in H; discriminate.
Qed.

Lemma contentWords_pos (content : list ascii) :
  nonempty (trim content) = true -> (0 < length (contentWords content))%nat.
Proof.
  intros H. apply nonempty_true in H.
  destruct (trim_has_ink content H) as [c [A B]].
  apply trim_incl in A.
  assert (Hin : In (lower_char c) (toLowerCase content))
    by (unfold toLowerCase; now apply in_map).
  rewrite <- is_space_lower_char in B.
  apply (countWords_pos _ _ Hin B).
Qed.


